(** * TSP Arena: route algorithms, step traces and playback

    A shallow embedding of the computational core of the repository:
    - [src/algorithms/tsp-solver.js]: [calculateDistance],
      [calculateTotalDistance], [perform2OptSwap], [twoOpt],
      [generatePermutations], [greedyTSP], [bruteForceTSP];
    - [src/modules/greedyStepGenerator.js]: [generateGreedySteps];
    - [src/modules/bruteForceStepGenerator.js]: [generateBruteForceSteps];
    - [src/modules/bruteForceRealtime.js]: [runBruteForceLive] and
      [createBruteForceController];
    - [src/modules/stepController.js]: the [StepController] class;
    - [src/modules/twoOptStepGenerator.js]: [generateTwoOptSteps];
    - [src/modules/stepRenderer.js]: [_reconstructState] and
      [_processStep];
    - [src/script.js]: [generateCities], [handleCanvasClick] and
      [calculateRouteDistance];
    - [src/modules/metrics-engine.js]: [calculateScore] and [factorial].

    JavaScript numbers are modelled by exact rationals [Q], extended with
    [Infinity] where the source starts a running minimum at [Infinity].
    [Math.sqrt] is a variable of the development: the theorems hold for
    every square-root function with the few properties they name, and the
    concrete runs use [Qsqrt], which is exact on perfect squares.
    A [TypeError] raised by reading [.x] of [undefined] and the [Error]
    thrown by the size guards are values of [result].  [Math.random] and
    [Math.hypot] are variables as well, the first as the sequence of the
    numbers it returns.

    A distance is finite here, whereas the doubles of the source overflow
    to [Infinity] on coordinates some 1.34e154 apart; a candidate at
    distance [Infinity] never replaces an incumbent at [Infinity], so
    that [greedyTSP], [bruteForceTSP], the live search and the trace
    generators of the source may then end without a route.  Where a
    theorem states that one of them comes back with a route, it does so
    for [coordinates_in_range], where no distance of the source
    overflows. *)

From Stdlib Require Import String Decimal DecimalString.
From Stdlib Require Import List ZArith QArith Qabs Qround Qreduction Lia Lqa Bool.
From Stdlib Require Import Permutation Arith Morphisms FinFun.
Import ListNotations.

Local Open Scope Q_scope.

(** ** Exceptions and results *)

Inductive exn : Type :=
| TypeError                    (* property read on [undefined] / [null] *)
| Error (message : string).    (* [throw new Error(message)] *)

Inductive result (A : Type) : Type :=
| Ok (a : A)
| Throw (e : exn).

Arguments Ok {A} a.
Arguments Throw {A} e.

Definition bind {A B : Type} (r : result A) (k : A -> result B) : result B :=
  match r with
  | Ok a => k a
  | Throw e => Throw e
  end.

Notation "x <- r ;; k" := (bind r (fun x => k))
  (at level 61, r at next level, right associativity).

(** ** Numbers *)

(** A JavaScript number that may be [Infinity]. *)
Inductive number : Type :=
| Num (q : Q)
| Infinity.

Definition Qltb (a b : Q) : bool := negb (Qle_bool b a).

(** [a < b] for a finite [a]. *)
Definition lt_number (a : Q) (b : number) : bool :=
  match b with
  | Num q => Qltb a q
  | Infinity => true
  end.

(** [b - e]; [Infinity - e] is [Infinity]. *)
Definition minus_number (b : number) (e : Q) : number :=
  match b with
  | Num q => Num (q - e)
  | Infinity => Infinity
  end.

(** [a <= b] as a proposition, for statements. *)
Definition le_number (a b : number) : Prop :=
  match a, b with
  | Num p, Num q => p <= q
  | _, Infinity => True
  | Infinity, Num _ => False
  end.

(** ** Cities and routes *)

Record City : Type := mkCity { id : Z; x : Q; y : Q }.

(** City ids in a route.  [-1] is the source's "none" id; like [undefined]
    it indexes no city. *)
Abbreviation Route := (list Z) (only parsing).

(** [cities[i]]: [undefined] (here [None]) outside [0 .. length-1]. *)
Definition city_at (cities : list City) (i : Z) : option City :=
  if (i <? 0)%Z then None else nth_error cities (Z.to_nat i).

(** [route[0]] and [route[route.length - 1]]. *)
Definition first_id (route : Route) : Z := hd (-1)%Z route.
Definition last_id (route : Route) : Z := last route (-1)%Z.

(** [[...route, route[0]]]. *)
Definition close (route : Route) : Route := route ++ [first_id route].

(** [Array.from({length: n}, (_, i) => i)]. *)
Definition allCities (n : nat) : Route := map Z.of_nat (seq 0 n).

Definition EPSILON : Q := 1 # 1000000000.

(** A count as a template literal prints it. *)
Definition decimal (n : nat) : string :=
  NilEmpty.string_of_uint (Nat.to_uint n).

(** ** Permutation enumeration *)

Section Permutations.
Context {A : Type}.

(** [[...array.slice(0, i), ...array.slice(i + 1)]]. *)
Definition without (i : nat) (array : list A) : list A :=
  firstn i array ++ skipn (i + 1) array.

(** The generator [generatePermutations], as the list of what it yields,
    in order.  The recursion is on the length of the array. *)
Fixpoint generatePermutations_rec (depth : nat) (array : list A)
  : list (list A) :=
  match depth with
  | O => [array]
  | S d =>
      if (length array <=? 1)%nat then [array]
      else
        flat_map
          (fun i =>
             match nth_error array i with
             | Some head_ =>
                 map (cons head_) (generatePermutations_rec d (without i array))
             | None => []
             end)
          (seq 0 (length array))
  end.

Definition generatePermutations (array : list A) : list (list A) :=
  generatePermutations_rec (length array) array.
End Permutations.

(** [factorial] of [bruteForceStepGenerator.js] (a loop from 2 to n). *)
Definition factorial (n : nat) : nat :=
  fold_left (fun result_ i => (result_ * i)%nat) (seq 2 (n - 1)) 1%nat.

(** ** The solver, [tsp-solver.js] *)

Record PathResult : Type := mkPathResult { path : Route; distance : number }.

Record RouteResult : Type :=
  mkRouteResult { route : Route; route_distance : Q; iterations : nat }.

Section Solver.
Variable Math_sqrt : Q -> Q.

Definition calculateDistance (cityA cityB : City) : Q :=
  let dx := x cityB - x cityA in
  let dy := y cityB - y cityA in
  Math_sqrt (dx * dx + dy * dy).

(** [calculateDistance(cities[a], cities[b])]: a [TypeError] when either
    index names no city. *)
Definition distance_between (cities : list City) (a b : Z) : result Q :=
  match city_at cities a, city_at cities b with
  | Some cityA, Some cityB => Ok (calculateDistance cityA cityB)
  | _, _ => Throw TypeError
  end.

(** The loop [for (i = 0; i < route.length - 1; i++) totalDistance += ...]. *)
Fixpoint sum_edges (cities : list City) (route : Route) (totalDistance : Q)
  : result Q :=
  match route with
  | a :: (b :: _) as rest =>
      d <- distance_between cities a b ;;
      sum_edges cities rest (totalDistance + d)
  | _ => Ok totalDistance
  end.

(** [calculateTotalDistance(route, cities)]; [None] is a null route. *)
Definition calculateTotalDistance (route : option Route) (cities : list City)
  : result Q :=
  match route with
  | None => Ok 0
  | Some route =>
      if (length route <? 2)%nat then Ok 0
      else
        let isClosed := (first_id route =? last_id route)%Z in
        totalDistance <- sum_edges cities route 0 ;;
        if negb isClosed then
          d <- distance_between cities (last_id route) (first_id route) ;;
          Ok (totalDistance + d)
        else Ok totalDistance
  end.

(** [perform2OptSwap(route, i, k)]. *)
Definition perform2OptSwap (route : Route) (i k : nat) : Route :=
  let start := firstn i route in
  let middle := rev (skipn i (firstn (k + 1) route)) in
  let end_ := skipn (k + 1) route in
  start ++ middle ++ end_.

(** *** [twoOpt] *)

(** The inner loop [for (k = i + 1; k < n; k++)], over the [k] still to
    try: the first improving candidate, if any. *)
Fixpoint twoOpt_for_k (cities : list City) (route : Route) (bestDistance : Q)
  (i : nat) (ks : list nat) : result (option (Route * Q)) :=
  match ks with
  | [] => Ok None
  | k :: ks' =>
      let newRoute := perform2OptSwap route i k in
      newDistance <- calculateTotalDistance (Some newRoute) cities ;;
      if Qltb newDistance (bestDistance - EPSILON)
      then Ok (Some (newRoute, newDistance))
      else twoOpt_for_k cities route bestDistance i ks'
  end.

(** The outer loop [for (i = 1; i < n - 1; i++)], left by
    [if (improved) break]. *)
Fixpoint twoOpt_for_i (cities : list City) (route : Route) (bestDistance : Q)
  (n : nat) (is_ : list nat) : result (option (Route * Q)) :=
  match is_ with
  | [] => Ok None
  | i :: is' =>
      found <- twoOpt_for_k cities route bestDistance i
                 (seq (i + 1) (n - (i + 1))) ;;
      match found with
      | Some swap => Ok (Some swap)
      | None => twoOpt_for_i cities route bestDistance n is'
      end
  end.

(** One pass of the body of [while (improved)]. *)
Definition twoOpt_pass (cities : list City) (route : Route) (bestDistance : Q)
  (n : nat) : result (option (Route * Q)) :=
  twoOpt_for_i cities route bestDistance n (seq 1 (n - 2)).

(** [while (improved) { ... }]: [None] when the fuel runs out. *)
Fixpoint twoOpt_while (fuel : nat) (cities : list City) (n : nat)
  (route : Route) (bestDistance : Q) (iterations : nat)
  : option (result (Route * Q * nat)) :=
  match fuel with
  | O => None
  | S fuel' =>
      match twoOpt_pass cities route bestDistance n with
      | Throw e => Some (Throw e)
      | Ok None => Some (Ok (route, bestDistance, iterations))
      | Ok (Some (newRoute, newDistance)) =>
          twoOpt_while fuel' cities n newRoute newDistance (S iterations)
      end
  end.

(** [baseRoute]: the initial route without a trailing repeat of its
    first id. *)
Definition baseRoute_of (initialRoute : Route) : Route :=
  if ((1 <? length initialRoute)%nat
      && (first_id initialRoute =? last_id initialRoute)%Z)%bool
  then removelast initialRoute
  else initialRoute.

Definition twoOpt (fuel : nat) (cities : list City)
  (initialRoute : option Route) : option (result RouteResult) :=
  if (length cities <? 2)%nat then Some (Ok (mkRouteResult [] 0 0))
  else
    match initialRoute with
    | None => Some (Ok (mkRouteResult [] 0 0))
    | Some initialRoute =>
        if (length initialRoute <? 2)%nat
        then Some (Ok (mkRouteResult [] 0 0))
        else
          let baseRoute := baseRoute_of initialRoute in
          let n := length baseRoute in
          if (n <? 3)%nat then
            let closedRoute := close baseRoute in
            Some (d <- calculateTotalDistance (Some closedRoute) cities ;;
                  Ok (mkRouteResult closedRoute d 0))
          else
            match calculateTotalDistance (Some baseRoute) cities with
            | Throw e => Some (Throw e)
            | Ok bestDistance =>
                match twoOpt_while fuel cities n baseRoute bestDistance 0 with
                | None => None
                | Some (Throw e) => Some (Throw e)
                | Some (Ok (route, bestDistance, iterations)) =>
                    Some (Ok (mkRouteResult (close route) bestDistance
                                iterations))
                end
            end
    end.

(** *** [greedyTSP] *)

(** [visited[j]]. *)
Definition is_visited (visited : list bool) (j : nat) : bool :=
  nth j visited false.

(** [visited[i] = true].  A negative [i] only adds a property to the
    array object; an [i] past the end extends the array. *)
Definition mark_visited (visited : list bool) (i : Z) : list bool :=
  if (i <? 0)%Z then visited
  else
    let k := Z.to_nat i in
    if (k <? length visited)%nat
    then firstn k visited ++ true :: skipn (k + 1) visited
    else visited ++ repeat false (k - length visited) ++ [true].

(** The scan [for (j = 0; j < cities.length; j++)] for the nearest
    unvisited city, over the [j] still to look at. *)
Fixpoint nearest_scan (cities : list City) (visited : list bool)
  (currentCity : Z) (js : list nat) (nearestCity : Z)
  (nearestDistance : number) : result (Z * number) :=
  match js with
  | [] => Ok (nearestCity, nearestDistance)
  | j :: js' =>
      if negb (is_visited visited j) then
        d <- distance_between cities currentCity (Z.of_nat j) ;;
        if lt_number d nearestDistance
        then nearest_scan cities visited currentCity js' (Z.of_nat j) (Num d)
        else nearest_scan cities visited currentCity js' nearestCity
               nearestDistance
      else nearest_scan cities visited currentCity js' nearestCity
             nearestDistance
  end.

(** The loop [for (i = 1; i < cities.length; i++)], [rounds] iterations
    of it. *)
Fixpoint greedy_for (rounds : nat) (cities : list City)
  (visited : list bool) (path_ : Route) (currentCity : Z) : result Route :=
  match rounds with
  | O => Ok path_
  | S rounds' =>
      found <- nearest_scan cities visited currentCity
                 (seq 0 (length cities)) (-1)%Z Infinity ;;
      let nearestCity := fst found in
      greedy_for rounds' cities (mark_visited visited nearestCity)
        (path_ ++ [nearestCity]) nearestCity
  end.

Definition greedyTSP (cities : list City) : result PathResult :=
  if (length cities <? 2)%nat then Ok (mkPathResult [] (Num 0))
  else
    let visited := mark_visited (repeat false (length cities)) 0%Z in
    path_ <- greedy_for (length cities - 1) cities visited [0%Z] 0%Z ;;
    let path_ := path_ ++ [0%Z] in
    d <- calculateTotalDistance (Some path_) cities ;;
    Ok (mkPathResult path_ (Num d)).

(** *** [bruteForceTSP] *)

(** The body of [for (const perm of generatePermutations(allCities))]. *)
Fixpoint bruteForce_for (cities : list City) (perms : list Route)
  (minDistance : number) (optimalPath : Route) : result PathResult :=
  match perms with
  | [] => Ok (mkPathResult optimalPath minDistance)
  | perm :: perms' =>
      let path_ := close perm in
      d <- calculateTotalDistance (Some path_) cities ;;
      if lt_number d (minus_number minDistance EPSILON)
      then bruteForce_for cities perms' (Num d) path_
      else bruteForce_for cities perms' minDistance optimalPath
  end.

Definition bruteForceTSP (cities : list City) : result PathResult :=
  if (length cities <? 2)%nat then Ok (mkPathResult [] (Num 0))
  else if (10 <? length cities)%nat
  then Throw (Error "Brute Force TSP only practical for n ≤ 10")
  else
    let n := length cities in
    bruteForce_for cities (generatePermutations (allCities n)) Infinity [].

End Solver.

(** A computable square root on [Q]: the floor of the integer square root
    of [a * b] over [b] for the reduced fraction [a / b].  It is exact on
    squares of rationals, so on every distance between cities laid out on
    a line of integer coordinates. *)
Definition Qsqrt (q : Q) : Q :=
  let r := Qred q in
  Z.sqrt (Qnum r * Z.pos (Qden r)) # Qden r.

(** ** Step traces *)

(** A value stored under a key of a step's [metadata].  Numbers that the
    source formats with [toFixed] and routes that it joins into a string
    are kept as numbers and routes.  The [explanation] and [label] texts
    and the entries formatted with [toLocaleString], which only the
    display reads, are not modelled. *)
Inductive value : Type :=
| VNumber (v : number)
| VCount (n : nat)
| VId (i : Z)
| VRoute (r : Route)
| VBool (b : bool)
| VText (s : string).

Module Step.
Record t : Type := mk {
  type : string;
  fromCity : option Z;
  toCity : option Z;
  metadata : list (string * value);
  path : option Route;
  distance : option number;
  algorithmType : option string
}.
End Step.

Definition Step : Type := Step.t.

(** A step that has only a type and metadata. *)
Definition metadata_step (type : string) (metadata : list (string * value))
  : Step :=
  Step.mk type None None metadata None None None.

(** A step along an edge. *)
Definition edge_step (type : string) (fromCity toCity : Z)
  (metadata : list (string * value)) : Step :=
  Step.mk type (Some fromCity) (Some toCity) metadata None None None.

(** The terminal step of a trace. *)
Definition final_result_step (path : Route) (distance : number)
  (algorithmType : string) : Step :=
  Step.mk "final_result" None None [] (Some path) (Some distance)
    (Some algorithmType).

(** A JavaScript [Set] of ids, in insertion order. *)
Module IdSet.
Definition t : Type := list Z.
Definition has (s : t) (i : Z) : bool := existsb (Z.eqb i) s.
Definition add (s : t) (i : Z) : t := if has s i then s else s ++ [i].
Definition size (s : t) : nat := length s.
End IdSet.

Section StepGenerators.
Variable Math_sqrt : Q -> Q.

(** The distance the generators compute inline,
    [Math.sqrt(dx * dx + dy * dy)] with
    [dx = cities[to].x - cities[from].x]. *)
Definition inline_distance (cities : list City) (from to : Z) : result Q :=
  match city_at cities to, city_at cities from with
  | Some cityTo, Some cityFrom =>
      let dx := x cityTo - x cityFrom in
      let dy := y cityTo - y cityFrom in
      Ok (Math_sqrt (dx * dx + dy * dy))
  | _, _ => Throw TypeError
  end.

(** *** [generateGreedySteps] *)

(** [for (const cityId of candidates)]: the nearest candidate. *)
Fixpoint nearest_candidate (cities : list City) (currentCity : Z)
  (candidates : list Z) (nearest : Z) (minDist : number)
  : result (Z * number) :=
  match candidates with
  | [] => Ok (nearest, minDist)
  | cityId :: candidates' =>
      dist <- inline_distance cities currentCity cityId ;;
      if lt_number dist minDist
      then nearest_candidate cities currentCity candidates' cityId (Num dist)
      else nearest_candidate cities currentCity candidates' nearest minDist
  end.

(** The first [while (visited.size < n)], which emits the steps. *)
Fixpoint greedy_steps_while (fuel : nat) (cities : list City) (n : nat)
  (visited : IdSet.t) (currentCity : Z) (steps : list Step)
  : option (result (list Step * Z)) :=
  if (IdSet.size visited <? n)%nat then
    match fuel with
    | O => None
    | S fuel' =>
        let candidates :=
          filter (fun i => negb (IdSet.has visited i)) (allCities n) in
        let steps :=
          steps ++
          map (fun cityId =>
                 edge_step "candidate_edge" currentCity cityId
                   [("candidateCount"%string, VCount (length candidates))])
              candidates in
        match nearest_candidate cities currentCity candidates (-1)%Z
                Infinity with
        | Throw e => Some (Throw e)
        | Ok (nearest, minDist) =>
            let steps :=
              steps ++
              [edge_step "decision" currentCity nearest
                 [("distance"%string, VNumber minDist)];
               edge_step "edge_added" currentCity nearest
                 [("distance"%string, VNumber minDist);
                  ("visitedCount"%string,
                    VCount (IdSet.size visited + 1));
                  ("totalCount"%string, VCount n)]] in
            greedy_steps_while fuel' cities n (IdSet.add visited nearest)
              nearest steps
        end
    end
  else Some (Ok (steps, currentCity)).

(** [for (i = 0; i < n; i++) if (!innerVisited.has(i)) ...]. *)
Fixpoint reconstruct_scan (cities : list City) (innerVisited : IdSet.t)
  (innerCurrent : Z) (is_ : list nat) (nearest : Z) (minDist : number)
  : result (Z * number) :=
  match is_ with
  | [] => Ok (nearest, minDist)
  | i :: is' =>
      if negb (IdSet.has innerVisited (Z.of_nat i)) then
        dist <- inline_distance cities innerCurrent (Z.of_nat i) ;;
        if lt_number dist minDist
        then reconstruct_scan cities innerVisited innerCurrent is'
               (Z.of_nat i) (Num dist)
        else reconstruct_scan cities innerVisited innerCurrent is'
               nearest minDist
      else reconstruct_scan cities innerVisited innerCurrent is'
             nearest minDist
  end.

(** The second [while (innerVisited.size < n)], which rebuilds the path. *)
Fixpoint greedy_reconstruct_while (fuel : nat) (cities : list City) (n : nat)
  (innerVisited : IdSet.t) (innerCurrent : Z) (visitedOrder : Route)
  : option (result Route) :=
  if (IdSet.size innerVisited <? n)%nat then
    match fuel with
    | O => None
    | S fuel' =>
        match reconstruct_scan cities innerVisited innerCurrent (seq 0 n)
                (-1)%Z Infinity with
        | Throw e => Some (Throw e)
        | Ok (nearest, _) =>
            greedy_reconstruct_while fuel' cities n
              (IdSet.add innerVisited nearest) nearest
              (visitedOrder ++ [nearest])
        end
    end
  else Some (Ok visitedOrder).

Definition generateGreedySteps (fuel : nat) (cities : list City)
  : option (result (list Step)) :=
  let n := length cities in
  let steps :=
    [metadata_step "metadata_update"
       [("globalMessage"%string,
          VText ("Starting Greedy TSP with " ++ decimal n ++ " cities"))]] in
  match greedy_steps_while fuel cities n [0%Z] 0%Z steps with
  | None => None
  | Some (Throw e) => Some (Throw e)
  | Some (Ok (steps, currentCity)) =>
      match inline_distance cities currentCity 0%Z with
      | Throw e => Some (Throw e)
      | Ok finalDist =>
          let steps :=
            steps ++
            [edge_step "route_closed" currentCity 0%Z
               [("distance"%string, VNumber (Num finalDist))]] in
          match greedy_reconstruct_while fuel cities n [0%Z] 0%Z [0%Z] with
          | None => None
          | Some (Throw e) => Some (Throw e)
          | Some (Ok visitedOrder) =>
              let visitedOrder := visitedOrder ++ [0%Z] in
              Some (totalDistance <-
                      calculateTotalDistance Math_sqrt (Some visitedOrder)
                        cities ;;
                    Ok (steps ++
                        [metadata_step "metadata_update"
                           [("globalMessage"%string,
                              VText "Greedy algorithm complete!");
                            ("totalDistance"%string,
                              VNumber (Num totalDistance))];
                         final_result_step visitedOrder (Num totalDistance)
                           "greedy"]))
          end
      end
  end.

(** *** [generateBruteForceSteps] *)

(** The state of the loop over the permutations. *)
Record BruteForceTrace : Type := mkBruteForceTrace {
  bestDistance : number;
  bestPath : option Route;             (* [null] until a best is found *)
  permutationCount : nat;
  sampledCount : nat;
  steps_so_far : list Step
}.

(** [for (const perm of generatePermutations(allCities))]. *)
Fixpoint bruteForceSteps_for (cities : list City) (samplingRate : nat)
  (totalPermutations : nat) (perms : list Route) (st : BruteForceTrace)
  : result BruteForceTrace :=
  match perms with
  | [] => Ok st
  | perm :: perms' =>
      let permutationCount := S (permutationCount st) in
      if (permutationCount mod samplingRate =? 0)%nat then
        d <- calculateTotalDistance Math_sqrt (Some perm) cities ;;
        let sampledCount := S (sampledCount st) in
        let improved := lt_number d (minus_number (bestDistance st) EPSILON) in
        let bestDistance' := if improved then Num d else bestDistance st in
        let bestPath' := if improved then Some (close perm) else bestPath st in
        let found :=
          if improved then
            [metadata_step "best_found"
               [("permutation"%string, VRoute perm);
                ("distance"%string, VNumber (Num d));
                ("counter"%string,
                  VText (decimal permutationCount ++ " / "
                         ++ decimal totalPermutations))]]
          else [] in
        let isBest :=
          match bestDistance' with
          | Num b => Qltb (Qabs (d - b)) EPSILON
          | Infinity => false
          end in
        let check :=
          metadata_step "permutation_check"
            [("permutation"%string, VRoute perm);
             ("distance"%string, VNumber (Num d));
             ("current"%string, VCount permutationCount);
             ("total"%string, VCount totalPermutations);
             ("isBest"%string, VBool isBest)] in
        bruteForceSteps_for cities samplingRate totalPermutations perms'
          (mkBruteForceTrace bestDistance' bestPath' permutationCount
             sampledCount (steps_so_far st ++ found ++ [check]))
      else
        bruteForceSteps_for cities samplingRate totalPermutations perms'
          (mkBruteForceTrace (bestDistance st) (bestPath st)
             permutationCount (sampledCount st) (steps_so_far st))
  end.

Definition generateBruteForceSteps (cities : list City) (samplingRate : nat)
  : result (list Step) :=
  let n := length cities in
  let totalPermutations := factorial n in
  let steps :=
    [metadata_step "metadata_update"
       [("globalMessage"%string,
          VText ("Brute Force TSP - Checking " ++ decimal totalPermutations
                 ++ " permutations"))]] in
  st <- bruteForceSteps_for cities samplingRate totalPermutations
          (generatePermutations (allCities n))
          (mkBruteForceTrace Infinity None 0 0 steps) ;;
  match bestPath st with
  | None => Throw TypeError            (* [bestPath.slice] on [null] *)
  | Some bestPath =>
      let steps :=
        steps_so_far st ++
        [metadata_step "metadata_update"
           [("globalMessage"%string, VText "Optimal solution found!");
            ("optimalRoute"%string, VRoute (removelast bestPath));
            ("optimalDistance"%string, VNumber (bestDistance st));
            ("totalPermutationsChecked"%string, VCount totalPermutations)]] in
      let finalPath :=
        if negb (last_id bestPath =? first_id bestPath)%Z
        then bestPath ++ [first_id bestPath]
        else bestPath in
      Ok (steps ++
          [final_result_step finalPath (bestDistance st) "bruteforce"])
  end.

End StepGenerators.

(** ** The live search, [bruteForceRealtime.js] *)

Module Live.

(** The cancellation controller of [createBruteForceController]. *)
Record Controller : Type := mkController { isCancelled : bool }.

Definition createBruteForceController : Controller := mkController false.
Definition cancel (c : Controller) : Controller := mkController true.
Definition reset (c : Controller) : Controller := mkController false.

(** [state.bruteForceController]; [None] is [null]. *)
Definition Token : Type := option Controller.

(** [state.bruteForceController?.isCancelled]. *)
Definition cancelled (token : Token) : bool :=
  match token with
  | Some c => isCancelled c
  | None => false
  end.

(** What the rest of the program does to [state.bruteForceController]
    while the runner is suspended after its [k]-th permutation. *)
Definition Environment : Type := nat -> Token -> Token.

(** The argument of one [onProgress] call (without its percentage). *)
Record Progress : Type := mkProgress {
  progress_checked : nat;
  progress_total : nat;
  currentDistance : Q;
  progress_best : number
}.

Record LiveResult : Type := mkLiveResult {
  path : option Route;                 (* [null] when nothing was checked *)
  distance : number;
  permutationsChecked : nat;
  totalPermutations : nat;
  reported : list Progress             (* the [onProgress] calls, in order *)
}.

Section Runner.
Variable Math_sqrt : Q -> Q.

(** The loop of [calculatePathDistance]. *)
Fixpoint path_edges (cities : list City) (path_ : Route) (distance_ : Q)
  : result Q :=
  match path_ with
  | a :: (b :: _) as rest =>
      d <- inline_distance Math_sqrt cities a b ;;
      path_edges cities rest (distance_ + d)
  | _ => Ok distance_
  end.

(** [calculatePathDistance(path, cities)]: the edges of the path, then
    the edge from its last id back to its first. *)
Definition calculatePathDistance (path_ : Route) (cities : list City)
  : result Q :=
  distance_ <- path_edges cities path_ 0 ;;
  d <- inline_distance Math_sqrt cities (last_id path_) (first_id path_) ;;
  Ok (distance_ + d).

(** [for (const perm of generatePermutations(allCities))], with the
    suspension at the end of its body. *)
Fixpoint live_for (cities : list City) (env : Environment)
  (totalPerms : nat) (perms : list Route) (token : Token)
  (bestDistance : number) (bestRoute : option Route)
  (permutationsChecked_ : nat) (reported_ : list Progress)
  : result LiveResult :=
  match perms with
  | [] =>
      Ok (mkLiveResult bestRoute bestDistance permutationsChecked_
            totalPerms reported_)
  | perm :: perms' =>
      if cancelled token then
        Ok (mkLiveResult bestRoute bestDistance permutationsChecked_
              totalPerms reported_)
      else
        let permutationsChecked_ := S permutationsChecked_ in
        let fullPath := close perm in
        d <- calculatePathDistance fullPath cities ;;
        let better := lt_number d bestDistance in
        let bestDistance := if better then Num d else bestDistance in
        let bestRoute := if better then Some fullPath else bestRoute in
        let reported_ :=
          reported_ ++
          [mkProgress permutationsChecked_ totalPerms d bestDistance] in
        (* await: the environment runs *)
        let token := env permutationsChecked_ token in
        live_for cities env totalPerms perms' token bestDistance
          bestRoute permutationsChecked_ reported_
  end.

(** [runBruteForceLive]: [Ok] is the value the promise resolves with,
    [Throw] the error it rejects with.  [token] is
    [state.bruteForceController] at the call. *)
Definition runBruteForceLive (cities : list City) (env : Environment)
  (token : Token) : result LiveResult :=
  let n := length cities in
  if (9 <? n)%nat
  then Throw (Error ("Brute Force limited to 9 cities. Current: "
                     ++ decimal n))
  else
    let totalPerms := factorial n in
    live_for cities env totalPerms (generatePermutations (allCities n))
      token Infinity None 0 [].
End Runner.

End Live.

(** ** The playback controller, [stepController.js] *)

Module StepController.

(** A call of one of the observer hooks. *)
Inductive Notification : Type :=
| StepChanged (index : Z)              (* [onStepChanged], then
                                          [onExplanationUpdated] *)
| PlaybackStateChanged (playing : bool).

Record t : Type := mk {
  steps : list Step;
  currentStepIndex : Z;
  isPlaying : bool;
  playbackSpeed : Z;
  playbackInterval : bool;             (* a timer is armed *)
  algorithmName : string;
  totalCities : nat;
  userRoute : Route;
  notified : list Notification         (* the hook calls so far *)
}.

Definition constructor : t := mk [] (-1) false 500 false "" 0 [] [].

Definition set_index (c : t) (i : Z) : t :=
  mk (steps c) i (isPlaying c) (playbackSpeed c) (playbackInterval c)
    (algorithmName c) (totalCities c) (userRoute c) (notified c).

Definition notify (c : t) (e : Notification) : t :=
  mk (steps c) (currentStepIndex c) (isPlaying c) (playbackSpeed c)
    (playbackInterval c) (algorithmName c) (totalCities c) (userRoute c)
    (notified c ++ [e]).

Definition _notifyStepChanged (c : t) : t :=
  notify c (StepChanged (currentStepIndex c)).

Definition _notifyPlaybackStateChanged (c : t) : t :=
  notify c (PlaybackStateChanged (isPlaying c)).

(** [this.steps.length], as the number the index is compared with. *)
Definition steps_length (c : t) : Z := Z.of_nat (length (steps c)).

(** [getCurrentStep]: [None] is [null]. *)
Definition getCurrentStep (c : t) : option Step :=
  if ((currentStepIndex c <? 0) || (steps_length c <=? currentStepIndex c))%Z
  then None
  else nth_error (steps c) (Z.to_nat (currentStepIndex c)).

Definition pause (c : t) : t :=
  if negb (isPlaying c) then c
  else
    _notifyPlaybackStateChanged
      (mk (steps c) (currentStepIndex c) false (playbackSpeed c) false
         (algorithmName c) (totalCities c) (userRoute c) (notified c)).

(** [["final_result", "final"].includes(type)]. *)
Definition is_terminal_type (type : string) : bool :=
  (String.eqb type "final_result" || String.eqb type "final")%bool.

(** [next]: the new controller and the value returned. *)
Definition next (c : t) : t * bool :=
  if (currentStepIndex c <? steps_length c - 1)%Z then
    let c := _notifyStepChanged (set_index c (currentStepIndex c + 1)) in
    let c :=
      match getCurrentStep c with
      | Some currentStep =>
          if (is_terminal_type (Step.type currentStep) && isPlaying c)%bool
          then pause c else c
      | None => c
      end in
    (c, true)
  else (c, false).

Definition previous (c : t) : t * bool :=
  if (-1 <? currentStepIndex c)%Z
  then (_notifyStepChanged (set_index c (currentStepIndex c - 1)), true)
  else (c, false).

(** [play]: arms the timer whose ticks are [tick]. *)
Definition play (c : t) : t :=
  if isPlaying c then c
  else
    let c :=
      if (steps_length c - 1 <=? currentStepIndex c)%Z
      then set_index c (-1) else c in
    let c :=
      mk (steps c) (currentStepIndex c) true (playbackSpeed c)
        (playbackInterval c) (algorithmName c) (totalCities c)
        (userRoute c) (notified c) in
    let c := _notifyPlaybackStateChanged c in
    mk (steps c) (currentStepIndex c) (isPlaying c) (playbackSpeed c) true
      (algorithmName c) (totalCities c) (userRoute c) (notified c).

(** One firing of the interval callback [if (!this.next()) this.pause()];
    nothing fires when no timer is armed. *)
Definition tick (c : t) : t :=
  if playbackInterval c then
    let (c', advanced) := next c in
    if advanced then c' else pause c'
  else c.

Definition replay (c : t) : t :=
  play (_notifyStepChanged (set_index (pause c) (-1))).

Definition reset (c : t) : t :=
  _notifyStepChanged (set_index (pause c) (-1)).

Definition clear (c : t) : t :=
  let c := pause c in
  mk [] (-1) (isPlaying c) (playbackSpeed c) (playbackInterval c)
    "" 0 [] (notified c).

Definition initialize (c : t) (algorithmName : string) (totalCities : nat)
  (userRoute : Route) : t :=
  let c := clear c in
  mk (steps c) (-1) (isPlaying c) (playbackSpeed c) (playbackInterval c)
    algorithmName totalCities userRoute (notified c).

(** [addStep]: a step without a type is reported and dropped. *)
Definition addStep (c : t) (step : Step) : t :=
  if String.eqb (Step.type step) "" then c
  else
    mk (steps c ++ [step]) (currentStepIndex c) (isPlaying c)
      (playbackSpeed c) (playbackInterval c) (algorithmName c)
      (totalCities c) (userRoute c) (notified c).

Definition addSteps (c : t) (stepsArray : list Step) : t :=
  fold_left addStep stepsArray c.

Definition setPlaybackSpeed (c : t) (ms : Z) : t :=
  let c :=
    mk (steps c) (currentStepIndex c) (isPlaying c) (Z.max 100 ms)
      (playbackInterval c) (algorithmName c) (totalCities c) (userRoute c)
      (notified c) in
  if isPlaying c then play (pause c) else c.

(** The operations of the class, as the calls a client can make. *)
Inductive Op : Type :=
| OpInitialize (algorithmName : string) (totalCities : nat) (userRoute : Route)
| OpAddStep (step : Step)
| OpAddSteps (stepsArray : list Step)
| OpNext
| OpPrevious
| OpPlay
| OpTick
| OpPause
| OpReplay
| OpReset
| OpClear
| OpSetPlaybackSpeed (ms : Z).

Definition run_op (c : t) (op : Op) : t :=
  match op with
  | OpInitialize a n r => initialize c a n r
  | OpAddStep s => addStep c s
  | OpAddSteps ss => addSteps c ss
  | OpNext => fst (next c)
  | OpPrevious => fst (previous c)
  | OpPlay => play c
  | OpTick => tick c
  | OpPause => pause c
  | OpReplay => replay c
  | OpReset => reset c
  | OpClear => clear c
  | OpSetPlaybackSpeed ms => setPlaybackSpeed c ms
  end.

Definition run_ops (c : t) (ops : list Op) : t := fold_left run_op ops c.

(** The index is [-1] or the position of a loaded step. *)
Definition index_in_range (c : t) : Prop :=
  (-1 <= currentStepIndex c <= steps_length c - 1)%Z.

End StepController.

(** The cities a greedy trace commits to: the [toCity] of its
    [edge_added] steps, in order. *)
Definition committed (steps : list Step) : list (option Z) :=
  map Step.toCity
    (filter (fun s => String.eqb (Step.type s) "edge_added") steps).

(** ** Concrete inputs *)

(** A city at integer coordinates. *)
Definition city (i x_ y_ : Z) : City := mkCity i (inject_Z x_) (inject_Z y_).

(** The square of the consistency test in [tsp-solver.js]. *)
Definition square_cities : list City :=
  [city 0 0 0; city 1 0 10; city 2 10 10; city 3 10 0].

(** Two cities three apart. *)
Definition two_cities : list City := [city 0 0 0; city 1 3 0].

(** Four cities on a line, visited out of order by the identity route. *)
Definition line_cities : list City :=
  [city 0 0 0; city 1 2 0; city 2 1 0; city 3 3 0].

(** Ten cities on a line. *)
Definition ten_cities : list City :=
  map (fun i => city (Z.of_nat i) (Z.of_nat i) 0) (seq 0 10).

(** A trace of three steps, and a fresh controller loaded with it. *)
Definition demo_decision : Step := edge_step "decision" 0 1 [].
Definition demo_edge_added : Step := edge_step "edge_added" 0 1 [].
Definition demo_final_result : Step :=
  final_result_step [0; 1; 0]%Z (Num 6) "greedy".

Definition demo_controller : StepController.t :=
  StepController.addSteps
    (StepController.initialize StepController.constructor "Greedy" 2 [])
    [demo_decision; demo_edge_added; demo_final_result].

(** The environment of a live run in which the pause button is pressed
    during the suspension after the [k]-th permutation, and nothing else
    touches the controller. *)
Definition cancel_after (k : nat) : Live.Environment :=
  fun checked token =>
    if (checked =? k)%nat then option_map Live.cancel token else token.

(** The controller's token after the suspension that follows the [j]-th
    permutation of a run in which nothing is cancelled before. *)
Fixpoint token_after (env : Live.Environment) (token : Live.Token) (j : nat)
  : Live.Token :=
  match j with
  | O => token
  | S j' => env j (token_after env token j')
  end.

(** A route over [n] cities in the sense of the data model: each of the
    ids [0 .. n-1] once (open), or such a route with its first id
    repeated at the end (closed). *)
Definition open_tour (n : nat) (r : Route) : Prop :=
  Permutation r (allCities n).

Definition tour (n : nat) (r : Route) : Prop :=
  open_tour n r \/ exists p, open_tour n p /\ r = close p.

(** Every id of the route names a city. *)
Definition valid_route (cities : list City) (r : Route) : Prop :=
  Forall (fun i => (0 <= i < Z.of_nat (length cities))%Z) r.

(** The coordinates at which the distances of the source stay finite.
    The numbers of the source are doubles: once a coordinate difference
    exceeds about 1.34e154 its square is [Infinity], and so is every
    distance and route length computed from it.  With all coordinates
    within [MAX_COORDINATE] in absolute value, [dx * dx + dy * dy] is at
    most 8e300, below the largest double, and no distance or sum of
    distances overflows. *)
Definition MAX_COORDINATE : Q := inject_Z (10 ^ 150).

Definition coordinates_in_range (cities : list City) : Prop :=
  Forall (fun c => Qabs (x c) <= MAX_COORDINATE /\
                   Qabs (y c) <= MAX_COORDINATE) cities.

(** What the loop of [greedyTSP] maintains: the array marks exactly the
    cities of the path, which repeats none and ends at the current city. *)
Record greedy_inv (cities : list City) (visited : list bool) (path_ : Route)
  (cur : Z) : Prop := {
  inv_length : length visited = length cities;
  inv_NoDup : NoDup path_;
  inv_valid : valid_route cities path_;
  inv_visited : forall j, (j < length cities)%nat ->
                  (is_visited visited j = true <-> In (Z.of_nat j) path_);
  inv_current : In cur path_
}.

(** ** The 2-opt step trace, [twoOptStepGenerator.js] *)

(** A step of the 2-opt trace (without its [explanation] text). *)
Module TwoOptStep.
Record t : Type := mk {
  type : string;
  currentRoute : Route;
  distance : Q;
  swapIndices : option (nat * nat)
}.
End TwoOptStep.

(** The number of steps of a 2-opt trace with the given type:
    [steps.filter(step => step.type === type).length]. *)
Definition count_two_opt_steps (type : string) (steps : list TwoOptStep.t)
  : nat :=
  length (filter (fun s => String.eqb (TwoOptStep.type s) type) steps).

Section TwoOptStepGenerator.
Variable Math_sqrt : Q -> Q.

(** The inner loop [for (k = i + 1; k < n; k++)] of [generateTwoOptSteps]:
    the steps pushed so far and the accepted candidate, if any. *)
Fixpoint twoOptSteps_for_k (cities : list City) (route : Route)
  (currentDistance : Q) (i : nat) (ks : list nat) (steps : list TwoOptStep.t)
  : result (list TwoOptStep.t * option (Route * Q)) :=
  match ks with
  | [] => Ok (steps, None)
  | k :: ks' =>
      let steps :=
        steps ++
        [TwoOptStep.mk "compare" (close route) currentDistance (Some (i, k))] in
      let candidateRoute := perform2OptSwap route i k in
      candidateDistance <-
        calculateTotalDistance Math_sqrt (Some candidateRoute) cities ;;
      if Qltb candidateDistance (currentDistance - EPSILON)
      then
        Ok (steps ++
            [TwoOptStep.mk "swap" (close candidateRoute) candidateDistance
               (Some (i, k))],
            Some (candidateRoute, candidateDistance))
      else twoOptSteps_for_k cities route currentDistance i ks' steps
  end.

(** The outer loop [for (i = 1; i < n - 1; i++)], left by
    [if (improved) break]. *)
Fixpoint twoOptSteps_for_i (cities : list City) (route : Route)
  (currentDistance : Q) (n : nat) (is_ : list nat) (steps : list TwoOptStep.t)
  : result (list TwoOptStep.t * option (Route * Q)) :=
  match is_ with
  | [] => Ok (steps, None)
  | i :: is' =>
      found <- twoOptSteps_for_k cities route currentDistance i
                 (seq (i + 1) (n - (i + 1))) steps ;;
      match found with
      | (steps, Some swap) => Ok (steps, Some swap)
      | (steps, None) =>
          twoOptSteps_for_i cities route currentDistance n is' steps
      end
  end.

(** [while (improved) { ... }]: [None] when the fuel runs out. *)
Fixpoint twoOptSteps_while (fuel : nat) (cities : list City) (n : nat)
  (route : Route) (currentDistance : Q) (steps : list TwoOptStep.t)
  : option (result (list TwoOptStep.t * Route * Q)) :=
  match fuel with
  | O => None
  | S fuel' =>
      match twoOptSteps_for_i cities route currentDistance n (seq 1 (n - 2))
              steps with
      | Throw e => Some (Throw e)
      | Ok (steps, None) => Some (Ok (steps, route, currentDistance))
      | Ok (steps, Some (candidateRoute, candidateDistance)) =>
          twoOptSteps_while fuel' cities n candidateRoute candidateDistance
            steps
      end
  end.

Definition generateTwoOptSteps (fuel : nat) (cities : list City)
  (initialRoute : option Route) : option (result (list TwoOptStep.t)) :=
  if (length cities <? 2)%nat
  then Some (Ok [TwoOptStep.mk "final" [] 0 None])
  else
    match greedyTSP Math_sqrt cities with
    | Throw e => Some (Throw e)
    | Ok greedyResult =>
        let startRoute :=
          match initialRoute with
          | Some initialRoute =>
              if (1 <? length initialRoute)%nat then initialRoute
              else path greedyResult
          | None => path greedyResult
          end in
        let startRoute := baseRoute_of startRoute in
        let n := length startRoute in
        match calculateTotalDistance Math_sqrt (Some startRoute) cities with
        | Throw e => Some (Throw e)
        | Ok currentDistance =>
            match twoOptSteps_while fuel cities n startRoute currentDistance
                    [] with
            | None => None
            | Some (Throw e) => Some (Throw e)
            | Some (Ok (steps, route, currentDistance)) =>
                Some (Ok (steps ++
                          [TwoOptStep.mk "final" (close route) currentDistance
                             None]))
            end
        end
    end.
End TwoOptStepGenerator.

(** ** The state a trace is replayed into, [stepRenderer.js] *)

Module StepRenderer.

(** The state that [_reconstructState] builds, without its [metadata]
    texts.  An id of a step that has no such field is [None]. *)
Record State : Type := mkState {
  permanentRoute : list (option Z);
  candidateEdges : list (option Z * option Z);
  decisionEdge : option (option Z * option Z);
  visitedCities : list (option Z);       (* a [Set], in insertion order *)
  currentCity : option Z
}.

Definition same_id (a b : option Z) : bool :=
  match a, b with
  | Some p, Some q => (p =? q)%Z
  | None, None => true
  | _, _ => false
  end.

(** [visitedCities.add(id)]. *)
Definition add_visited (visited : list (option Z)) (i : option Z)
  : list (option Z) :=
  if existsb (same_id i) visited then visited else visited ++ [i].

Definition initial_state : State :=
  mkState [Some 0%Z] [] None [Some 0%Z] (Some 0%Z).

(** [_processStep(step, state)]: the [switch] on the type of the step;
    the types it does not know leave the state as it is. *)
Definition _processStep (step : Step) (state : State) : State :=
  if String.eqb (Step.type step) "candidate_edge" then
    mkState (permanentRoute state)
      (candidateEdges state ++ [(Step.fromCity step, Step.toCity step)])
      (decisionEdge state) (visitedCities state) (currentCity state)
  else if String.eqb (Step.type step) "decision" then
    mkState (permanentRoute state) (candidateEdges state)
      (Some (Step.fromCity step, Step.toCity step))
      (visitedCities state) (currentCity state)
  else if String.eqb (Step.type step) "edge_added" then
    mkState (permanentRoute state ++ [Step.toCity step]) [] None
      (add_visited (visitedCities state) (Step.toCity step))
      (Step.toCity step)
  else if String.eqb (Step.type step) "route_closed" then
    mkState (permanentRoute state ++ [Some 0%Z]) [] None
      (visitedCities state) (currentCity state)
  else state.

(** The loop [for (i = 0; i <= currentStepIndex; i++)]: reading the type
    of a step past the end of the trace throws. *)
Fixpoint process_upto (steps : list Step) (is_ : list nat) (state : State)
  : result State :=
  match is_ with
  | [] => Ok state
  | i :: is' =>
      match nth_error steps i with
      | Some step => process_upto steps is' (_processStep step state)
      | None => Throw TypeError
      end
  end.

Definition _reconstructState (steps : list Step) (currentStepIndex : Z)
  : result State :=
  if (currentStepIndex <? 0)%Z then Ok initial_state
  else
    process_upto steps (seq 0 (Z.to_nat currentStepIndex + 1)) initial_state.

End StepRenderer.

(** ** What the controller reports, [stepController.js] *)

Module StepControllerQueries.

Record UIState : Type := mkUIState {
  canPlay : bool;
  canPause : bool;
  canNext : bool;
  canPrevious : bool;
  canReplay : bool;
  canReset : bool;
  isPlaying : bool;
  currentIndex : Z;
  totalSteps : nat;
  progressPercent : Z;
  isFinalResult : bool
}.

(** [Math.round]: to the nearest integer, halves upwards.  The source
    rounds the double [((idx + 1) / len) * 100]; the quotient is exact
    here, so that a percentage within a rounding error of a half can
    differ by one from the source's. *)
Definition Math_round (q : Q) : Z := Qfloor (q + (1 # 2)).

Definition getUIState (c : StepController.t) : UIState :=
  let isFinalResult :=
    match StepController.getCurrentStep c with
    | Some currentStep => StepController.is_terminal_type (Step.type currentStep)
    | None => false
    end in
  let playing := StepController.isPlaying c in
  let len := length (StepController.steps c) in
  let idx := StepController.currentStepIndex c in
  mkUIState
    (negb playing && (0 <? len)%nat && negb isFinalResult)
    playing
    (negb playing && (idx <? Z.of_nat len - 1)%Z)
    (negb playing && (-1 <? idx)%Z)
    (negb playing && (0 <? len)%nat)
    (negb playing && ((0 <=? idx)%Z || (0 <? len)%nat))
    playing
    idx
    len
    (if (0 <? len)%nat
     then Math_round (inject_Z (idx + 1) / inject_Z (Z.of_nat len) * 100)
     else 0%Z)
    isFinalResult.

(** [getStepsUpToCurrent]: [steps.slice(0, currentStepIndex + 1)]. *)
Definition getStepsUpToCurrent (c : StepController.t) : list Step :=
  if (StepController.currentStepIndex c <? 0)%Z then []
  else firstn (Z.to_nat (StepController.currentStepIndex c + 1))
         (StepController.steps c).

End StepControllerQueries.

(** ** The user's route, [script.js] *)

Section UserRoute.
Variable Math_sqrt : Q -> Q.

(** [calculateRouteDistance(route)] over [state.cities]: the edges of the
    route taken cyclically, an edge with an id that names no city being
    passed over. *)
Definition calculateRouteDistance (cities : list City) (route : Route) : Q :=
  if (length route <? 2)%nat then 0
  else
    fold_left
      (fun total i =>
         match city_at cities (nth i route (-1)%Z),
               city_at cities (nth ((i + 1) mod length route) route (-1)%Z) with
         | Some from, Some to => total + calculateDistance Math_sqrt from to
         | _, _ => total
         end)
      (seq 0 (length route)) 0.
End UserRoute.

(** ** Placing the cities and picking a route, [script.js] *)

Module Script.

Definition PADDING : Q := 40.
Definition MIN_CITY_DISTANCE : Q := 60.
Definition CITY_RADIUS : Q := 8.

(** The part of [state] that the placement and the clicks read and
    write. *)
Record State : Type := mkState {
  cities : list City;
  userRoute : Route;
  userDistance : Q;
  isAnimating : bool
}.

Section Canvas.
Variable Math_sqrt : Q -> Q.
Variable Math_hypot : Q -> Q -> Q.

(** The pairs of numbers that [Math.random()] returns, by attempt. *)
Variable Math_random : nat -> Q * Q.

Definition calculatePlacementDistance (x1 y1 x2 y2 : Q) : Q :=
  let dx := x2 - x1 in
  let dy := y2 - y1 in
  Math_sqrt (dx * dx + dy * dy).

Definition hasOverlapWithCities (x_ y_ : Q) (cities : list City) : bool :=
  existsb
    (fun city =>
       Qltb (calculatePlacementDistance (x city) (y city) x_ y_)
         MIN_CITY_DISTANCE)
    cities.

(** [while (cities.length < count && attempts < count * 50)]: [None]
    when the fuel runs out. *)
Fixpoint generateCities_while (fuel : nat) (count : nat)
  (minX maxX minY maxY : Q) (cities : list City) (id_ : Z) (attempts : nat)
  : option (list City) :=
  if ((length cities <? count) && (attempts <? count * 50))%nat then
    match fuel with
    | O => None
    | S fuel' =>
        let attempts := S attempts in
        let x_ := fst (Math_random attempts) * (maxX - minX) + minX in
        let y_ := snd (Math_random attempts) * (maxY - minY) + minY in
        if negb (hasOverlapWithCities x_ y_ cities) then
          generateCities_while fuel' count minX maxX minY maxY
            (cities ++
             [mkCity id_ (inject_Z (StepControllerQueries.Math_round x_))
                (inject_Z (StepControllerQueries.Math_round y_))])
            (id_ + 1)%Z attempts
        else
          generateCities_while fuel' count minX maxX minY maxY cities id_
            attempts
    end
  else Some cities.

(** [generateCities(count)] on a canvas of the given size: the cities it
    leaves in [state.cities]. *)
Definition generateCities (fuel : nat) (count : nat) (width height : Q)
  : option (list City) :=
  let minX := PADDING in
  let maxX := width - PADDING in
  let minY := PADDING in
  let maxY := height - PADDING in
  if (Qle_bool maxX minX || Qle_bool maxY minY)%bool
  then Some []                          (* "Canvas too small" *)
  else generateCities_while fuel count minX maxX minY maxY [] 0%Z 0.

(** [handleCanvasClick(event)], for a click at [(x_, y_)] of the
    canvas. *)
Definition handleCanvasClick (state : State) (x_ y_ : Q) : State :=
  if isAnimating state then state
  else if (length (userRoute state) =? length (cities state))%nat then state
  else if (length (cities state) =? 0)%nat then state
  else
    match find (fun city =>
                  Qle_bool (Math_hypot (x city - x_) (y city - y_))
                    (CITY_RADIUS + 8))
            (cities state) with
    | None => state
    | Some clickedCity =>
        if existsb (Z.eqb (id clickedCity)) (userRoute state) then state
        else
          let userRoute_ := userRoute state ++ [id clickedCity] in
          if (length userRoute_ =? length (cities state))%nat
          then mkState (cities state) userRoute_
                 (calculateRouteDistance Math_sqrt (cities state) userRoute_)
                 (isAnimating state)
          else mkState (cities state) userRoute_ (userDistance state)
                 (isAnimating state)
    end.

(** The clicks of a session, in order. *)
Definition clicks (state : State) (points : list (Q * Q)) : State :=
  fold_left (fun s p => handleCanvasClick s (fst p) (snd p)) points state.
End Canvas.

End Script.

(** ** Scoring, [metrics-engine.js] *)

Module MetricsEngine.

(** [calculateScore(userDistance, optimalDistance)]; [None] is a missing
    optimal distance. *)
Definition calculateScore (userDistance : Q) (optimalDistance : option Q)
  : nat :=
  match optimalDistance with
  | None => 0
  | Some optimalDistance =>
      if Qeq_bool optimalDistance 0 then 0%nat
      else
        let percentDifference :=
          (userDistance - optimalDistance) / optimalDistance * 100 in
        if Qeq_bool percentDifference 0 then 100%nat
        else if Qle_bool percentDifference 5 then 80%nat
        else if Qle_bool percentDifference 10 then 60%nat
        else if Qle_bool percentDifference 20 then 40%nat
        else if Qle_bool percentDifference 50 then 20%nat
        else 0%nat
  end.

(** [MetricsEngine.factorial(n)]. *)
Definition factorial (n : nat) : nat :=
  if (n <=? 1)%nat then 1%nat
  else fold_left (fun result_ i => (result_ * i)%nat) (seq 2 (n - 1)) 1%nat.

End MetricsEngine.

(** ** Predicates of the further properties *)

(** The number of steps of a trace with the given type. *)
Definition count_steps (type : string) (steps : list Step) : nat :=
  length (filter (fun s => String.eqb (Step.type s) type) steps).

(** The timer of the controller is armed exactly while it plays, and the
    interval is 100 ms or more. *)
Definition timer_follows_playback (c : StepController.t) : Prop :=
  StepController.playbackInterval c = StepController.isPlaying c /\
  (100 <= StepController.playbackSpeed c)%Z.

(** Playback started on [c] has ended in [c']: nothing plays, no timer is
    armed, and the index is the last of the trace or that of a terminal
    step. *)
Definition playback_ended (c c' : StepController.t) : Prop :=
  StepController.isPlaying c' = false /\
  StepController.playbackInterval c' = false /\
  StepController.steps c' = StepController.steps c /\
  (StepController.currentStepIndex c' = (StepController.steps_length c - 1)%Z \/
   exists s,
     StepController.getCurrentStep c' = Some s /\
     StepController.is_terminal_type (Step.type s) = true).

(** The best distances of successive progress reports descend from
    [best], each being at most the distance reported with it. *)
Fixpoint bests_descend (best : number) (reports : list Live.Progress)
  : Prop :=
  match reports with
  | [] => True
  | p :: reports' =>
      le_number (Live.progress_best p) best /\
      le_number (Live.progress_best p) (Num (Live.currentDistance p)) /\
      bests_descend (Live.progress_best p) reports'
  end.

(** A trace replayed into a state of the renderer, step by step. *)
Definition replay (steps : list Step) (state : StepRenderer.State)
  : StepRenderer.State :=
  fold_left (fun st step => StepRenderer._processStep step st) steps state.

(** [rest] is a nearest-neighbour walk from [cur] over the cities of
    [cities] outside [visited]: each city of it is at the least distance
    from the one before among the cities not yet visited, and comes first
    among those at that distance. *)
Fixpoint nearest_neighbour_walk (Math_sqrt : Q -> Q) (cities : list City)
  (visited : list Z) (cur : Z) (rest : list Z) : Prop :=
  match rest with
  | [] => True
  | c :: rest' =>
      (exists d,
         distance_between Math_sqrt cities cur c = Ok d /\
         forall j, (0 <= j < Z.of_nat (length cities))%Z ->
                   ~ In j visited ->
                   exists dj,
                     distance_between Math_sqrt cities cur j = Ok dj /\
                     d <= dj /\ ((j < c)%Z -> d < dj)) /\
      nearest_neighbour_walk Math_sqrt cities (visited ++ [c]) c rest'
  end.

(** An environment that never touches the controller. *)
Definition undisturbed : Live.Environment := fun _ token => token.

(** * Properties *)

(** ** Basic facts *)

Lemma Qltb_lt (a b : Q) : Qltb a b = true <-> a < b.
Proof.
  unfold Qltb. rewrite negb_true_iff.
  split; intro H.
  - apply Qnot_le_lt. intro Hle. apply Qle_bool_iff in Hle. congruence.
  - destruct (Qle_bool b a) eqn:E; [|reflexivity].
    apply Qle_bool_iff in E. exfalso. apply (Qlt_not_le _ _ H E).
Qed.

Lemma Qltb_ge (a b : Q) : Qltb a b = false <-> b <= a.
Proof.
  unfold Qltb. rewrite negb_false_iff. apply Qle_bool_iff.
Qed.

Lemma EPSILON_pos : 0 < EPSILON.
Proof. reflexivity. Qed.

Lemma square_cities_in_range : coordinates_in_range square_cities.
Proof.
  unfold coordinates_in_range, square_cities.
  repeat constructor; vm_compute; intro H; discriminate H.
Qed.

Lemma two_cities_in_range : coordinates_in_range two_cities.
Proof.
  unfold coordinates_in_range, two_cities.
  repeat constructor; vm_compute; intro H; discriminate H.
Qed.

Lemma city_at_valid (cities : list City) (i : Z) :
  (0 <= i < Z.of_nat (length cities))%Z -> exists c, city_at cities i = Some c.
Proof.
  intros [H0 H1]. unfold city_at.
  destruct (i <? 0)%Z eqn:E; [apply Z.ltb_lt in E; lia|].
  destruct (nth_error cities (Z.to_nat i)) eqn:En; [eauto|].
  apply nth_error_None in En. lia.
Qed.

Lemma city_at_some_valid (cities : list City) (i : Z) (c : City) :
  city_at cities i = Some c -> (0 <= i < Z.of_nat (length cities))%Z.
Proof.
  unfold city_at. destruct (i <? 0)%Z eqn:E; [discriminate|].
  apply Z.ltb_ge in E. intro H.
  assert (Hn : nth_error cities (Z.to_nat i) <> None) by congruence.
  apply nth_error_Some in Hn. lia.
Qed.

Lemma Qsqrt_nonneg (q : Q) : 0 <= Qsqrt q.
Proof.
  unfold Qsqrt, Qle. simpl. rewrite Z.mul_1_r. apply Z.sqrt_nonneg.
Qed.

Lemma Qsqrt_zero (q : Q) : q == 0 -> Qsqrt q == 0.
Proof.
  intro H. unfold Qsqrt.
  rewrite (Qred_complete _ _ H). reflexivity.
Qed.

(** ** Routes *)

Lemma first_id_app (r : Route) (z : Z) : r <> [] -> first_id (r ++ [z]) = first_id r.
Proof. destruct r; [congruence | reflexivity]. Qed.

Lemma last_id_app (r : Route) (z : Z) : last_id (r ++ [z]) = z.
Proof. unfold last_id. apply last_last. Qed.

Lemma close_length (r : Route) : length (close r) = S (length r).
Proof. unfold close. rewrite length_app. simpl. lia. Qed.

Lemma first_id_close (r : Route) : r <> [] -> first_id (close r) = first_id r.
Proof. apply first_id_app. Qed.

Lemma last_id_close (r : Route) : last_id (close r) = first_id r.
Proof. apply last_id_app. Qed.

Lemma last_id_cons (a b : Z) (r : Route) : last_id (a :: b :: r) = last_id (b :: r).
Proof. reflexivity. Qed.

Lemma last_id_In (r : Route) : r <> [] -> In (last_id r) r.
Proof.
  intro H. destruct (exists_last H) as [r' [z ->]].
  rewrite last_id_app. apply in_or_app. right. now left.
Qed.

(** In a route without repetition and with two ids or more, the first and
    the last id differ: the route is open. *)
Lemma NoDup_first_last (r : Route) :
  NoDup r -> (2 <= length r)%nat -> first_id r <> last_id r.
Proof.
  intros Hnd Hlen. destruct r as [|a [|b r]]; simpl in Hlen; try lia.
  rewrite last_id_cons. simpl. inversion Hnd as [|? ? Hnotin _]; subst.
  intro Heq. apply Hnotin. rewrite Heq. apply last_id_In. discriminate.
Qed.

Lemma valid_route_In (cities : list City) (r : Route) (i : Z) :
  valid_route cities r -> In i r -> (0 <= i < Z.of_nat (length cities))%Z.
Proof. unfold valid_route. rewrite Forall_forall. auto. Qed.

Lemma valid_route_close (cities : list City) (r : Route) :
  r <> [] -> valid_route cities r -> valid_route cities (close r).
Proof.
  intros Hne Hv. unfold close, valid_route. apply Forall_app. split; [exact Hv|].
  constructor; [|constructor].
  apply (valid_route_In cities r); [exact Hv|].
  destruct r; [congruence | now left].
Qed.

Lemma allCities_In (n : nat) (i : Z) :
  In i (allCities n) <-> (0 <= i < Z.of_nat n)%Z.
Proof.
  unfold allCities. rewrite in_map_iff. split.
  - intros [k [<- Hk]]. apply in_seq in Hk. lia.
  - intro H. exists (Z.to_nat i). split; [lia|]. apply in_seq. lia.
Qed.

Lemma allCities_NoDup (n : nat) : NoDup (allCities n).
Proof.
  unfold allCities. apply Injective_map_NoDup.
  - intros a b H. lia.
  - apply seq_NoDup.
Qed.

Lemma allCities_length (n : nat) : length (allCities n) = n.
Proof. unfold allCities. now rewrite length_map, length_seq. Qed.

Lemma open_tour_valid (cities : list City) (r : Route) :
  open_tour (length cities) r -> valid_route cities r.
Proof.
  intro H. unfold valid_route. apply Forall_forall. intros i Hi.
  apply allCities_In. apply (Permutation_in _ H Hi).
Qed.

Lemma open_tour_NoDup (n : nat) (r : Route) : open_tour n r -> NoDup r.
Proof.
  intro H. apply (Permutation_NoDup (Permutation_sym H)). apply allCities_NoDup.
Qed.

Lemma open_tour_length (n : nat) (r : Route) : open_tour n r -> length r = n.
Proof.
  intro H. rewrite (Permutation_length H). apply allCities_length.
Qed.

(** ** The shared distance routine *)

Section DistanceFacts.
Variable Math_sqrt : Q -> Q.

Lemma distance_between_valid (cities : list City) (a b : Z) :
  (0 <= a < Z.of_nat (length cities))%Z ->
  (0 <= b < Z.of_nat (length cities))%Z ->
  exists d, distance_between Math_sqrt cities a b = Ok d.
Proof.
  intros Ha Hb. unfold distance_between.
  destruct (city_at_valid cities a Ha) as [ca ->].
  destruct (city_at_valid cities b Hb) as [cb ->]. eauto.
Qed.

Lemma sum_edges_step (cities : list City) (a b : Z) (r : Route) (acc : Q) :
  sum_edges Math_sqrt cities (a :: b :: r) acc =
  (d <- distance_between Math_sqrt cities a b ;;
   sum_edges Math_sqrt cities (b :: r) (acc + d)).
Proof. reflexivity. Qed.

Lemma sum_edges_valid (cities : list City) (r : Route) (acc : Q) :
  valid_route cities r -> exists d, sum_edges Math_sqrt cities r acc = Ok d.
Proof.
  revert acc. induction r as [|a r IH]; intros acc Hv; [simpl; eauto|].
  destruct r as [|b r]; [simpl; eauto|].
  inversion Hv as [|? ? Ha Hv']; subst.
  inversion Hv' as [|? ? Hb _]; subst.
  destruct (distance_between_valid cities a b Ha Hb) as [d Hd].
  rewrite sum_edges_step, Hd. cbn [bind]. apply IH. exact Hv'.
Qed.

Lemma calculateTotalDistance_valid (cities : list City) (r : Route) :
  valid_route cities r -> exists d, calculateTotalDistance Math_sqrt (Some r) cities = Ok d.
Proof.
  intro Hv. unfold calculateTotalDistance.
  destruct (length r <? 2)%nat eqn:E; [eauto|].
  apply Nat.ltb_ge in E.
  destruct (sum_edges_valid cities r 0 Hv) as [t ->]. cbn [bind].
  destruct (negb (first_id r =? last_id r)%Z); [|eauto].
  assert (Hne : r <> []) by (destruct r; simpl in E; [lia | discriminate]).
  destruct (distance_between_valid cities (last_id r) (first_id r)) as [d ->].
  - apply (valid_route_In cities r _ Hv). now apply last_id_In.
  - apply (valid_route_In cities r _ Hv). destruct r; [congruence | now left].
  - cbn [bind]. eauto.
Qed.

(** The edge loop over a route with one more id at its end. *)
Lemma sum_edges_snoc (cities : list City) (r : Route) (z : Z) (acc : Q) :
  r <> [] ->
  sum_edges Math_sqrt cities (r ++ [z]) acc =
  (t <- sum_edges Math_sqrt cities r acc ;;
   d <- distance_between Math_sqrt cities (last_id r) z ;;
   Ok (t + d)).
Proof.
  revert acc. induction r as [|a r IH]; intros acc Hne; [congruence|].
  destruct r as [|b r].
  - unfold last_id. simpl.
    destruct (distance_between Math_sqrt cities a z); reflexivity.
  - change ((a :: b :: r) ++ [z]) with (a :: (b :: r) ++ [z]).
    rewrite last_id_cons.
    change ((b :: r) ++ [z]) with (b :: r ++ [z]).
    rewrite !sum_edges_step.
    change (b :: r ++ [z]) with ((b :: r) ++ [z]).
    destruct (distance_between Math_sqrt cities a b) as [d|e]; [|reflexivity].
    cbn [bind]. apply IH. discriminate.
Qed.

(** Closing an open route of two ids or more leaves the sequence of
    additions unchanged: the two results are the same value, or the
    same exception. *)
Lemma calculateTotalDistance_close (cities : list City) (r : Route) :
  (2 <= length r)%nat -> first_id r <> last_id r ->
  calculateTotalDistance Math_sqrt (Some (close r)) cities =
  calculateTotalDistance Math_sqrt (Some r) cities.
Proof.
  intros Hlen Hopen.
  assert (Hne : r <> []) by (destruct r; simpl in Hlen; [lia | discriminate]).
  unfold calculateTotalDistance.
  rewrite close_length, last_id_close, first_id_close by exact Hne.
  replace (S (length r) <? 2)%nat with false by (symmetry; apply Nat.ltb_ge; lia).
  replace (length r <? 2)%nat with false by (symmetry; apply Nat.ltb_ge; lia).
  rewrite Z.eqb_refl.
  replace (first_id r =? last_id r)%Z with false
    by (symmetry; apply Z.eqb_neq; exact Hopen).
  unfold close. rewrite sum_edges_snoc by exact Hne.
  cbn [negb]. destruct (sum_edges Math_sqrt cities r 0); [|reflexivity].
  cbn [bind].
  destruct (distance_between Math_sqrt cities (last_id r) (first_id r));
    reflexivity.
Qed.

Lemma sum_edges_ge (cities : list City) (r : Route) (acc d : Q) :
  (forall q, 0 <= Math_sqrt q) ->
  sum_edges Math_sqrt cities r acc = Ok d -> acc <= d.
Proof.
  intro Hs. revert acc. induction r as [|a r IH]; intros acc H.
  - simpl in H. injection H as <-. apply Qle_refl.
  - destruct r as [|b r].
    + simpl in H. injection H as <-. apply Qle_refl.
    + rewrite sum_edges_step in H.
      unfold distance_between in H.
      destruct (city_at cities a); [|discriminate].
      destruct (city_at cities b); [|discriminate].
      cbn [bind] in H. apply IH in H.
      specialize (Hs ((x c0 - x c) * (x c0 - x c) + (y c0 - y c) * (y c0 - y c))).
      unfold calculateDistance in H. lra.
Qed.

Lemma calculateTotalDistance_nonneg (cities : list City) (r : option Route) (d : Q) :
  (forall q, 0 <= Math_sqrt q) ->
  calculateTotalDistance Math_sqrt r cities = Ok d -> 0 <= d.
Proof.
  intros Hs H. unfold calculateTotalDistance in H.
  destruct r as [r|]; [|injection H as <-; apply Qle_refl].
  destruct (length r <? 2)%nat; [injection H as <-; apply Qle_refl|].
  destruct (sum_edges Math_sqrt cities r 0) as [t|] eqn:Et; [|discriminate].
  apply (sum_edges_ge _ _ _ _ Hs) in Et. cbn [bind] in H.
  destruct (negb (first_id r =? last_id r)%Z).
  - unfold distance_between in H.
    destruct (city_at cities (last_id r)); [|discriminate].
    destruct (city_at cities (first_id r)); [|discriminate].
    cbn [bind] in H. injection H as <-. unfold calculateDistance.
    specialize (Hs ((x c0 - x c) * (x c0 - x c) + (y c0 - y c) * (y c0 - y c))).
    lra.
  - injection H as <-. exact Et.
Qed.
End DistanceFacts.

(** ** The permutation generator *)

Section PermutationFacts.
Context {A : Type}.

Lemma without_length (i : nat) (l : list A) :
  (i < length l)%nat -> length (without i l) = (length l - 1)%nat.
Proof.
  intro H. unfold without.
  rewrite length_app, length_firstn, length_skipn. lia.
Qed.

Lemma without_Permutation (i : nat) (l : list A) (a : A) :
  nth_error l i = Some a -> Permutation l (a :: without i l).
Proof.
  intro H. destruct (nth_error_split l i H) as [l1 [l2 [-> Hlen]]].
  unfold without. subst i.
  rewrite firstn_app, firstn_all, Nat.sub_diag, firstn_O, app_nil_r.
  replace (length l1 + 1)%nat with (length l1 + 1 + 0)%nat by lia.
  rewrite skipn_app.
  rewrite (skipn_all2 l1) by lia.
  replace (length l1 + 1 + 0 - length l1)%nat with 1%nat by lia.
  simpl. symmetry. apply Permutation_middle.
Qed.

(** Everything the generator yields is a rearrangement of its input. *)
Lemma generatePermutations_rec_sound (d : nat) :
  forall (l p : list A),
    In p (generatePermutations_rec d l) -> Permutation p l.
Proof.
  induction d as [|d IH]; intros l p Hin.
  - simpl in Hin. destruct Hin as [<-|[]]. reflexivity.
  - simpl in Hin. destruct (length l <=? 1)%nat.
    + destruct Hin as [<-|[]]. reflexivity.
    + apply in_flat_map in Hin. destruct Hin as [i [Hi Hin]].
      destruct (nth_error l i) as [a|] eqn:Ea; [|contradiction].
      apply in_map_iff in Hin. destruct Hin as [p' [<- Hp']].
      apply IH in Hp'.
      rewrite (without_Permutation i l a Ea). now constructor.
Qed.

(** Every rearrangement of the input is yielded. *)
Lemma generatePermutations_rec_complete (d : nat) :
  forall (l p : list A),
    (length l <= d)%nat -> Permutation p l ->
    In p (generatePermutations_rec d l).
Proof.
  induction d as [|d IH]; intros l p Hlen Hp.
  - destruct l; [|simpl in Hlen; lia].
    apply Permutation_sym, Permutation_nil in Hp. subst. now left.
  - simpl. destruct (length l <=? 1)%nat eqn:E.
    + apply Nat.leb_le in E. left.
      destruct l as [|a [|b l]]; simpl in E; try lia.
      * apply Permutation_sym, Permutation_nil in Hp. now subst.
      * symmetry. now apply Permutation_length_1_inv, Permutation_sym.
    + apply Nat.leb_gt in E.
      destruct p as [|a p'].
      { apply Permutation_nil in Hp. subst. simpl in E. lia. }
      assert (Ha : In a l) by (apply (Permutation_in _ Hp); now left).
      destruct (In_nth_error l a Ha) as [i Hi].
      assert (Hil : (i < length l)%nat)
        by (apply nth_error_Some; congruence).
      apply in_flat_map. exists i. split; [apply in_seq; lia|].
      rewrite Hi. apply in_map. apply IH.
      * rewrite without_length by exact Hil. lia.
      * apply (Permutation_cons_inv (a := a)).
        rewrite Hp. apply without_Permutation. exact Hi.
Qed.

Lemma flat_map_constant_length {B : Type} (f : nat -> list B) (l : list nat) (k : nat) :
  (forall i, In i l -> length (f i) = k) ->
  length (flat_map f l) = (length l * k)%nat.
Proof.
  induction l as [|i l IH]; intro H; [reflexivity|].
  simpl. rewrite length_app, IH, H; [lia | now left |].
  intros j Hj. apply H. now right.
Qed.

Lemma generatePermutations_rec_length (d : nat) :
  forall l : list A,
    (length l <= d)%nat ->
    length (generatePermutations_rec d l) = fact (length l).
Proof.
  induction d as [|d IH]; intros l Hlen.
  - destruct l; [reflexivity | simpl in Hlen; lia].
  - simpl. destruct (length l <=? 1)%nat eqn:E.
    + apply Nat.leb_le in E.
      destruct l as [|a [|b l]]; simpl in E; try lia; reflexivity.
    + apply Nat.leb_gt in E.
      rewrite (flat_map_constant_length _ _ (fact (length l - 1))).
      * rewrite length_seq. destruct (length l) as [|m]; [lia|].
        simpl. rewrite Nat.sub_0_r. lia.
      * intros i Hi. apply in_seq in Hi.
        destruct (nth_error l i) as [a|] eqn:Ea.
        -- rewrite length_map, IH.
           ++ rewrite without_length by lia. reflexivity.
           ++ rewrite without_length by lia. lia.
        -- apply nth_error_None in Ea. lia.
Qed.

Lemma generatePermutations_sound (l p : list A) :
  In p (generatePermutations l) -> Permutation p l.
Proof. apply generatePermutations_rec_sound. Qed.

Lemma generatePermutations_complete (l p : list A) :
  Permutation p l -> In p (generatePermutations l).
Proof. apply generatePermutations_rec_complete. lia. Qed.

Lemma generatePermutations_length (l : list A) :
  length (generatePermutations l) = fact (length l).
Proof. apply generatePermutations_rec_length. lia. Qed.
End PermutationFacts.

Lemma fold_mult_seq (m : nat) :
  forall k,
    fold_left (fun result_ i => (result_ * i)%nat) (seq (S k) m) (fact k)
    = fact (k + m).
Proof.
  induction m as [|m IH]; intro k.
  - simpl. now rewrite Nat.add_0_r.
  - cbn [seq fold_left].
    replace (fact k * S k)%nat with (fact (S k)) by (simpl; lia).
    rewrite IH. f_equal. lia.
Qed.

Lemma factorial_fact (n : nat) : factorial n = fact n.
Proof.
  unfold factorial. destruct n as [|n]; [reflexivity|].
  replace (S n - 1)%nat with n by lia.
  change 1%nat with (fact 1) at 2. rewrite (fold_mult_seq n 1). reflexivity.
Qed.

Lemma generatePermutations_allCities_length (n : nat) :
  length (generatePermutations (allCities n)) = factorial n.
Proof.
  rewrite generatePermutations_length, allCities_length. symmetry.
  apply factorial_fact.
Qed.

(** ** Numbers with [Infinity] *)

Lemma le_number_refl (a : number) : le_number a a.
Proof. destruct a; simpl; [apply Qle_refl | exact I]. Qed.

Lemma le_number_trans (a b c : number) :
  le_number a b -> le_number b c -> le_number a c.
Proof.
  destruct a, b, c; simpl; try tauto. apply Qle_trans.
Qed.

Lemma le_number_finite (a : number) (q : Q) :
  le_number a (Num q) -> exists p, a = Num p /\ p <= q.
Proof. destruct a; simpl; [eauto | tauto]. Qed.

(** The candidate replaces the incumbent: it is below it. *)
Lemma improving_below (d : Q) (m : number) :
  lt_number d (minus_number m EPSILON) = true -> le_number (Num d) m.
Proof.
  destruct m as [m|]; simpl; [|trivial].
  rewrite Qltb_lt. pose proof EPSILON_pos. lra.
Qed.

(** The candidate is passed over: the incumbent is within [EPSILON] of it. *)
Lemma kept_within_epsilon (d : Q) (m : number) :
  lt_number d (minus_number m EPSILON) = false -> le_number m (Num (d + EPSILON)).
Proof.
  destruct m as [m|]; simpl; [|discriminate].
  rewrite Qltb_ge. lra.
Qed.

(** ** The exhaustive search *)

Section BruteForceFacts.
Variable Math_sqrt : Q -> Q.

(** The loop of [bruteForceTSP] over permutations of valid ids: it
    returns, its distance never exceeds the incumbent it started from
    nor, by more than [EPSILON], the length of any tour it looked at,
    and what it returns is the incumbent it started from or one of the
    tours with its length. *)
Lemma bruteForce_for_spec (cities : list City) (perms : list Route) :
  (forall p, In p perms -> valid_route cities p /\ p <> []) ->
  forall (m0 : number) (p0 : Route),
  exists r,
    bruteForce_for Math_sqrt cities perms m0 p0 = Ok r /\
    le_number (distance r) m0 /\
    (forall p, In p perms ->
       exists d, calculateTotalDistance Math_sqrt (Some (close p)) cities = Ok d /\
                 le_number (distance r) (Num (d + EPSILON))) /\
    ((path r = p0 /\ distance r = m0) \/
     exists p d, In p perms /\ path r = close p /\
                 calculateTotalDistance Math_sqrt (Some (close p)) cities = Ok d /\
                 distance r = Num d).
Proof.
  induction perms as [|perm perms IH]; intros Hv m0 p0.
  - exists (mkPathResult p0 m0). simpl. repeat split.
    + apply le_number_refl.
    + intros p [].
    + now left.
  - destruct (Hv perm (or_introl eq_refl)) as [Hvp Hne].
    destruct (calculateTotalDistance_valid Math_sqrt cities (close perm)
                (valid_route_close cities perm Hne Hvp)) as [d Hd].
    assert (Hv' : forall p, In p perms -> valid_route cities p /\ p <> [])
      by (intros p Hp; apply Hv; now right).
    cbn [bruteForce_for]. rewrite Hd. cbn [bind].
    destruct (lt_number d (minus_number m0 EPSILON)) eqn:E.
    + destruct (IH Hv' (Num d) (close perm)) as [r [Hr [Hle [Hall Hsrc]]]].
      exists r. split; [exact Hr|]. split; [|split].
      * apply (le_number_trans _ _ _ Hle). now apply improving_below.
      * intros p [<-|Hp]; [|now apply Hall].
        exists d. split; [exact Hd|].
        apply (le_number_trans _ _ _ Hle). simpl. pose proof EPSILON_pos. lra.
      * right. destruct Hsrc as [[Hp Hm]|[p [d' [Hp [Hpath [Hc Hm]]]]]].
        -- exists perm, d. repeat split; auto. now left.
        -- exists p, d'. repeat split; auto. now right.
    + destruct (IH Hv' m0 p0) as [r [Hr [Hle [Hall Hsrc]]]].
      exists r. split; [exact Hr|]. split; [exact Hle|]. split.
      * intros p [<-|Hp]; [|now apply Hall].
        exists d. split; [exact Hd|].
        apply (le_number_trans _ _ _ Hle). now apply kept_within_epsilon.
      * destruct Hsrc as [Hsrc|[p [d' [Hp [Hpath [Hc Hm]]]]]]; [now left|].
        right. exists p, d'. repeat split; auto. now right.
Qed.

Lemma open_tour_nonempty (n : nat) (p : Route) :
  (1 <= n)%nat -> open_tour n p -> p <> [].
Proof.
  intros Hn Hp ->. apply open_tour_length in Hp. simpl in Hp. lia.
Qed.

(** [bruteForceTSP] on two to ten cities returns a closed tour with its
    length, within [EPSILON] of the length of every tour. *)
Lemma bruteForceTSP_spec (cities : list City) :
  (2 <= length cities <= 10)%nat ->
  exists r p d,
    bruteForceTSP Math_sqrt cities = Ok r /\
    open_tour (length cities) p /\ path r = close p /\
    calculateTotalDistance Math_sqrt (Some (close p)) cities = Ok d /\
    distance r = Num d /\
    forall t, open_tour (length cities) t ->
      exists dt, calculateTotalDistance Math_sqrt (Some (close t)) cities = Ok dt /\
                 d <= dt + EPSILON.
Proof.
  intros [Hlo Hhi]. unfold bruteForceTSP.
  replace (length cities <? 2)%nat with false by (symmetry; apply Nat.ltb_ge; lia).
  replace (10 <? length cities)%nat with false by (symmetry; apply Nat.ltb_ge; lia).
  set (perms := generatePermutations (allCities (length cities))).
  assert (Hperm : forall p, In p perms -> open_tour (length cities) p)
    by (intros p Hp; apply generatePermutations_sound; exact Hp).
  destruct (bruteForce_for_spec cities perms) with (m0 := Infinity) (p0 := @nil Z)
    as [r [Hr [_ [Hall Hsrc]]]].
  { intros p Hp. split.
    - apply open_tour_valid. now apply Hperm.
    - apply (open_tour_nonempty (length cities)); [lia | now apply Hperm]. }
  assert (Hid : In (allCities (length cities)) perms)
    by (apply generatePermutations_complete; reflexivity).
  destruct Hsrc as [[_ Hinf]|[p [d [Hp [Hpath [Hc Hm]]]]]].
  - destruct (Hall _ Hid) as [d [_ Hle]]. rewrite Hinf in Hle. contradiction.
  - exists r, p, d. repeat split; auto.
    intros t Ht.
    destruct (Hall t) as [dt [Hdt Hle]].
    { apply generatePermutations_complete. exact Ht. }
    exists dt. split; [exact Hdt|]. rewrite Hm in Hle. exact Hle.
Qed.
End BruteForceFacts.

(** ** Nearest neighbour *)

Lemma mark_visited_length (visited : list bool) (j : nat) :
  (j < length visited)%nat ->
  length (mark_visited visited (Z.of_nat j)) = length visited.
Proof.
  intro H. unfold mark_visited.
  destruct (Z.of_nat j <? 0)%Z eqn:E; [apply Z.ltb_lt in E; lia|].
  rewrite Nat2Z.id.
  replace (j <? length visited)%nat with true by (symmetry; apply Nat.ltb_lt; lia).
  rewrite length_app, length_firstn. simpl. rewrite length_skipn. lia.
Qed.

Lemma mark_visited_lookup (visited : list bool) (j k : nat) :
  (j < length visited)%nat ->
  is_visited (mark_visited visited (Z.of_nat j)) k =
  if (k =? j)%nat then true else is_visited visited k.
Proof.
  intro H. unfold mark_visited, is_visited.
  destruct (Z.of_nat j <? 0)%Z eqn:E; [apply Z.ltb_lt in E; lia|].
  rewrite Nat2Z.id.
  replace (j <? length visited)%nat with true by (symmetry; apply Nat.ltb_lt; lia).
  destruct (k =? j)%nat eqn:Ekj.
  - apply Nat.eqb_eq in Ekj. subst k.
    rewrite app_nth2; rewrite length_firstn; [|lia].
    replace (j - Nat.min j (length visited))%nat with 0%nat by lia. reflexivity.
  - apply Nat.eqb_neq in Ekj.
    destruct (Nat.lt_ge_cases k j) as [Hlt|Hge].
    + rewrite app_nth1 by (rewrite length_firstn; lia).
      rewrite <- (firstn_skipn j visited) at 2.
      rewrite app_nth1 by (rewrite length_firstn; lia). reflexivity.
    + rewrite app_nth2 by (rewrite length_firstn; lia).
      rewrite length_firstn.
      replace (k - Nat.min j (length visited))%nat with (S (k - j - 1)) by lia.
      cbn [nth]. rewrite nth_skipn. f_equal. lia.
Qed.

Section GreedyFacts.
Variable Math_sqrt : Q -> Q.
Variable cities : list City.

(** The scan returns what it started from or an unvisited city it
    looked at. *)
Lemma nearest_scan_pick (visited : list bool) (cur : Z) (js : list nat) :
  forall nc nd c d,
    nearest_scan Math_sqrt cities visited cur js nc nd = Ok (c, d) ->
    (c, d) = (nc, nd) \/
    exists j, In j js /\ is_visited visited j = false /\ c = Z.of_nat j.
Proof.
  induction js as [|j js IH]; intros nc nd c d H.
  - simpl in H. left. congruence.
  - cbn [nearest_scan] in H.
    destruct (is_visited visited j) eqn:Ev; cbn [negb] in H.
    + destruct (IH _ _ _ _ H) as [Heq|[k [Hk [Hv Hc]]]]; [now left|].
      right. exists k. repeat split; auto. now right.
    + destruct (distance_between Math_sqrt cities cur (Z.of_nat j)) as [dj|];
        [|discriminate].
      cbn [bind] in H.
      destruct (lt_number dj nd).
      * destruct (IH _ _ _ _ H) as [Heq|[k [Hk [Hv Hc]]]].
        -- right. exists j. repeat split; auto; [now left | congruence].
        -- right. exists k. repeat split; auto. now right.
      * destruct (IH _ _ _ _ H) as [Heq|[k [Hk [Hv Hc]]]]; [now left|].
        right. exists k. repeat split; auto. now right.
Qed.

(** Once a distance has been recorded, or an unvisited city is still to
    come, the scan ends with a recorded distance. *)
Lemma nearest_scan_finite (visited : list bool) (cur : Z) (js : list nat) :
  forall nc nd c d,
    nearest_scan Math_sqrt cities visited cur js nc nd = Ok (c, d) ->
    (nd <> Infinity \/ exists j, In j js /\ is_visited visited j = false) ->
    d <> Infinity.
Proof.
  induction js as [|j js IH]; intros nc nd c d H Hor.
  - simpl in H. destruct Hor as [Hnd|[j [[] _]]]. congruence.
  - cbn [nearest_scan] in H.
    destruct (is_visited visited j) eqn:Ev; cbn [negb] in H.
    + apply (IH _ _ _ _ H). destruct Hor as [Hnd|[k [[<-|Hk] Hv]]].
      * now left.
      * congruence.
      * right. eauto.
    + destruct (distance_between Math_sqrt cities cur (Z.of_nat j)) as [dj|];
        [|discriminate].
      cbn [bind] in H.
      destruct (lt_number dj nd) eqn:El.
      * apply (IH _ _ _ _ H). left. discriminate.
      * apply (IH _ _ _ _ H). left. intros ->. simpl in El. discriminate.
Qed.

Lemma nearest_scan_returns (visited : list bool) (cur : Z) (js : list nat) :
  (0 <= cur < Z.of_nat (length cities))%Z ->
  (forall j, In j js -> (j < length cities)%nat) ->
  forall nc nd, exists c d,
    nearest_scan Math_sqrt cities visited cur js nc nd = Ok (c, d).
Proof.
  intros Hcur. induction js as [|j js IH]; intros Hjs nc nd.
  - simpl. eauto.
  - cbn [nearest_scan].
    assert (Hjs' : forall k, In k js -> (k < length cities)%nat)
      by (intros k Hk; apply Hjs; now right).
    destruct (negb (is_visited visited j)); [|now apply IH].
    destruct (distance_between_valid Math_sqrt cities cur (Z.of_nat j))
      as [dj ->]; [exact Hcur | specialize (Hjs j (or_introl eq_refl)); lia|].
    cbn [bind]. destruct (lt_number dj nd); now apply IH.
Qed.

(** A route without repetition that is shorter than the city list
    misses a city. *)
Lemma unvisited_exists (path_ : Route) :
  NoDup path_ -> (length path_ < length cities)%nat ->
  exists j, (j < length cities)%nat /\ ~ In (Z.of_nat j) path_.
Proof.
  intros Hnd Hlen.
  destruct (Exists_dec (fun j => ~ In (Z.of_nat j) path_) (seq 0 (length cities)))
    as [He|Hne].
  - intro j. destruct (in_dec Z.eq_dec (Z.of_nat j) path_); [right | left]; tauto.
  - apply Exists_exists in He. destruct He as [j [Hj Hn]].
    apply in_seq in Hj. exists j. split; [lia | exact Hn].
  - exfalso.
    assert (Hincl : incl (allCities (length cities)) path_).
    { intros i Hi. unfold allCities in Hi. apply in_map_iff in Hi.
      destruct Hi as [j [<- Hj]].
      destruct (in_dec Z.eq_dec (Z.of_nat j) path_) as [Hin|Hout]; [exact Hin|].
      exfalso. apply Hne. apply Exists_exists. eauto. }
    apply (NoDup_incl_length (allCities_NoDup _)) in Hincl.
    rewrite allCities_length in Hincl. lia.
Qed.

(** One round of the loop: the scan returns, what it picks is a city
    not yet on the path, and the invariant holds again. *)
Lemma greedy_round (visited : list bool) (path_ : Route) (cur : Z) :
  greedy_inv cities visited path_ cur ->
  (length path_ < length cities)%nat ->
  exists c d,
    nearest_scan Math_sqrt cities visited cur (seq 0 (length cities))
      (-1)%Z Infinity = Ok (c, d) /\
    ~ In c path_ /\
    greedy_inv cities (mark_visited visited c) (path_ ++ [c]) c.
Proof.
  intros Hinv Hlen.
  pose proof (inv_valid _ _ _ _ Hinv) as Hval.
  assert (Hcur : (0 <= cur < Z.of_nat (length cities))%Z)
    by (apply (valid_route_In cities path_ _ Hval), (inv_current _ _ _ _ Hinv)).
  destruct (nearest_scan_returns visited cur (seq 0 (length cities)) Hcur)
    with (nc := (-1)%Z) (nd := Infinity) as [c [d Hscan]].
  { intros j Hj. apply in_seq in Hj. lia. }
  exists c, d. split; [exact Hscan|].
  destruct (unvisited_exists path_ (inv_NoDup _ _ _ _ Hinv) Hlen) as [u [Hu Hout]].
  assert (Hunv : is_visited visited u = false).
  { destruct (is_visited visited u) eqn:E; [|reflexivity].
    exfalso. apply Hout. now apply (inv_visited _ _ _ _ Hinv). }
  assert (Hfin : d <> Infinity).
  { apply (nearest_scan_finite _ _ _ _ _ _ _ Hscan). right.
    exists u. split; [apply in_seq; lia | exact Hunv]. }
  destruct (nearest_scan_pick _ _ _ _ _ _ _ Hscan) as [Heq|[j [Hj [Hvj ->]]]];
    [congruence|].
  apply in_seq in Hj.
  assert (Hnew : ~ In (Z.of_nat j) path_).
  { intro Hin. apply (inv_visited _ _ _ _ Hinv) in Hin; [congruence | lia]. }
  split; [exact Hnew|]. constructor.
  - rewrite mark_visited_length; rewrite (inv_length _ _ _ _ Hinv); lia.
  - apply NoDup_app; [apply (inv_NoDup _ _ _ _ Hinv) | repeat constructor; intros [] |].
    intros a Ha [<-|[]]. now apply Hnew.
  - apply Forall_app. split; [exact Hval|]. repeat constructor; lia.
  - intros k Hk. rewrite mark_visited_lookup
      by (rewrite (inv_length _ _ _ _ Hinv); lia).
    rewrite in_app_iff. destruct (k =? j)%nat eqn:Ekj.
    + apply Nat.eqb_eq in Ekj. subst k. split; [|reflexivity].
      intros _. right. now left.
    + apply Nat.eqb_neq in Ekj. rewrite (inv_visited _ _ _ _ Hinv k Hk).
      split; [now left|]. intros [Hin|[Heq|[]]]; [exact Hin | lia].
  - apply in_or_app. right. now left.
Qed.

Lemma greedy_for_spec (rounds : nat) :
  forall visited path_ cur,
    greedy_inv cities visited path_ cur ->
    (length path_ + rounds = length cities)%nat ->
    exists path', exists suffix,
      greedy_for Math_sqrt rounds cities visited path_ cur = Ok path' /\
      path' = path_ ++ suffix /\
      NoDup path' /\ valid_route cities path' /\
      length path' = length cities.
Proof.
  induction rounds as [|rounds IH]; intros visited path_ cur Hinv Hlen.
  - exists path_, []. destruct Hinv. rewrite app_nil_r. simpl.
    repeat split; auto. lia.
  - cbn [greedy_for].
    destruct (greedy_round visited path_ cur Hinv) as [c [d [Hscan [_ Hinv']]]];
      [lia|].
    rewrite Hscan. cbn [bind fst].
    destruct (IH _ _ _ Hinv') as [path' [suffix [Hrun [Hpre Hrest]]]].
    + rewrite length_app. simpl. lia.
    + exists path', ([c] ++ suffix). split; [exact Hrun|].
      split; [now rewrite app_assoc | exact Hrest].
Qed.

Lemma greedy_inv_start :
  (1 <= length cities)%nat ->
  greedy_inv cities (mark_visited (repeat false (length cities)) 0%Z) [0%Z] 0%Z.
Proof.
  intro Hn. constructor.
  - rewrite (mark_visited_length _ 0); rewrite repeat_length; lia.
  - repeat constructor. intros [].
  - repeat constructor; lia.
  - intros j Hj. rewrite (mark_visited_lookup _ 0) by (rewrite repeat_length; lia).
    destruct (j =? 0)%nat eqn:E.
    + apply Nat.eqb_eq in E. subst. split; [now left | reflexivity].
    + apply Nat.eqb_neq in E. unfold is_visited.
      rewrite nth_repeat. split; [discriminate|].
      intros [Hz|[]]. lia.
  - now left.
Qed.

(** [greedyTSP] on two cities or more returns a closed tour from city 0
    with its length. *)
Lemma greedyTSP_spec :
  (2 <= length cities)%nat ->
  exists g p d,
    greedyTSP Math_sqrt cities = Ok g /\
    greedy_for Math_sqrt (length cities - 1) cities
      (mark_visited (repeat false (length cities)) 0%Z) [0%Z] 0%Z = Ok p /\
    open_tour (length cities) p /\ first_id p = 0%Z /\
    path g = close p /\ distance g = Num d /\
    calculateTotalDistance Math_sqrt (Some (close p)) cities = Ok d.
Proof.
  intro Hn. unfold greedyTSP.
  replace (length cities <? 2)%nat with false by (symmetry; apply Nat.ltb_ge; lia).
  destruct (greedy_for_spec (length cities - 1)
              (mark_visited (repeat false (length cities)) 0%Z) [0%Z] 0%Z)
    as [p [suffix [Hrun [Hpre [Hnd [Hval Hlen]]]]]].
  - apply greedy_inv_start. lia.
  - simpl. lia.
  - rewrite Hrun. cbn [bind]. cbv zeta.
    assert (Hclose : p ++ [0%Z] = close p) by (subst p; reflexivity).
    rewrite !Hclose.
    assert (Hne : p <> []) by (subst p; discriminate).
    destruct (calculateTotalDistance_valid Math_sqrt cities (close p)
                (valid_route_close cities p Hne Hval)) as [d Hd].
    exists (mkPathResult (close p) (Num d)), p, d.
    split; [rewrite Hd; reflexivity|]. repeat split; auto.
    + unfold open_tour. apply NoDup_Permutation_bis; [exact Hnd | |].
      * rewrite allCities_length. lia.
      * intros i Hi. apply allCities_In. apply (valid_route_In cities p _ Hval Hi).
    + subst p. reflexivity.
Qed.
End GreedyFacts.

(** ** 2-opt *)



Section TwoOptFacts.
Variable Math_sqrt : Q -> Q.
Variable cities : list City.

(** An accepted candidate of the inner loop. *)
Lemma twoOpt_for_k_accepts (route : Route) (best : Q) (i : nat) (ks : list nat) :
  forall newRoute newDistance,
    twoOpt_for_k Math_sqrt cities route best i ks = Ok (Some (newRoute, newDistance)) ->
    exists k, In k ks /\ newRoute = perform2OptSwap route i k /\
              calculateTotalDistance Math_sqrt (Some newRoute) cities = Ok newDistance /\
              newDistance < best - EPSILON.
Proof.
  induction ks as [|k ks IH]; intros nr nd H; [discriminate|].
  cbn [twoOpt_for_k] in H.
  destruct (calculateTotalDistance Math_sqrt (Some (perform2OptSwap route i k)) cities)
    as [d|] eqn:Ed; [|discriminate].
  cbn [bind] in H. destruct (Qltb d (best - EPSILON)) eqn:El.
  - injection H as <- <-. exists k. repeat split; auto; [now left|].
    now apply Qltb_lt.
  - destruct (IH _ _ H) as [k' [Hk' Hrest]]. exists k'. split; [now right | exact Hrest].
Qed.

Lemma twoOpt_for_i_accepts (route : Route) (best : Q) (n : nat) (is_ : list nat) :
  forall newRoute newDistance,
    twoOpt_for_i Math_sqrt cities route best n is_ = Ok (Some (newRoute, newDistance)) ->
    exists i k, In i is_ /\ (i < k < n)%nat /\
                newRoute = perform2OptSwap route i k /\
                calculateTotalDistance Math_sqrt (Some newRoute) cities = Ok newDistance /\
                newDistance < best - EPSILON.
Proof.
  induction is_ as [|i is_ IH]; intros nr nd H; [discriminate|].
  cbn [twoOpt_for_i] in H.
  destruct (twoOpt_for_k Math_sqrt cities route best i (seq (i + 1) (n - (i + 1))))
    as [[[nr' nd']|]|] eqn:Ek; [| |discriminate]; cbn [bind] in H.
  - injection H as <- <-.
    destruct (twoOpt_for_k_accepts _ _ _ _ _ _ Ek) as [k [Hk Hrest]].
    apply in_seq in Hk. exists i, k. split; [now left|]. split; [lia | exact Hrest].
  - destruct (IH _ _ H) as [i' [k [Hi' Hrest]]].
    exists i', k. split; [now right | exact Hrest].
Qed.

(** Every swap a pass accepts reverses a segment [i .. k] with
    [1 <= i < k <= n - 1] and is shorter than the incumbent by more than
    [EPSILON]. *)
Lemma twoOpt_pass_accepts (route : Route) (best : Q) (n : nat) :
  forall newRoute newDistance,
    twoOpt_pass Math_sqrt cities route best n = Ok (Some (newRoute, newDistance)) ->
    exists i k, (1 <= i < k)%nat /\ (k < n)%nat /\
                newRoute = perform2OptSwap route i k /\
                calculateTotalDistance Math_sqrt (Some newRoute) cities = Ok newDistance /\
                newDistance < best - EPSILON.
Proof.
  intros nr nd H. unfold twoOpt_pass in H.
  destruct (twoOpt_for_i_accepts _ _ _ _ _ _ H) as [i [k [Hi [Hik Hrest]]]].
  apply in_seq in Hi. exists i, k. split; [lia|]. split; [lia | exact Hrest].
Qed.

(** The loop ends: each accepted swap lowers a distance that cannot go
    below zero by more than [EPSILON]. *)
Lemma twoOpt_while_terminates (Hsqrt : forall q, 0 <= Math_sqrt q) (n : nat) (fuel : nat) :
  forall route best its,
    best < inject_Z (Z.of_nat (S fuel)) * EPSILON ->
    exists outcome,
      twoOpt_while Math_sqrt (S fuel) cities n route best its = Some outcome.
Proof.
  induction fuel as [|fuel IH]; intros route best its Hb.
  - cbn [twoOpt_while].
    destruct (twoOpt_pass Math_sqrt cities route best n) as [[[nr nd]|]|] eqn:Ep;
      [|eauto|eauto].
    exfalso.
    destruct (twoOpt_pass_accepts _ _ _ _ _ Ep) as [i [k [_ [_ [_ [Hc Hlt]]]]]].
    apply (calculateTotalDistance_nonneg _ _ _ _ Hsqrt) in Hc.
    change (inject_Z (Z.of_nat 1)) with 1 in Hb. lra.
  - remember (S fuel) as f eqn:Ef. cbn [twoOpt_while].
    destruct (twoOpt_pass Math_sqrt cities route best n) as [[[nr nd]|]|] eqn:Ep;
      [|eauto|eauto].
    subst f. apply IH.
    destruct (twoOpt_pass_accepts _ _ _ _ _ Ep) as [i [k [_ [_ [_ [_ Hlt]]]]]].
    replace (Z.of_nat (S (S fuel))) with (Z.of_nat (S fuel) + 1)%Z in Hb by lia.
    rewrite inject_Z_plus in Hb. change (inject_Z 1) with 1 in Hb. lra.
Qed.

Lemma enough_fuel (best : Q) :
  exists fuel, best < inject_Z (Z.of_nat (S fuel)) * EPSILON.
Proof.
  exists (Z.to_nat (Qfloor (best / EPSILON))).
  pose proof (Qlt_floor (best / EPSILON)) as Hfl.
  assert (Hz : (Qfloor (best / EPSILON) + 1
                <= Z.of_nat (S (Z.to_nat (Qfloor (best / EPSILON)))))%Z) by lia.
  apply (Qlt_le_trans _ (inject_Z (Qfloor (best / EPSILON) + 1) * EPSILON)).
  - apply (Qmult_lt_compat_r _ _ EPSILON EPSILON_pos) in Hfl.
    assert (He : best / EPSILON * EPSILON == best)
      by (field; discriminate).
    rewrite He in Hfl. exact Hfl.
  - apply Qmult_le_compat_r; [|apply Qlt_le_weak, EPSILON_pos].
    rewrite <- Zle_Qle. exact Hz.
Qed.

(** How far the loop has come down when it returns. *)
Lemma twoOpt_while_descent (n : nat) (fuel : nat) :
  forall route best its route' best' its',
    twoOpt_while Math_sqrt fuel cities n route best its = Some (Ok (route', best', its')) ->
    (its <= its')%nat /\
    best' + inject_Z (Z.of_nat (its' - its)) * EPSILON <= best.
Proof.
  induction fuel as [|fuel IH]; intros route best its route' best' its' H;
    [discriminate|].
  cbn [twoOpt_while] in H.
  destruct (twoOpt_pass Math_sqrt cities route best n) as [[[nr nd]|]|] eqn:Ep.
  - destruct (IH _ _ _ _ _ _ H) as [Hle Hd].
    destruct (twoOpt_pass_accepts _ _ _ _ _ Ep) as [i [k [_ [_ [_ [_ Hlt]]]]]].
    split; [lia|].
    replace (Z.of_nat (its' - its)) with (Z.of_nat (its' - S its) + 1)%Z by lia.
    rewrite inject_Z_plus. change (inject_Z 1) with 1. lra.
  - injection H as <- <- <-. split; [lia|].
    rewrite Nat.sub_diag. change (inject_Z (Z.of_nat 0)) with 0. lra.
  - discriminate.
Qed.




End TwoOptFacts.

Lemma removelast_close (p : Route) : removelast (close p) = p.
Proof. unfold close. apply removelast_last. Qed.

Section TwoOptOnTours.
Variable Math_sqrt : Q -> Q.
Variable cities : list City.
Hypothesis two_cities_or_more : (2 <= length cities)%nat.

(** The route [twoOpt] starts from, for a tour given open or closed. *)
Lemma baseRoute_of_tour (initialRoute : Route) :
  tour (length cities) initialRoute ->
  open_tour (length cities) (baseRoute_of initialRoute) /\
  (2 <= length initialRoute)%nat.
Proof.
  intros [Hopen|[p [Hp ->]]]; unfold baseRoute_of.
  - pose proof (open_tour_length _ _ Hopen) as Hlen.
    pose proof (NoDup_first_last _ (open_tour_NoDup _ _ Hopen)) as Hfl.
    replace (first_id initialRoute =? last_id initialRoute)%Z with false
      by (symmetry; apply Z.eqb_neq, Hfl; lia).
    rewrite andb_false_r. split; [exact Hopen | lia].
  - pose proof (open_tour_length _ _ Hp) as Hlen.
    assert (Hne : p <> []) by (intros ->; simpl in Hlen; lia).
    rewrite close_length, last_id_close, first_id_close, Z.eqb_refl by exact Hne.
    replace (1 <? S (length p))%nat with true by (symmetry; apply Nat.ltb_lt; lia).
    cbn [andb]. rewrite removelast_close. split; [exact Hp | lia].
Qed.


End TwoOptOnTours.

(** ** The claims about the solver *)



(** C5.  Route-length closure invariance: for an open route [R] (no id
    twice, every id a city), [calculateTotalDistance] gives the same
    length for [R] and for [R] closed by appending [R[0]]; and it gives 0
    for a route of fewer than two ids and for a null route. *)
Theorem route_length_closure_invariance (Math_sqrt : Q -> Q)
  (cities : list City) (R short : Route) :
  (forall q, q == 0 -> Math_sqrt q == 0) ->
  NoDup R -> valid_route cities R ->
  (length short < 2)%nat ->
  (exists d d',
     calculateTotalDistance Math_sqrt (Some R) cities = Ok d /\
     calculateTotalDistance Math_sqrt (Some (close R)) cities = Ok d' /\
     d == d') /\
  calculateTotalDistance Math_sqrt (Some short) cities = Ok 0 /\
  calculateTotalDistance Math_sqrt None cities = Ok 0.
Proof.
  intros Hzero Hnd Hv Hshort. split; [|split].
  - destruct R as [|a [|b R]].
    + exists 0, 0. repeat split; reflexivity.
    + inversion Hv as [|? ? Ha _]; subst.
      destruct (city_at_valid cities a Ha) as [c Hc].
      exists 0, (0 + calculateDistance Math_sqrt c c).
      split; [reflexivity|]. split.
      * unfold calculateTotalDistance, close, sum_edges, distance_between.
        simpl. rewrite Z.eqb_refl, Hc. reflexivity.
      * unfold calculateDistance. rewrite Hzero; [reflexivity | ring].
    + destruct (calculateTotalDistance_valid Math_sqrt cities (a :: b :: R) Hv)
        as [d Hd].
      exists d, d. split; [exact Hd|]. split; [|reflexivity].
      rewrite calculateTotalDistance_close; [exact Hd | simpl; lia |].
      apply NoDup_first_last; [exact Hnd | simpl; lia].
  - unfold calculateTotalDistance.
    now replace (length short <? 2)%nat with true by (symmetry; apply Nat.ltb_lt; lia).
  - reflexivity.
Qed.

Lemma route_length_closure_invariance_witness :
  (forall q, q == 0 -> Qsqrt q == 0) /\
  NoDup [0; 1; 2; 3]%Z /\ valid_route square_cities [0; 1; 2; 3]%Z /\
  (length [2%Z] < 2)%nat /\
  (exists d d',
     calculateTotalDistance Qsqrt (Some [0; 1; 2; 3]%Z) square_cities = Ok d /\
     calculateTotalDistance Qsqrt (Some (close [0; 1; 2; 3]%Z)) square_cities = Ok d' /\
     d == d') /\
  calculateTotalDistance Qsqrt (Some [2%Z]) square_cities = Ok 0 /\
  calculateTotalDistance Qsqrt None square_cities = Ok 0.
Proof.
  assert (Hnd : NoDup [0; 1; 2; 3]%Z).
  { repeat constructor; simpl; intuition lia. }
  assert (Hv : valid_route square_cities [0; 1; 2; 3]%Z).
  { repeat constructor; simpl; lia. }
  assert (Hs : (length [2%Z] < 2)%nat) by (simpl; lia).
  split; [exact Qsqrt_zero|]. split; [exact Hnd|]. split; [exact Hv|].
  split; [exact Hs|].
  exact (route_length_closure_invariance Qsqrt square_cities [0; 1; 2; 3]%Z
           [2%Z] Qsqrt_zero Hnd Hv Hs).
Defined.

(** C8.  Fewer than two cities: [greedyTSP], [twoOpt] (whatever the
    initial route and the fuel) and [bruteForceTSP] each return the empty
    route with distance 0, and none throws. *)
Theorem insufficient_cities_empty_result (Math_sqrt : Q -> Q)
  (cities : list City) (initialRoute : option Route) (fuel : nat) :
  (length cities < 2)%nat ->
  greedyTSP Math_sqrt cities = Ok (mkPathResult [] (Num 0)) /\
  twoOpt Math_sqrt fuel cities initialRoute = Some (Ok (mkRouteResult [] 0 0)) /\
  bruteForceTSP Math_sqrt cities = Ok (mkPathResult [] (Num 0)).
Proof.
  intro H. unfold greedyTSP, twoOpt, bruteForceTSP.
  replace (length cities <? 2)%nat with true by (symmetry; apply Nat.ltb_lt; lia).
  repeat split.
Qed.

Lemma insufficient_cities_empty_result_witness :
  (length [city 0 5 5] < 2)%nat /\
  greedyTSP Qsqrt [city 0 5 5] = Ok (mkPathResult [] (Num 0)) /\
  twoOpt Qsqrt 0 [city 0 5 5] (Some [0%Z]) = Some (Ok (mkRouteResult [] 0 0)) /\
  bruteForceTSP Qsqrt [city 0 5 5] = Ok (mkPathResult [] (Num 0)).
Proof.
  assert (H : (length [city 0 5 5] < 2)%nat) by (simpl; lia).
  split; [exact H|].
  exact (insufficient_cities_empty_result Qsqrt [city 0 5 5] (Some [0%Z]) 0 H).
Defined.

(** C4.  2-opt monotonicity and termination: every swap a pass of
    [twoOpt] accepts reverses a segment [i .. k] with [1 <= i < k <= n-1]
    and has a total distance below the incumbent's minus [EPSILON]; a run
    that made [iterations] swaps came down by as many [EPSILON]; and for
    every city list and initial route there is a fuel with which [twoOpt]
    ends, with a result or an exception. *)
Theorem twoOpt_monotone_and_terminates (Math_sqrt : Q -> Q)
  (cities : list City) (initialRoute : option Route) :
  (forall q, 0 <= Math_sqrt q) ->
  (forall route bestDistance n newRoute newDistance,
     twoOpt_pass Math_sqrt cities route bestDistance n
     = Ok (Some (newRoute, newDistance)) ->
     newDistance < bestDistance - EPSILON /\
     exists i k, (1 <= i < k)%nat /\ (k < n)%nat /\
       newRoute = perform2OptSwap route i k /\
       calculateTotalDistance Math_sqrt (Some newRoute) cities = Ok newDistance) /\
  (forall fuel n route bestDistance route' bestDistance' iterations',
     twoOpt_while Math_sqrt fuel cities n route bestDistance 0
     = Some (Ok (route', bestDistance', iterations')) ->
     bestDistance' + inject_Z (Z.of_nat iterations') * EPSILON <= bestDistance) /\
  (exists fuel outcome,
     twoOpt Math_sqrt fuel cities initialRoute = Some outcome).
Proof.
  intro Hs. split; [|split].
  - intros route best n nr nd H.
    destruct (twoOpt_pass_accepts _ _ _ _ _ _ _ H) as [i [k [Hik [Hk [Hnr [Hc Hlt]]]]]].
    split; [exact Hlt|]. exists i, k. auto.
  - intros fuel n route best route' best' its' H.
    destruct (twoOpt_while_descent _ _ _ _ _ _ _ _ _ _ H) as [_ Hd].
    now rewrite Nat.sub_0_r in Hd.
  - unfold twoOpt.
    destruct (length cities <? 2)%nat; [exists 0%nat; eauto|].
    destruct initialRoute as [initialRoute|]; [|exists 0%nat; eauto].
    destruct (length initialRoute <? 2)%nat; [exists 0%nat; eauto|].
    destruct (length (baseRoute_of initialRoute) <? 3)%nat; [exists 0%nat; eauto|].
    destruct (calculateTotalDistance Math_sqrt (Some (baseRoute_of initialRoute)) cities)
      as [best|e]; [|exists 0%nat; eauto].
    destruct (enough_fuel best) as [fuel Hf].
    destruct (twoOpt_while_terminates Math_sqrt cities Hs
                (length (baseRoute_of initialRoute)) fuel
                (baseRoute_of initialRoute) best 0 Hf) as [outcome Hw].
    exists (S fuel). rewrite Hw.
    destruct outcome as [[[route' best'] its']|e]; eauto.
Qed.

Lemma twoOpt_monotone_and_terminates_witness :
  (forall q, 0 <= Qsqrt q) /\
  twoOpt_pass Qsqrt square_cities [0; 2; 1; 3]%Z 48 4
  = Ok (Some ([0; 1; 2; 3]%Z, 40)) /\
  40 < 48 - EPSILON /\
  twoOpt Qsqrt 2 square_cities (Some [0; 2; 1; 3]%Z)
  = Some (Ok (mkRouteResult [0; 1; 2; 3; 0]%Z 40 1)) /\
  exists fuel outcome,
    twoOpt Qsqrt fuel square_cities (Some [0; 2; 1; 3]%Z) = Some outcome.
Proof.
  pose proof (twoOpt_monotone_and_terminates Qsqrt square_cities
                (Some [0; 2; 1; 3]%Z) Qsqrt_nonneg) as [Hpass [_ Hend]].
  assert (Hrun : twoOpt_pass Qsqrt square_cities [0; 2; 1; 3]%Z 48 4
                 = Ok (Some ([0; 1; 2; 3]%Z, 40))) by (vm_compute; reflexivity).
  split; [exact Qsqrt_nonneg|]. split; [exact Hrun|].
  split; [exact (proj1 (Hpass _ _ _ _ _ Hrun))|].
  split; [vm_compute; reflexivity | exact Hend].
Defined.

(** ** The size limit *)

(** The live runner rejects more than nine cities. *)
Lemma runBruteForceLive_size_limit (Math_sqrt : Q -> Q) (cities : list City)
  (env : Live.Environment) (token : Live.Token) :
  (9 < length cities)%nat ->
  Live.runBruteForceLive Math_sqrt cities env token =
  Throw (Error ("Brute Force limited to 9 cities. Current: "
                ++ decimal (length cities))).
Proof.
  intro H. unfold Live.runBruteForceLive.
  now replace (9 <? length cities)%nat with true by (symmetry; apply Nat.ltb_lt; lia).
Qed.

(** [bruteForceTSP] rejects more than ten cities. *)
Lemma bruteForceTSP_size_limit (Math_sqrt : Q -> Q) (cities : list City) :
  (10 < length cities)%nat ->
  bruteForceTSP Math_sqrt cities =
  Throw (Error "Brute Force TSP only practical for n ≤ 10").
Proof.
  intro H. unfold bruteForceTSP.
  replace (length cities <? 2)%nat with false by (symmetry; apply Nat.ltb_ge; lia).
  now replace (10 <? length cities)%nat with true by (symmetry; apply Nat.ltb_lt; lia).
Qed.

Lemma ten_cities_length : length ten_cities = 10%nat.
Proof. reflexivity. Qed.

(** C2.  The size limit at ten cities: the live runner throws, but
    [bruteForceTSP], whose guard is [cities.length > 10], runs the search
    over all ten cities and returns a closed tour of eleven ids. *)
Theorem bruteForceTSP_accepts_ten_cities :
  length ten_cities = 10%nat /\
  (forall env token,
     exists message,
       Live.runBruteForceLive Qsqrt ten_cities env token = Throw (Error message)) /\
  exists r,
    bruteForceTSP Qsqrt ten_cities = Ok r /\ length (path r) = 11%nat.
Proof.
  split; [exact ten_cities_length|]. split.
  - intros env token. eexists. apply runBruteForceLive_size_limit.
    rewrite ten_cities_length. lia.
  - destruct (bruteForceTSP_spec Qsqrt ten_cities) as [r [p [d H]]].
    + rewrite ten_cities_length. lia.
    + destruct H as [Hr [Hp [Hpath _]]]. exists r. split; [exact Hr|].
      rewrite Hpath, close_length, (open_tour_length _ _ Hp).
      now rewrite ten_cities_length.
Qed.

(** ** The greedy step trace *)

Lemma IdSet_has_In (s : IdSet.t) (i : Z) : IdSet.has s i = true <-> In i s.
Proof.
  unfold IdSet.has. rewrite existsb_exists. split.
  - intros [k [Hk Heq]]. apply Z.eqb_eq in Heq. now subst.
  - intro H. exists i. split; [exact H | apply Z.eqb_refl].
Qed.

Lemma IdSet_add_new (s : IdSet.t) (i : Z) : ~ In i s -> IdSet.add s i = s ++ [i].
Proof.
  intro H. unfold IdSet.add. destruct (IdSet.has s i) eqn:E; [|reflexivity].
  apply IdSet_has_In in E. contradiction.
Qed.

Lemma committed_app (s1 s2 : list Step) :
  committed (s1 ++ s2) = committed s1 ++ committed s2.
Proof. unfold committed. now rewrite filter_app, map_app. Qed.

Lemma committed_other (s : Step) :
  String.eqb (Step.type s) "edge_added" = false -> committed [s] = [].
Proof. intro H. unfold committed. simpl. now rewrite H. Qed.

Lemma committed_candidates (cur : Z) (k : nat) (candidates : list Z) :
  committed
    (map (fun cityId =>
            edge_step "candidate_edge" cur cityId
              [("candidateCount"%string, VCount k)]) candidates) = [].
Proof. induction candidates as [|c cs IH]; [reflexivity | exact IH]. Qed.

Section GreedyTraceFacts.
Variable Math_sqrt : Q -> Q.
Variable cities : list City.

(** The distance the generator computes inline is the solver's. *)
Lemma inline_distance_eq (from to : Z) :
  inline_distance Math_sqrt cities from to =
  distance_between Math_sqrt cities from to.
Proof.
  unfold inline_distance, distance_between.
  destruct (city_at cities to), (city_at cities from); reflexivity.
Qed.

(** The scan of the second loop, over a set that holds what the array
    marks, is the scan of [greedyTSP]. *)
Lemma reconstruct_scan_eq (visited : list bool) (S_ : IdSet.t) (cur : Z)
  (js : list nat) :
  (forall j, In j js -> IdSet.has S_ (Z.of_nat j) = is_visited visited j) ->
  forall nc nd,
    reconstruct_scan Math_sqrt cities S_ cur js nc nd =
    nearest_scan Math_sqrt cities visited cur js nc nd.
Proof.
  induction js as [|j js IH]; intros Hc nc nd; [reflexivity|].
  cbn [reconstruct_scan nearest_scan].
  rewrite (Hc j (or_introl eq_refl)), inline_distance_eq.
  assert (Hc' : forall k, In k js -> IdSet.has S_ (Z.of_nat k) = is_visited visited k)
    by (intros k Hk; apply Hc; now right).
  destruct (negb (is_visited visited j)); [|now apply IH].
  destruct (distance_between Math_sqrt cities cur (Z.of_nat j)); [|reflexivity].
  cbn [bind]. destruct (lt_number a nd); now apply IH.
Qed.

(** The scan of the first loop, over the filtered candidates, is the
    scan of the second. *)
Lemma nearest_candidate_eq (S_ : IdSet.t) (cur : Z) (js : list nat) :
  forall nc nd,
    nearest_candidate Math_sqrt cities cur
      (filter (fun i => negb (IdSet.has S_ i)) (map Z.of_nat js)) nc nd =
    reconstruct_scan Math_sqrt cities S_ cur js nc nd.
Proof.
  induction js as [|j js IH]; intros nc nd; [reflexivity|].
  cbn [map filter reconstruct_scan].
  destruct (negb (IdSet.has S_ (Z.of_nat j))); [|now apply IH].
  cbn [nearest_candidate].
  destruct (inline_distance Math_sqrt cities cur (Z.of_nat j)); [|reflexivity].
  cbn [bind]. destruct (lt_number a nd); now apply IH.
Qed.

Lemma greedy_reconstruct_while_unfold (fuel n : nat) (S_ : IdSet.t) (cur : Z)
  (order : Route) :
  greedy_reconstruct_while Math_sqrt fuel cities n S_ cur order =
  if (IdSet.size S_ <? n)%nat then
    match fuel with
    | O => None
    | S fuel' =>
        match reconstruct_scan Math_sqrt cities S_ cur (seq 0 n) (-1)%Z
                Infinity with
        | Throw e => Some (Throw e)
        | Ok (nearest, _) =>
            greedy_reconstruct_while Math_sqrt fuel' cities n
              (IdSet.add S_ nearest) nearest (order ++ [nearest])
        end
    end
  else Some (Ok order).
Proof. destruct fuel; reflexivity. Qed.

Lemma greedy_steps_while_unfold (fuel n : nat) (S_ : IdSet.t) (cur : Z)
  (steps : list Step) :
  greedy_steps_while Math_sqrt fuel cities n S_ cur steps =
  if (IdSet.size S_ <? n)%nat then
    match fuel with
    | O => None
    | S fuel' =>
        let candidates :=
          filter (fun i => negb (IdSet.has S_ i)) (allCities n) in
        let steps :=
          steps ++
          map (fun cityId =>
                 edge_step "candidate_edge" cur cityId
                   [("candidateCount"%string, VCount (length candidates))])
              candidates in
        match nearest_candidate Math_sqrt cities cur candidates (-1)%Z
                Infinity with
        | Throw e => Some (Throw e)
        | Ok (nearest, minDist) =>
            let steps :=
              steps ++
              [edge_step "decision" cur nearest
                 [("distance"%string, VNumber minDist)];
               edge_step "edge_added" cur nearest
                 [("distance"%string, VNumber minDist);
                  ("visitedCount"%string, VCount (IdSet.size S_ + 1));
                  ("totalCount"%string, VCount n)]] in
            greedy_steps_while Math_sqrt fuel' cities n (IdSet.add S_ nearest)
              nearest steps
        end
    end
  else Some (Ok (steps, cur)).
Proof. destruct fuel; reflexivity. Qed.

(** The second loop of the generator walks the loop of [greedyTSP]: with
    the set equal to the path so far, it returns what [greedy_for]
    returns. *)
Lemma greedy_reconstruct_while_eq (rounds : nat) :
  forall fuel visited path_ cur,
    greedy_inv cities visited path_ cur ->
    (length path_ + rounds = length cities)%nat ->
    (rounds <= fuel)%nat ->
    greedy_reconstruct_while Math_sqrt fuel cities (length cities) path_ cur path_
    = Some (greedy_for Math_sqrt rounds cities visited path_ cur).
Proof.
  induction rounds as [|rounds IH]; intros fuel visited path_ cur Hinv Hlen Hfuel;
    rewrite greedy_reconstruct_while_unfold; unfold IdSet.size.
  - replace (length path_ <? length cities)%nat with false
      by (symmetry; apply Nat.ltb_ge; lia).
    reflexivity.
  - replace (length path_ <? length cities)%nat with true
      by (symmetry; apply Nat.ltb_lt; lia).
    destruct fuel as [|fuel]; [lia|].
    rewrite (reconstruct_scan_eq visited).
    + destruct (greedy_round Math_sqrt cities visited path_ cur Hinv)
        as [c [d [Hscan [Hnew Hinv']]]]; [lia|].
      cbn [greedy_for]. rewrite Hscan. cbn [bind fst].
      rewrite IdSet_add_new by exact Hnew.
      apply IH; [exact Hinv' | rewrite length_app; simpl; lia | lia].
    + intros j Hj. apply in_seq in Hj.
      destruct (is_visited visited j) eqn:E.
      * apply IdSet_has_In. apply (inv_visited _ _ _ _ Hinv); [lia | exact E].
      * destruct (IdSet.has path_ (Z.of_nat j)) eqn:Eh; [|reflexivity].
        apply IdSet_has_In in Eh.
        apply (inv_visited _ _ _ _ Hinv) in Eh; [congruence | lia].
Qed.

(** The first loop makes the choices of the second: it ends where the
    second ends, and the cities it commits to are those the second
    appends. *)
Lemma greedy_steps_while_follows (fuel : nat) (n : nat) :
  forall S_ cur order steps order',
    order <> [] -> cur = last_id order ->
    greedy_reconstruct_while Math_sqrt fuel cities n S_ cur order
    = Some (Ok order') ->
    exists steps' suffix,
      greedy_steps_while Math_sqrt fuel cities n S_ cur steps
      = Some (Ok (steps', last_id order')) /\
      order' = order ++ suffix /\
      committed steps' = committed steps ++ map Some suffix.
Proof.
  induction fuel as [|fuel IH]; intros S_ cur order steps order' Hne Hcur H;
    rewrite greedy_reconstruct_while_unfold in H;
    rewrite greedy_steps_while_unfold;
    destruct (IdSet.size S_ <? n)%nat; try discriminate.
  - injection H as <-. exists steps, []. rewrite !app_nil_r. subst cur. auto.
  - cbv zeta. unfold allCities. rewrite nearest_candidate_eq.
    destruct (reconstruct_scan Math_sqrt cities S_ cur (seq 0 n) (-1)%Z Infinity)
      as [[nearest minDist]|e]; [|discriminate].
    match goal with
    | |- exists _ _, greedy_steps_while _ _ _ _ _ _ ?st = _ /\ _ /\ _ =>
        destruct (IH (IdSet.add S_ nearest) nearest (order ++ [nearest]) st order')
          as [steps' [suffix [Hrun [Hord Hcom]]]]
    end.
    + intro E. destruct order; discriminate.
    + now rewrite last_id_app.
    + exact H.
    + exists steps', (nearest :: suffix). split; [exact Hrun|].
      split; [now rewrite Hord, <- app_assoc|].
      rewrite Hcom, !committed_app, committed_candidates.
      rewrite app_nil_r, <- app_assoc. reflexivity.
  - injection H as <-. exists steps, []. rewrite !app_nil_r. subst cur. auto.
Qed.
End GreedyTraceFacts.

(** C6.  The greedy trace walks the decisions of the greedy algorithm,
    on two cities or more.  Whenever [greedyTSP] and [generateGreedySteps]
    both return, the last step of the trace is the [final_result] step
    with the closed route and the total distance that [greedyTSP]
    returns, and the [edge_added] steps commit, in order, to the cities
    of that route between its two [0]s.  With the coordinates in range
    both do return, the generator given fuel for its loops. *)
Theorem greedy_trace_matches_greedyTSP (Math_sqrt : Q -> Q)
  (cities : list City) (fuel : nat) :
  (2 <= length cities)%nat -> (length cities <= fuel)%nat ->
  (forall g steps,
     greedyTSP Math_sqrt cities = Ok g ->
     generateGreedySteps Math_sqrt fuel cities = Some (Ok steps) ->
     exists earlier visits,
       steps = earlier ++ [final_result_step (path g) (distance g) "greedy"] /\
       path g = [0%Z] ++ visits ++ [0%Z] /\
       committed steps = map Some visits) /\
  (coordinates_in_range cities ->
   exists g earlier visits,
     greedyTSP Math_sqrt cities = Ok g /\
     generateGreedySteps Math_sqrt fuel cities
     = Some (Ok (earlier ++ [final_result_step (path g) (distance g) "greedy"])) /\
     path g = [0%Z] ++ visits ++ [0%Z] /\
     committed (earlier ++ [final_result_step (path g) (distance g) "greedy"])
     = map Some visits).
Proof.
  intros Hn Hfuel.
  destruct (greedyTSP_spec Math_sqrt cities Hn) as [g [p [d H]]].
  destruct H as [Hg [Hfor [Hp [Hfirst [Hpath [Hdist Hc]]]]]].
  assert (Hrec : greedy_reconstruct_while Math_sqrt fuel cities (length cities)
                   [0%Z] 0%Z [0%Z] = Some (Ok p)).
  { rewrite <- Hfor.
    apply (greedy_reconstruct_while_eq Math_sqrt cities (length cities - 1));
      [apply greedy_inv_start; lia | simpl; lia | lia]. }
  set (steps0 := [metadata_step "metadata_update"
                    [("globalMessage"%string,
                       VText ("Starting Greedy TSP with "
                              ++ decimal (length cities) ++ " cities"))]]).
  destruct (greedy_steps_while_follows Math_sqrt cities fuel (length cities)
              [0%Z] 0%Z [0%Z] steps0 p) as [steps' [visits [Hrun [Hord Hcom]]]];
    [discriminate | reflexivity | exact Hrec |].
  pose proof (open_tour_valid _ _ Hp) as Hv.
  assert (Hne : p <> []) by (rewrite Hord; discriminate).
  destruct (distance_between_valid Math_sqrt cities (last_id p) 0%Z) as [fd Hfd].
  { apply (valid_route_In cities p _ Hv). now apply last_id_In. }
  { lia. }
  rewrite <- inline_distance_eq in Hfd.
  assert (Hclose : p ++ [0%Z] = close p) by (unfold close; now rewrite Hfirst).
  set (earlier := steps' ++
           [edge_step "route_closed" (last_id p) 0%Z
              [("distance"%string, VNumber (Num fd))]] ++
           [metadata_step "metadata_update"
              [("globalMessage"%string, VText "Greedy algorithm complete!");
               ("totalDistance"%string, VNumber (Num d))]]).
  assert (Hgen : generateGreedySteps Math_sqrt fuel cities
                 = Some (Ok (earlier ++
                             [final_result_step (path g) (distance g) "greedy"]))).
  { unfold generateGreedySteps. fold steps0. rewrite Hrun, Hfd, Hrec.
    cbv zeta. rewrite Hclose, Hc. cbn [bind].
    rewrite Hpath, Hdist. unfold earlier. rewrite <- !app_assoc. reflexivity. }
  assert (Hvisits : path g = [0%Z] ++ visits ++ [0%Z])
    by (rewrite Hpath, <- Hclose, Hord, <- app_assoc; reflexivity).
  assert (Hcommitted :
            committed (earlier ++
                       [final_result_step (path g) (distance g) "greedy"])
            = map Some visits).
  { unfold earlier. rewrite !committed_app, Hcom. unfold steps0.
    rewrite !committed_other by reflexivity.
    now rewrite !app_nil_r. }
  split.
  - intros g' steps Hg' Hsteps. rewrite Hg in Hg'. injection Hg' as <-.
    rewrite Hgen in Hsteps. injection Hsteps as <-.
    exists earlier, visits. auto.
  - intros _. exists g, earlier, visits. auto.
Qed.

Lemma greedy_trace_matches_greedyTSP_witness :
  (2 <= length square_cities)%nat /\ (length square_cities <= 4)%nat /\
  coordinates_in_range square_cities /\
  exists g earlier visits,
    greedyTSP Qsqrt square_cities = Ok g /\
    generateGreedySteps Qsqrt 4 square_cities
    = Some (Ok (earlier ++ [final_result_step (path g) (distance g) "greedy"])) /\
    path g = [0%Z] ++ visits ++ [0%Z] /\
    committed (earlier ++ [final_result_step (path g) (distance g) "greedy"])
    = map Some visits.
Proof.
  assert (H2 : (2 <= length square_cities)%nat) by (simpl; lia).
  assert (H4 : (length square_cities <= 4)%nat) by (simpl; lia).
  split; [exact H2|]. split; [exact H4|].
  split; [exact square_cities_in_range|].
  exact (proj2 (greedy_trace_matches_greedyTSP Qsqrt square_cities 4 H2 H4)
           square_cities_in_range).
Defined.

(** ** The playback controller *)

Module StepControllerFacts.
Import StepController.

Lemma pause_fields (c : t) :
  steps (pause c) = steps c /\
  currentStepIndex (pause c) = currentStepIndex c /\
  isPlaying (pause c) = false.
Proof. unfold pause. destruct (isPlaying c) eqn:E; simpl; auto. Qed.

Lemma next_at_end (c : t) :
  (steps_length c - 1 <= currentStepIndex c)%Z -> next c = (c, false).
Proof.
  intro H. unfold next.
  destruct (Z.ltb_spec (currentStepIndex c) (steps_length c - 1)); [lia|].
  reflexivity.
Qed.

Lemma next_advances (c : t) :
  (currentStepIndex c < steps_length c - 1)%Z ->
  snd (next c) = true /\
  steps (fst (next c)) = steps c /\
  currentStepIndex (fst (next c)) = (currentStepIndex c + 1)%Z /\
  (isPlaying c = false -> isPlaying (fst (next c)) = false).
Proof.
  intro H. unfold next.
  destruct (Z.ltb_spec (currentStepIndex c) (steps_length c - 1)); [|lia].
  cbn [fst snd]. split; [reflexivity|].
  set (c' := _notifyStepChanged (set_index c (currentStepIndex c + 1))).
  assert (Hc' : steps c' = steps c /\
                currentStepIndex c' = (currentStepIndex c + 1)%Z /\
                isPlaying c' = isPlaying c) by (subst c'; simpl; auto).
  destruct Hc' as [Hs [Hi Hp]].
  destruct (getCurrentStep c') as [s|]; [|rewrite Hs, Hi, Hp; auto].
  destruct (is_terminal_type (Step.type s) && isPlaying c')%bool eqn:E.
  - destruct (pause_fields c') as [Hs' [Hi' Hp']].
    rewrite Hs', Hi', Hs, Hi. auto.
  - rewrite Hs, Hi, Hp. auto.
Qed.

Lemma previous_at_start (c : t) :
  (currentStepIndex c <= -1)%Z -> previous c = (c, false).
Proof.
  intro H. unfold previous.
  destruct (Z.ltb_spec (-1) (currentStepIndex c)); [lia | reflexivity].
Qed.

Lemma previous_retreats (c : t) :
  (-1 < currentStepIndex c)%Z ->
  snd (previous c) = true /\
  steps (fst (previous c)) = steps c /\
  currentStepIndex (fst (previous c)) = (currentStepIndex c - 1)%Z /\
  isPlaying (fst (previous c)) = isPlaying c.
Proof.
  intro H. unfold previous.
  destruct (Z.ltb_spec (-1) (currentStepIndex c)); [|lia].
  simpl. auto.
Qed.

Lemma play_fields (c : t) :
  steps (play c) = steps c /\
  (currentStepIndex (play c) = (-1)%Z \/
   currentStepIndex (play c) = currentStepIndex c).
Proof.
  unfold play. destruct (isPlaying c); [auto|].
  destruct (steps_length c - 1 <=? currentStepIndex c)%Z; simpl; auto.
Qed.

Lemma clear_fields (c : t) :
  steps (clear c) = [] /\ currentStepIndex (clear c) = (-1)%Z /\
  isPlaying (clear c) = false.
Proof.
  unfold clear. simpl. destruct (pause_fields c) as [_ [_ Hp]]. auto.
Qed.

Lemma initialize_fields (c : t) (a : string) (n : nat) (r : Route) :
  steps (initialize c a n r) = [] /\
  currentStepIndex (initialize c a n r) = (-1)%Z /\
  isPlaying (initialize c a n r) = false.
Proof.
  unfold initialize. simpl. destruct (clear_fields c) as [Hs [_ Hp]]. auto.
Qed.

Lemma addStep_fields (c : t) (s : Step) :
  (steps (addStep c s) = steps c \/ steps (addStep c s) = steps c ++ [s]) /\
  currentStepIndex (addStep c s) = currentStepIndex c /\
  isPlaying (addStep c s) = isPlaying c.
Proof. unfold addStep. destruct (String.eqb (Step.type s) ""); simpl; auto. Qed.

Lemma addStep_typed (c : t) (s : Step) :
  Step.type s <> ""%string -> steps (addStep c s) = steps c ++ [s].
Proof.
  intro H. unfold addStep.
  destruct (String.eqb_spec (Step.type s) ""); [contradiction | reflexivity].
Qed.

Lemma replay_fields (c : t) :
  steps (replay c) = steps c /\
  currentStepIndex (replay c) = (-1)%Z /\
  isPlaying (replay c) = true /\
  playbackInterval (replay c) = true /\
  notified (replay c) =
  notified (pause c) ++ [StepChanged (-1); PlaybackStateChanged true].
Proof.
  unfold replay. destruct (pause_fields c) as [Hs [Hi Hp]].
  unfold play. cbn [isPlaying _notifyStepChanged notify set_index].
  rewrite Hp.
  destruct (steps_length _ - 1 <=? _)%Z; simpl; rewrite Hs, <- app_assoc; auto.
Qed.

(** The index stays in range under every operation. *)
Lemma run_op_in_range (c : t) (op : Op) :
  index_in_range c -> index_in_range (run_op c op).
Proof.
  unfold index_in_range, steps_length. intro H.
  assert (Hpause : forall c', index_in_range c' -> index_in_range (pause c')).
  { intros c' H'. unfold index_in_range, steps_length in *.
    destruct (pause_fields c') as [Hs [Hi _]]. now rewrite Hs, Hi. }
  assert (Hnext : forall c', index_in_range c' -> index_in_range (fst (next c'))).
  { intros c' H'. unfold index_in_range, steps_length in *.
    destruct (Z.lt_ge_cases (currentStepIndex c') (steps_length c' - 1)) as [Hlt|Hge].
    - destruct (next_advances c' Hlt) as [_ [Hs [Hi _]]].
      rewrite Hs, Hi. unfold steps_length in Hlt. lia.
    - rewrite next_at_end by lia. exact H'. }
  assert (Hplay : forall c', index_in_range c' -> index_in_range (play c')).
  { intros c' H'. unfold index_in_range, steps_length in *.
    destruct (play_fields c') as [Hs [Hi|Hi]]; rewrite Hs, Hi; lia. }
  assert (Hadd : forall s c', index_in_range c' -> index_in_range (addStep c' s)).
  { intros s c' H'. unfold index_in_range, steps_length in *.
    destruct (addStep_fields c' s) as [[Hs|Hs] [Hi _]]; rewrite Hs, Hi;
      [exact H'|]. rewrite length_app. simpl. lia. }
  destruct op as [a n r|s|stepsArray| | | | | | | | |ms]; cbn [run_op].
  - destruct (initialize_fields c a n r) as [Hs [Hi _]].
    rewrite Hs, Hi. simpl. lia.
  - now apply Hadd.
  - unfold addSteps. clear Hpause Hnext Hplay. revert c H.
    induction stepsArray as [|s ss IH]; intros c H.
    + exact H.
    + cbn [fold_left]. apply IH. now apply (Hadd s c).
  - now apply Hnext.
  - destruct (Z.lt_ge_cases (-1) (currentStepIndex c)) as [Hlt|Hge].
    + destruct (previous_retreats c Hlt) as [_ [Hs [Hi _]]]. rewrite Hs, Hi. lia.
    + rewrite previous_at_start by lia. exact H.
  - now apply Hplay.
  - unfold tick. destruct (playbackInterval c); [|exact H].
    pose proof (Hnext c H) as Hn. destruct (next c) as [c' advanced].
    cbn [fst] in Hn. destruct advanced; [exact Hn | now apply Hpause].
  - now apply Hpause.
  - destruct (replay_fields c) as [Hs [Hi _]]. rewrite Hs, Hi. lia.
  - unfold reset. simpl. destruct (pause_fields c) as [Hs _]. rewrite Hs. lia.
  - destruct (clear_fields c) as [Hs [Hi _]]. rewrite Hs, Hi. simpl. lia.
  - unfold setPlaybackSpeed. cbn [isPlaying].
    destruct (isPlaying c); [|exact H].
    apply Hplay, Hpause. exact H.
Qed.

Lemma run_ops_in_range (ops : list Op) :
  forall c, index_in_range c -> index_in_range (run_ops c ops).
Proof.
  unfold run_ops. induction ops as [|op ops IH]; intros c H; [exact H|].
  cbn [fold_left]. apply IH. now apply run_op_in_range.
Qed.

(** With the index in range, the current step is [null] exactly at
    [-1], and otherwise the step at the index. *)
Lemma getCurrentStep_in_range (c : t) :
  index_in_range c ->
  (currentStepIndex c = (-1)%Z /\ getCurrentStep c = None) \/
  (exists s, getCurrentStep c = Some s /\
             nth_error (steps c) (Z.to_nat (currentStepIndex c)) = Some s /\
             In s (steps c) /\ (0 <= currentStepIndex c)%Z).
Proof.
  unfold index_in_range, getCurrentStep. intros [Hlo Hhi].
  destruct (Z.ltb_spec (currentStepIndex c) 0) as [Hneg|Hpos].
  - left. split; [lia | reflexivity].
  - right. destruct (Z.leb_spec (steps_length c) (currentStepIndex c)); [lia|].
    cbn [orb].
    destruct (nth_error (steps c) (Z.to_nat (currentStepIndex c))) as [s|] eqn:E.
    + exists s. repeat split; auto. now apply nth_error_In in E.
    + apply nth_error_None in E. unfold steps_length in *. lia.
Qed.
End StepControllerFacts.

(** C10.  After any sequence of operations on a fresh controller, the
    step index lies between -1 and [steps.length - 1], and
    [getCurrentStep] returns [null] (at index -1) or the loaded step at
    the index. *)
Theorem step_index_always_in_range (ops : list StepController.Op) :
  StepController.index_in_range
    (StepController.run_ops StepController.constructor ops) /\
  ((StepController.currentStepIndex
      (StepController.run_ops StepController.constructor ops) = (-1)%Z /\
    StepController.getCurrentStep
      (StepController.run_ops StepController.constructor ops) = None) \/
   exists s,
     StepController.getCurrentStep
       (StepController.run_ops StepController.constructor ops) = Some s /\
     nth_error
       (StepController.steps
          (StepController.run_ops StepController.constructor ops))
       (Z.to_nat
          (StepController.currentStepIndex
             (StepController.run_ops StepController.constructor ops)))
     = Some s).
Proof.
  set (c := StepController.run_ops StepController.constructor ops).
  assert (H : StepController.index_in_range c).
  { apply StepControllerFacts.run_ops_in_range.
    unfold StepController.index_in_range. simpl. lia. }
  split; [exact H|].
  destruct (StepControllerFacts.getCurrentStep_in_range c H)
    as [Hnull|[s [Hs [Hn _]]]]; [now left | right; eauto].
Qed.

(** C9.  Playback: on a controller initialized and loaded with a trace of
    three typed steps, three [next()] return true and reach index 2, a
    fourth returns false and changes nothing; four [previous()] from
    there go to 1, 0, -1 and the fourth returns false and changes
    nothing; [replay()] on any controller sets the index to -1 and
    notifies it before it starts playing, so that the first tick shows
    step 0.  Every operation is a total function: none raises. *)
Theorem playback_fsm (c : StepController.t) (a : string) (n : nat)
  (r : Route) (s0 s1 s2 : Step) :
  Step.type s0 <> ""%string -> Step.type s1 <> ""%string ->
  Step.type s2 <> ""%string ->
  let c0 := StepController.addSteps (StepController.initialize c a n r)
              [s0; s1; s2] in
  let c1 := fst (StepController.next c0) in
  let c2 := fst (StepController.next c1) in
  let c3 := fst (StepController.next c2) in
  let b1 := fst (StepController.previous c3) in
  let b2 := fst (StepController.previous b1) in
  let b3 := fst (StepController.previous b2) in
  (StepController.steps c0 = [s0; s1; s2] /\
   StepController.currentStepIndex c0 = (-1)%Z) /\
  (snd (StepController.next c0) = true /\
   snd (StepController.next c1) = true /\
   snd (StepController.next c2) = true /\
   StepController.currentStepIndex c3 = 2%Z /\
   StepController.getCurrentStep c3 = Some s2 /\
   StepController.next c3 = (c3, false)) /\
  (StepController.currentStepIndex b1 = 1%Z /\
   StepController.currentStepIndex b2 = 0%Z /\
   StepController.currentStepIndex b3 = (-1)%Z /\
   snd (StepController.previous c3) = true /\
   snd (StepController.previous b1) = true /\
   snd (StepController.previous b2) = true /\
   StepController.previous b3 = (b3, false)) /\
  (forall c' : StepController.t,
     StepController.currentStepIndex (StepController.replay c') = (-1)%Z /\
     StepController.isPlaying (StepController.replay c') = true /\
     StepController.notified (StepController.replay c') =
       StepController.notified (StepController.pause c') ++
       [StepController.StepChanged (-1);
        StepController.PlaybackStateChanged true] /\
     (StepController.steps c' <> [] ->
      StepController.currentStepIndex
        (StepController.tick (StepController.replay c')) = 0%Z)).
Proof.
  intros H0 H1 H2 c0 c1 c2 c3 b1 b2 b3.
  destruct (StepControllerFacts.initialize_fields c a n r) as [Hs [Hi Hp]].
  assert (Hc0 : StepController.steps c0 = [s0; s1; s2] /\
                StepController.currentStepIndex c0 = (-1)%Z /\
                StepController.isPlaying c0 = false).
  { subst c0. unfold StepController.addSteps. cbn [fold_left].
    set (i := StepController.initialize c a n r) in *.
    destruct (StepControllerFacts.addStep_fields i s0) as [_ [Hi0 Hp0]].
    pose proof (StepControllerFacts.addStep_typed i s0 H0) as Hs0.
    set (i0 := StepController.addStep i s0) in *.
    destruct (StepControllerFacts.addStep_fields i0 s1) as [_ [Hi1 Hp1]].
    pose proof (StepControllerFacts.addStep_typed i0 s1 H1) as Hs1.
    set (i1 := StepController.addStep i0 s1) in *.
    destruct (StepControllerFacts.addStep_fields i1 s2) as [_ [Hi2 Hp2]].
    pose proof (StepControllerFacts.addStep_typed i1 s2 H2) as Hs2.
    rewrite Hs2, Hs1, Hs0, Hs, Hi2, Hi1, Hi0, Hp2, Hp1, Hp0. auto. }
  destruct Hc0 as [Hs0 [Hi0 Hp0]].
  assert (Hlen : forall x, StepController.steps x = [s0; s1; s2] ->
                           StepController.steps_length x = 3%Z)
    by (intros x Hx; unfold StepController.steps_length; now rewrite Hx).
  destruct (StepControllerFacts.next_advances c0) as [Hn0 [Hs1 [Hi1 Hp1]]];
    [rewrite (Hlen _ Hs0); lia|].
  fold c1 in Hs1, Hi1, Hp1. rewrite Hs0 in Hs1. rewrite Hi0 in Hi1.
  specialize (Hp1 Hp0).
  destruct (StepControllerFacts.next_advances c1) as [Hn1 [Hs2 [Hi2 Hp2]]];
    [rewrite (Hlen _ Hs1); lia|].
  fold c2 in Hs2, Hi2, Hp2. rewrite Hs1 in Hs2. rewrite Hi1 in Hi2.
  specialize (Hp2 Hp1).
  destruct (StepControllerFacts.next_advances c2) as [Hn2 [Hs3 [Hi3 Hp3]]];
    [rewrite (Hlen _ Hs2); lia|].
  fold c3 in Hs3, Hi3, Hp3. rewrite Hs2 in Hs3. rewrite Hi2 in Hi3.
  destruct (StepControllerFacts.previous_retreats c3) as [Hb1 [Hsb1 [Hib1 _]]];
    [lia|].
  fold b1 in Hsb1, Hib1. rewrite Hi3 in Hib1.
  destruct (StepControllerFacts.previous_retreats b1) as [Hb2 [Hsb2 [Hib2 _]]];
    [lia|].
  fold b2 in Hsb2, Hib2. rewrite Hib1 in Hib2.
  destruct (StepControllerFacts.previous_retreats b2) as [Hb3 [Hsb3 [Hib3 _]]];
    [lia|].
  fold b3 in Hsb3, Hib3. rewrite Hib2 in Hib3.
  split; [auto|]. split; [|split].
  - repeat split; auto.
    + unfold StepController.getCurrentStep.
      rewrite (Hlen _ Hs3), Hi3, Hs3. reflexivity.
    + apply StepControllerFacts.next_at_end. rewrite (Hlen _ Hs3). lia.
  - repeat split; auto.
    apply StepControllerFacts.previous_at_start. lia.
  - intro c'.
    destruct (StepControllerFacts.replay_fields c') as [Hrs [Hri [Hrp [Hrt Hrn]]]].
    repeat split; auto.
    intro Hne. unfold StepController.tick. rewrite Hrt.
    destruct (StepControllerFacts.next_advances (StepController.replay c'))
      as [Hadv [_ [Hidx _]]].
    + unfold StepController.steps_length. rewrite Hrs, Hri.
      destruct (StepController.steps c'); [congruence | cbn [length]; lia].
    + destruct (StepController.next (StepController.replay c')) as [c'' adv].
      cbn [fst snd] in *. subst adv. rewrite Hidx, Hri. reflexivity.
Qed.

Lemma playback_fsm_witness :
  (Step.type demo_decision <> ""%string /\
   Step.type demo_edge_added <> ""%string /\
   Step.type demo_final_result <> ""%string) /\
  StepController.currentStepIndex
    (fst (StepController.next (fst (StepController.next
       (fst (StepController.next demo_controller)))))) = 2%Z /\
  snd (StepController.next
    (fst (StepController.next (fst (StepController.next
       (fst (StepController.next demo_controller))))))) = false.
Proof.
  assert (H0 : Step.type demo_decision <> ""%string) by discriminate.
  assert (H1 : Step.type demo_edge_added <> ""%string) by discriminate.
  assert (H2 : Step.type demo_final_result <> ""%string) by discriminate.
  split; [auto|].
  destruct (playback_fsm StepController.constructor "Greedy" 2 []
              demo_decision demo_edge_added demo_final_result H0 H1 H2)
    as [_ [[_ [_ [_ [Hidx [_ Hend]]]]] _]].
  split; [exact Hidx|].
  unfold demo_controller. rewrite Hend. reflexivity.
Defined.

(** ** The live search *)

Lemma lt_number_below (d : Q) (m : number) :
  lt_number d m = true -> le_number (Num d) m.
Proof.
  destruct m as [m|]; simpl; [|trivial]. rewrite Qltb_lt. apply Qlt_le_weak.
Qed.

Lemma lt_number_kept (d : Q) (m : number) :
  lt_number d m = false -> le_number m (Num d).
Proof.
  destruct m as [m|]; simpl; [|discriminate]. now rewrite Qltb_ge.
Qed.

Section LiveFacts.
Variable Math_sqrt : Q -> Q.
Variable cities : list City.

Lemma path_edges_eq (r : Route) :
  forall acc,
    Live.path_edges Math_sqrt cities r acc = sum_edges Math_sqrt cities r acc.
Proof.
  induction r as [|a r IH]; intro acc; [reflexivity|].
  destruct r as [|b r]; [reflexivity|].
  rewrite sum_edges_step. cbn [Live.path_edges].
  rewrite inline_distance_eq.
  destruct (distance_between Math_sqrt cities a b); [|reflexivity].
  cbn [bind]. apply IH.
Qed.

Lemma calculatePathDistance_valid (r : Route) :
  r <> [] -> valid_route cities r ->
  exists d, Live.calculatePathDistance Math_sqrt r cities = Ok d.
Proof.
  intros Hne Hv. unfold Live.calculatePathDistance.
  rewrite path_edges_eq.
  destruct (sum_edges_valid Math_sqrt cities r 0 Hv) as [t ->]. cbn [bind].
  rewrite inline_distance_eq.
  destruct (distance_between_valid Math_sqrt cities (last_id r) (first_id r))
    as [d ->].
  - apply (valid_route_In cities r _ Hv). now apply last_id_In.
  - apply (valid_route_In cities r _ Hv). destruct r; [congruence | now left].
  - cbn [bind]. eauto.
Qed.

(** The loop of the live search, entered with [c] permutations checked,
    in a run whose token is first found set after [k]: it stops there, or
    at the end of the permutations if that comes first, having evaluated
    the next [k - c] permutations and kept the least distance among them
    and the incumbent. *)
Lemma live_for_cancelled (env : Live.Environment) (total : nat)
  (token0 : Live.Token) (k : nat) (perms : list Route) :
  (forall p, In p perms -> valid_route cities p /\ p <> []) ->
  Live.cancelled (token_after env token0 k) = true ->
  forall c best route reported,
    (c <= k)%nat ->
    (forall j, (c <= j < k)%nat ->
               Live.cancelled (token_after env token0 j) = false) ->
    exists r,
      Live.live_for Math_sqrt cities env total perms
        (token_after env token0 c) best route c reported = Ok r /\
      Live.permutationsChecked r = Nat.min k (c + length perms) /\
      Live.totalPermutations r = total /\
      le_number (Live.distance r) best /\
      (forall p, In p (firstn (k - c) perms) ->
         exists d,
           Live.calculatePathDistance Math_sqrt (close p) cities = Ok d /\
           le_number (Live.distance r) (Num d)) /\
      ((Live.path r = route /\ Live.distance r = best) \/
       exists p d,
         In p (firstn (k - c) perms) /\ Live.path r = Some (close p) /\
         Live.calculatePathDistance Math_sqrt (close p) cities = Ok d /\
         Live.distance r = Num d) /\
      length (Live.reported r)
      = (length reported + (Nat.min k (c + length perms) - c))%nat.
Proof.
  intros Hv Hset. induction perms as [|perm perms IH];
    intros c best route reported Hck Hclear.
  - cbn [Live.live_for]. eexists. split; [reflexivity|]. cbn.
    rewrite firstn_nil.
    split; [lia|]. split; [reflexivity|].
    split; [apply le_number_refl|]. split; [intros p []|].
    split; [left; auto | lia].
  - cbn [Live.live_for].
    destruct (Nat.eq_dec c k) as [->|Hneq].
    + rewrite Hset, Nat.sub_diag. eexists. split; [reflexivity|]. cbn.
      split; [lia|]. split; [reflexivity|].
      split; [apply le_number_refl|]. split; [intros p []|].
      split; [left; auto | lia].
    + rewrite (Hclear c) by lia.
      destruct (Hv perm (or_introl eq_refl)) as [Hvp Hne].
      destruct (calculatePathDistance_valid (close perm)) as [d Hd].
      { unfold close. destruct perm; discriminate. }
      { now apply valid_route_close. }
      rewrite Hd. cbn [bind].
      change (env (S c) (token_after env token0 c))
        with (token_after env token0 (S c)).
      replace (k - c)%nat with (S (k - S c)) by lia. cbn [firstn].
      set (best' := if lt_number d best then Num d else best).
      set (route' := if lt_number d best then Some (close perm) else route).
      destruct (IH (fun p Hp => Hv p (or_intror Hp)) (S c) best' route'
                  (reported ++ [Live.mkProgress (S c) total d best']))
        as [r [Hr [Hk [Ht [Hle [Hall [Hsrc Hrep]]]]]]].
      * lia.
      * intros j Hj. apply Hclear. lia.
      * exists r. split; [exact Hr|].
        split; [rewrite Hk; cbn [length]; f_equal; lia|]. split; [exact Ht|].
        assert (Hbest' : le_number best' best /\ le_number best' (Num d)).
        { subst best'. destruct (lt_number d best) eqn:E.
          - split; [now apply lt_number_below | apply le_number_refl].
          - split; [apply le_number_refl | now apply lt_number_kept]. }
        destruct Hbest' as [Hb1 Hb2].
        split; [exact (le_number_trans _ _ _ Hle Hb1)|]. split; [|split].
        -- intros p [<-|Hp]; [|now apply Hall].
           exists d. split; [exact Hd | exact (le_number_trans _ _ _ Hle Hb2)].
        -- destruct Hsrc as [[Hp Hm]|[p [d' [Hp [Hpath [Hc Hm]]]]]].
           ++ subst best' route'. destruct (lt_number d best).
              ** right. exists perm, d. repeat split; auto. now left.
              ** left. auto.
           ++ right. exists p, d'. repeat split; auto. now right.
        -- rewrite Hrep, length_app. cbn [length]. lia.
Qed.
End LiveFacts.

(** C7, as amended.  When the controller is first found cancelled after
    the [k]-th permutation of a live search over one to nine cities, the
    promise resolves, it does not reject, with [permutationsChecked] the
    lesser of [k] and [totalPermutations = n!], hence less than the total
    when [k] is, that is when the token is set before the last
    permutation has been evaluated; with a best distance that no
    permutation evaluated before beats; and with one of those as best
    route, at its own distance, or else without a route and with best
    distance [Infinity], which with the coordinates in range happens only
    when nothing has been evaluated. *)
Theorem live_search_cancellation (Math_sqrt : Q -> Q) (cities : list City)
  (env : Live.Environment) (token : Live.Token) (k : nat) :
  (1 <= length cities <= 9)%nat ->
  (forall j, (j < k)%nat -> Live.cancelled (token_after env token j) = false) ->
  Live.cancelled (token_after env token k) = true ->
  exists r,
    Live.runBruteForceLive Math_sqrt cities env token = Ok r /\
    Live.permutationsChecked r = Nat.min k (factorial (length cities)) /\
    Live.totalPermutations r = factorial (length cities) /\
    ((k < factorial (length cities))%nat ->
     (Live.permutationsChecked r < Live.totalPermutations r)%nat) /\
    length (Live.reported r) = Live.permutationsChecked r /\
    (forall p,
       In p (firstn k (generatePermutations (allCities (length cities)))) ->
       exists d,
         Live.calculatePathDistance Math_sqrt (close p) cities = Ok d /\
         le_number (Live.distance r) (Num d)) /\
    ((Live.path r = None /\ Live.distance r = Infinity /\
      (coordinates_in_range cities -> k = 0%nat)) \/
     exists p d,
       In p (firstn k (generatePermutations (allCities (length cities)))) /\
       Live.path r = Some (close p) /\
       Live.calculatePathDistance Math_sqrt (close p) cities = Ok d /\
       Live.distance r = Num d).
Proof.
  intros [Hlo Hhi] Hclear Hset. unfold Live.runBruteForceLive.
  replace (9 <? length cities)%nat with false by (symmetry; apply Nat.ltb_ge; lia).
  destruct (live_for_cancelled Math_sqrt cities env (factorial (length cities))
              token k (generatePermutations (allCities (length cities))))
    with (c := 0%nat) (best := Infinity) (route := @None (list Z))
         (reported := @nil Live.Progress)
    as [r [Hr [Hchecked [Htotal [_ [Hall [Hsrc Hrep]]]]]]].
  - intros p Hp. apply generatePermutations_sound in Hp. split.
    + now apply open_tour_valid.
    + apply (open_tour_nonempty (length cities)); [lia | exact Hp].
  - exact Hset.
  - lia.
  - intros j Hj. apply Hclear. lia.
  - rewrite generatePermutations_allCities_length in Hchecked, Hrep.
    rewrite Nat.sub_0_r in *. cbn [token_after length Nat.add] in *.
    exists r. split; [exact Hr|]. split; [exact Hchecked|].
    split; [exact Htotal|]. split; [lia|]. split; [lia|].
    split; [exact Hall|].
    destruct Hsrc as [[Hp Hm]|Hsome]; [|now right].
    destruct k as [|k]; [left; auto|].
    exfalso.
    destruct (generatePermutations (allCities (length cities))) as [|p ps] eqn:E.
    + pose proof (generatePermutations_allCities_length (length cities)) as Hl.
      rewrite E in Hl. simpl in Hl.
      pose proof (factorial_fact (length cities)) as Hf.
      pose proof (lt_O_fact (length cities)). lia.
    + destruct (Hall p (or_introl eq_refl)) as [d [_ Hle]].
      rewrite Hm in Hle. exact Hle.
Qed.

Lemma live_search_cancellation_witness :
  (1 <= length square_cities <= 9)%nat /\
  Live.cancelled
    (token_after (cancel_after 5) (Some Live.createBruteForceController) 5)
  = true /\
  exists r,
    Live.runBruteForceLive Qsqrt square_cities (cancel_after 5)
      (Some Live.createBruteForceController) = Ok r /\
    Live.permutationsChecked r = 5%nat /\
    Live.totalPermutations r = 24%nat.
Proof.
  assert (Hn : (1 <= length square_cities <= 9)%nat) by (simpl; lia).
  assert (Hclear : forall j, (j < 5)%nat ->
            Live.cancelled
              (token_after (cancel_after 5)
                 (Some Live.createBruteForceController) j) = false).
  { intros j Hj.
    do 5 (destruct j as [|j]; [reflexivity|]). lia. }
  assert (Hset : Live.cancelled
            (token_after (cancel_after 5)
               (Some Live.createBruteForceController) 5) = true)
    by reflexivity.
  split; [exact Hn|]. split; [exact Hset|].
  destruct (live_search_cancellation Qsqrt square_cities (cancel_after 5)
              (Some Live.createBruteForceController) 5 Hn Hclear Hset)
    as [r [Hr [Hc [Ht _]]]].
  exists r. split; [exact Hr|]. split; [exact Hc | exact Ht].
Defined.

(** C7, as stated, fails when the controller is cancelled during the
    suspension that follows the last permutation: on two cities, with the
    pause pressed after the second of the two permutations, the run is
    still under way when the token is set, and it resolves with
    [permutationsChecked] equal to [totalPermutations]. *)
Lemma live_search_cancelled_after_last_permutation :
  Live.cancelled
    (token_after (cancel_after 2) (Some Live.createBruteForceController) 1)
  = false /\
  Live.cancelled
    (token_after (cancel_after 2) (Some Live.createBruteForceController) 2)
  = true /\
  exists r,
    Live.runBruteForceLive Qsqrt two_cities (cancel_after 2)
      (Some Live.createBruteForceController) = Ok r /\
    Live.permutationsChecked r = 2%nat /\
    Live.totalPermutations r = 2%nat /\
    ~ (Live.permutationsChecked r < Live.totalPermutations r)%nat.
Proof.
  split; [reflexivity|]. split; [reflexivity|].
  eexists. split; [vm_compute; reflexivity|].
  cbn. repeat split. lia.
Qed.

(** ** The brute-force step trace *)

Section BruteForceTraceFacts.
Variable Math_sqrt : Q -> Q.
Variable cities : list City.
Hypothesis two_cities_or_more : (2 <= length cities)%nat.

(** With sampling rate 1 the loop of the generator keeps the books of
    the loop of [bruteForceTSP]. *)
Lemma bruteForceSteps_for_every_permutation (total : nat) (perms : list Route) :
  (forall p, In p perms -> open_tour (length cities) p) ->
  forall st p0,
  bestPath st = Some p0 \/ bestPath st = None ->
  exists st' r,
    bruteForceSteps_for Math_sqrt cities 1 total perms st = Ok st' /\
    bruteForce_for Math_sqrt cities perms (bestDistance st) p0 = Ok r /\
    bestDistance st' = distance r /\
    (bestPath st' = Some (path r) \/
     (bestPath st = None /\ bestPath st' = None /\
      distance r = bestDistance st)).
Proof.
  induction perms as [|perm perms IH]; intros Hperms st p0 Hrel.
  - exists st, (mkPathResult p0 (bestDistance st)). cbn.
    split; [reflexivity|]. split; [reflexivity|]. split; [reflexivity|].
    destruct Hrel as [Hsome|Hnone]; [now left | right; auto].
  - pose proof (Hperms perm (or_introl eq_refl)) as Hp.
    assert (Hlen : (2 <= length perm)%nat)
      by (rewrite (open_tour_length _ _ Hp); lia).
    assert (Hopen : first_id perm <> last_id perm)
      by (apply NoDup_first_last; [apply (open_tour_NoDup _ _ Hp) | exact Hlen]).
    destruct (calculateTotalDistance_valid Math_sqrt cities perm
                (open_tour_valid _ _ Hp)) as [d Hd].
    pose proof (calculateTotalDistance_close Math_sqrt cities perm Hlen Hopen)
      as Hclose.
    cbn [bruteForceSteps_for bruteForce_for].
    rewrite Nat.mod_1_r. cbn [Nat.eqb].
    rewrite Hclose, Hd. cbn [bind].
    destruct (lt_number d (minus_number (bestDistance st) EPSILON)) eqn:E.
    + match goal with
      | |- exists _ _, bruteForceSteps_for _ _ _ _ _ ?s = _ /\ _ =>
          destruct (IH (fun p Hp' => Hperms p (or_intror Hp')) s (close perm))
            as [st' [r [Hrun [Hfor [Hbd Hbp]]]]]; [now left|]
      end.
      exists st', r. split; [exact Hrun|]. split; [exact Hfor|].
      split; [exact Hbd|].
      destruct Hbp as [Hsome|[Hnone _]]; [now left | discriminate].
    + match goal with
      | |- exists _ _, bruteForceSteps_for _ _ _ _ _ ?s = _ /\ _ =>
          destruct (IH (fun p Hp' => Hperms p (or_intror Hp')) s p0)
            as [st' [r [Hrun [Hfor [Hbd Hbp]]]]]; [exact Hrel|]
      end.
      exists st', r. split; [exact Hrun|]. split; [exact Hfor|].
      split; [exact Hbd | exact Hbp].
Qed.

(** Showing every permutation, the trace ends with the result of
    [bruteForceTSP]. *)
Lemma generateBruteForceSteps_every_permutation :
  (length cities <= 10)%nat ->
  exists bf earlier,
    bruteForceTSP Math_sqrt cities = Ok bf /\
    generateBruteForceSteps Math_sqrt cities 1
    = Ok (earlier ++
          [final_result_step (path bf) (distance bf) "bruteforce"]).
Proof.
  intro Hhi.
  destruct (bruteForceTSP_spec Math_sqrt cities) as [bf [p [d H]]]; [lia|].
  destruct H as [Hbf [Hp [Hpath [_ [Hdist _]]]]].
  pose proof Hbf as Hfor0. unfold bruteForceTSP in Hfor0.
  replace (length cities <? 2)%nat with false in Hfor0
    by (symmetry; apply Nat.ltb_ge; lia).
  replace (10 <? length cities)%nat with false in Hfor0
    by (symmetry; apply Nat.ltb_ge; lia).
  set (steps0 := [metadata_step "metadata_update"
                    [("globalMessage"%string,
                       VText ("Brute Force TSP - Checking "
                              ++ decimal (factorial (length cities))
                              ++ " permutations"))]]).
  destruct (bruteForceSteps_for_every_permutation
              (factorial (length cities))
              (generatePermutations (allCities (length cities))))
    with (st := mkBruteForceTrace Infinity None 0 0 steps0) (p0 := @nil Z)
    as [st' [r [Hrun [Hfor [Hbd Hbp]]]]].
  { intros q Hq. now apply generatePermutations_sound. }
  { now right. }
  cbn [bestDistance] in Hfor. rewrite Hfor0 in Hfor. injection Hfor as <-.
  destruct Hbp as [Hsome|[_ [_ Hinf]]];
    [|cbn [bestDistance] in Hinf; congruence].
  assert (Hne : p <> [])
    by (apply (open_tour_nonempty (length cities)); [lia | exact Hp]).
  exists bf. eexists. split; [exact Hbf|].
  unfold generateBruteForceSteps. cbv zeta. fold steps0.
  rewrite Hrun. cbn [bind].
  rewrite Hsome, Hbd, Hpath.
  rewrite last_id_close, first_id_close, Z.eqb_refl by exact Hne.
  cbn [negb]. reflexivity.
Qed.
End BruteForceTraceFacts.

(** C3.  The bookkeeping of [generateBruteForceSteps] runs only over the
    sampled permutations.  On four cities on a line, with every 24th
    permutation sampled, the trace ends with a route of length 8 where
    [bruteForceTSP] finds length 6; on two cities with every 3rd sampled,
    no permutation is looked at and reading the best path throws.  With
    sampling rate 1 the trace does end with the result of
    [bruteForceTSP]. *)
Theorem sampled_bookkeeping_skips_permutations :
  bruteForceTSP Qsqrt line_cities
  = Ok (mkPathResult [0; 1; 3; 2; 0]%Z (Num 6)) /\
  (exists steps,
     generateBruteForceSteps Qsqrt line_cities 24 = Ok steps /\
     last steps (metadata_step "" [])
     = final_result_step [3; 2; 1; 0; 3]%Z (Num 8) "bruteforce") /\
  generateBruteForceSteps Qsqrt two_cities 3 = Throw TypeError /\
  (exists earlier,
     generateBruteForceSteps Qsqrt line_cities 1
     = Ok (earlier ++
           [final_result_step [0; 1; 3; 2; 0]%Z (Num 6) "bruteforce"])).
Proof.
  assert (Hbf : bruteForceTSP Qsqrt line_cities
                = Ok (mkPathResult [0; 1; 3; 2; 0]%Z (Num 6)))
    by (vm_compute; reflexivity).
  split; [exact Hbf|]. split; [|split].
  - eexists. split; vm_compute; reflexivity.
  - vm_compute. reflexivity.
  - destruct (generateBruteForceSteps_every_permutation Qsqrt line_cities)
      as [bf [earlier [Hbf' Hsteps]]]; [simpl; lia | simpl; lia |].
    rewrite Hbf in Hbf'. injection Hbf' as <-.
    exists earlier. exact Hsteps.
Qed.

(** * Further properties of the code *)

(** ** Distances *)

Lemma Qsqrt_compat (p q : Q) : p == q -> Qsqrt p == Qsqrt q.
Proof. intro H. unfold Qsqrt. now rewrite (Qred_complete _ _ H). Qed.

(** X1.  [calculateDistance] does not depend on the order of its two
    cities, and is 0 from a city to itself, for a square root that
    respects equality of rationals and is 0 at 0. *)
Theorem calculateDistance_symmetric (Math_sqrt : Q -> Q) (a b : City) :
  (forall p q, p == q -> Math_sqrt p == Math_sqrt q) ->
  Math_sqrt 0 == 0 ->
  calculateDistance Math_sqrt a b == calculateDistance Math_sqrt b a /\
  calculateDistance Math_sqrt a a == 0.
Proof.
  intros Hc H0. unfold calculateDistance. split.
  - apply Hc. ring.
  - rewrite <- H0. apply Hc. ring.
Qed.

Lemma calculateDistance_symmetric_witness :
  (forall p q, p == q -> Qsqrt p == Qsqrt q) /\
  Qsqrt 0 == 0 /\
  calculateDistance Qsqrt (city 0 0 0) (city 1 3 4)
  == calculateDistance Qsqrt (city 1 3 4) (city 0 0 0) /\
  calculateDistance Qsqrt (city 0 0 0) (city 0 0 0) == 0.
Proof.
  assert (H0 : Qsqrt 0 == 0) by reflexivity.
  split; [exact Qsqrt_compat|]. split; [exact H0|].
  exact (calculateDistance_symmetric Qsqrt (city 0 0 0) (city 1 3 4)
           Qsqrt_compat H0).
Defined.

(** ** The segment reversal *)

Lemma firstn_length_app {A : Type} (l l' : list A) :
  firstn (length l) (l ++ l') = l.
Proof. induction l as [|a l IH]; simpl; [now destruct l' | now rewrite IH]. Qed.

Lemma skipn_length_app {A : Type} (l l' : list A) :
  skipn (length l) (l ++ l') = l'.
Proof. induction l as [|a l IH]; simpl; [reflexivity | exact IH]. Qed.

(** The three parts [perform2OptSwap] cuts a route into. *)
Lemma route_three_parts (r : Route) (i k : nat) :
  (i <= k)%nat -> (k < length r)%nat ->
  r = firstn i r ++ skipn i (firstn (k + 1) r) ++ skipn (k + 1) r /\
  length (firstn i r) = i /\
  length (skipn i (firstn (k + 1) r)) = (k + 1 - i)%nat.
Proof.
  intros Hik Hk. split; [|split].
  - pose proof (firstn_skipn (k + 1) r) as H1.
    pose proof (firstn_skipn i (firstn (k + 1) r)) as H2.
    rewrite firstn_firstn in H2.
    replace (Nat.min i (k + 1)) with i in H2 by lia.
    now rewrite app_assoc, H2, H1.
  - rewrite length_firstn. lia.
  - rewrite length_skipn, length_firstn. lia.
Qed.

Lemma perform2OptSwap_parts (A_ M E : Route) (i k : nat) :
  length A_ = i -> length M = (k + 1 - i)%nat -> (i <= k)%nat ->
  perform2OptSwap (A_ ++ M ++ E) i k = A_ ++ rev M ++ E.
Proof.
  intros HA HM Hik. unfold perform2OptSwap.
  assert (H1 : firstn i (A_ ++ M ++ E) = A_)
    by (rewrite <- HA; apply firstn_length_app).
  assert (H2 : firstn (k + 1) (A_ ++ M ++ E) = A_ ++ M).
  { rewrite app_assoc. replace (k + 1)%nat with (length (A_ ++ M))
      by (rewrite length_app; lia). apply firstn_length_app. }
  assert (H3 : skipn (k + 1) (A_ ++ M ++ E) = E).
  { rewrite app_assoc. replace (k + 1)%nat with (length (A_ ++ M))
      by (rewrite length_app; lia). apply skipn_length_app. }
  rewrite H1, H2, H3. rewrite <- HA, skipn_length_app. reflexivity.
Qed.

(** X2.  [perform2OptSwap(route, i, k)], for [i <= k] inside the route,
    reverses the segment from [i] to [k]: the id at a position [j] of the
    segment is the id that the route has at [i + k - j], and the ids at
    the positions outside the segment stay where they are.  It keeps the
    length and the ids of the route, leaves the part before [i] and the
    part after [k] in place, and undoes itself when applied twice. *)
Theorem perform2OptSwap_reverses_segment (r : Route) (i k : nat) :
  (i <= k)%nat -> (k < length r)%nat ->
  (forall j, (i <= j <= k)%nat ->
     nth j (perform2OptSwap r i k) (-1)%Z = nth (i + k - j) r (-1)%Z) /\
  (forall j, (j < i \/ k < j)%nat ->
     nth j (perform2OptSwap r i k) (-1)%Z = nth j r (-1)%Z) /\
  perform2OptSwap (perform2OptSwap r i k) i k = r /\
  length (perform2OptSwap r i k) = length r /\
  Permutation (perform2OptSwap r i k) r /\
  firstn i (perform2OptSwap r i k) = firstn i r /\
  skipn (k + 1) (perform2OptSwap r i k) = skipn (k + 1) r.
Proof.
  intros Hik Hk.
  destruct (route_three_parts r i k Hik Hk) as [Hr [HA HM]].
  remember (firstn i r) as A_ eqn:EA.
  remember (skipn i (firstn (k + 1) r)) as M eqn:EM.
  remember (skipn (k + 1) r) as E eqn:EE.
  clear EA EM EE Hk. subst r.
  rewrite (perform2OptSwap_parts A_ M E i k HA HM Hik).
  split; [|split; [|split; [|split; [|split; [|split]]]]].
  - intros j Hj.
    rewrite (app_nth2 A_ (rev M ++ E)) by lia.
    rewrite (app_nth2 A_ (M ++ E)) by lia.
    rewrite app_nth1 by (rewrite length_rev; lia).
    rewrite app_nth1 by lia.
    rewrite rev_nth by lia. f_equal. lia.
  - intros j [Hj|Hj].
    + rewrite !app_nth1 by lia. reflexivity.
    + rewrite (app_nth2 A_ (rev M ++ E)) by lia.
      rewrite (app_nth2 A_ (M ++ E)) by lia.
      rewrite (app_nth2 (rev M) E) by (rewrite length_rev; lia).
      rewrite (app_nth2 M E) by lia.
      now rewrite length_rev.
  - rewrite perform2OptSwap_parts by (rewrite ?length_rev; auto).
    now rewrite rev_involutive.
  - rewrite !length_app, length_rev. reflexivity.
  - apply Permutation_app_head, Permutation_app_tail.
    symmetry. apply Permutation_rev.
  - rewrite <- HA. apply firstn_length_app.
  - rewrite app_assoc.
    replace (k + 1)%nat with (length (A_ ++ rev M))
      by (rewrite length_app, length_rev; lia).
    apply skipn_length_app.
Qed.

Lemma perform2OptSwap_reverses_segment_witness :
  (1 <= 4)%nat /\ (4 < length [0; 4; 1; 2; 3; 5]%Z)%nat /\
  perform2OptSwap [0; 4; 1; 2; 3; 5]%Z 1 4 = [0; 3; 2; 1; 4; 5]%Z /\
  nth 2 (perform2OptSwap [0; 4; 1; 2; 3; 5]%Z 1 4) (-1)%Z
  = nth 3 [0; 4; 1; 2; 3; 5]%Z (-1)%Z /\
  nth 5 (perform2OptSwap [0; 4; 1; 2; 3; 5]%Z 1 4) (-1)%Z
  = nth 5 [0; 4; 1; 2; 3; 5]%Z (-1)%Z /\
  perform2OptSwap (perform2OptSwap [0; 4; 1; 2; 3; 5]%Z 1 4) 1 4
  = [0; 4; 1; 2; 3; 5]%Z.
Proof.
  assert (H1 : (1 <= 4)%nat) by lia.
  assert (H2 : (4 < length [0; 4; 1; 2; 3; 5]%Z)%nat) by (simpl; lia).
  split; [exact H1|]. split; [exact H2|]. split; [reflexivity|].
  destruct (perform2OptSwap_reverses_segment [0; 4; 1; 2; 3; 5]%Z 1 4 H1 H2)
    as [Hrev [Hout [Hinv _]]].
  split; [exact (Hrev 2%nat ltac:(lia))|].
  split; [exact (Hout 5%nat ltac:(lia))|].
  exact Hinv.
Defined.

(** ** The permutation generator, without repetition *)

Lemma NoDup_flat_map {A B : Type} (f : A -> list B) (l : list A) :
  NoDup l ->
  (forall x, In x l -> NoDup (f x)) ->
  (forall x y b, In x l -> In y l -> In b (f x) -> In b (f y) -> x = y) ->
  NoDup (flat_map f l).
Proof.
  induction l as [|a l IH]; intros Hnd Hf Hdis; [constructor|].
  inversion Hnd as [|? ? Hnotin Hnd']; subst.
  cbn [flat_map]. apply NoDup_app.
  - apply Hf. now left.
  - apply IH; [exact Hnd' | intros x Hx; apply Hf; now right |].
    intros x y b Hx Hy. apply Hdis; now right.
  - intros b Hb Hb'. apply in_flat_map in Hb'. destruct Hb' as [y [Hy Hby]].
    assert (a = y) by (apply (Hdis a y b); auto; [now left | now right]).
    subst. contradiction.
Qed.

Lemma generatePermutations_rec_NoDup {A : Type} (d : nat) :
  forall l : list A, NoDup l -> NoDup (generatePermutations_rec d l).
Proof.
  induction d as [|d IH]; intros l Hnd.
  - simpl. repeat constructor. intros [].
  - simpl. destruct (length l <=? 1)%nat; [repeat constructor; intros []|].
    apply NoDup_flat_map.
    + apply seq_NoDup.
    + intros i Hi. destruct (nth_error l i) as [a|] eqn:Ea; [|constructor].
      apply Injective_map_NoDup; [intros p q H; now injection H|].
      apply IH.
      pose proof (without_Permutation i l a Ea) as Hp.
      apply (Permutation_NoDup Hp) in Hnd. now inversion Hnd.
    + intros i j p Hi Hj Hpi Hpj.
      destruct (nth_error l i) as [a|] eqn:Ea; [|contradiction].
      destruct (nth_error l j) as [b|] eqn:Eb; [|contradiction].
      apply in_map_iff in Hpi. destruct Hpi as [pi [<- _]].
      apply in_map_iff in Hpj. destruct Hpj as [pj [Heq _]].
      injection Heq as Hba _. subst b.
      apply (proj1 (NoDup_nth_error l) Hnd i j);
        [apply nth_error_Some; congruence | congruence].
Qed.

(** X3.  Over the ids [0 .. n-1], [generatePermutations] yields the tours
    of the [n] cities and nothing else, each of them once, and
    [factorial(n)] is how many it yields. *)
Theorem generatePermutations_enumerates_tours (n : nat) :
  (forall p, In p (generatePermutations (allCities n)) <-> open_tour n p) /\
  NoDup (generatePermutations (allCities n)) /\
  length (generatePermutations (allCities n)) = factorial n.
Proof.
  split; [|split].
  - intro p. split.
    + apply generatePermutations_sound.
    + apply generatePermutations_complete.
  - apply generatePermutations_rec_NoDup, allCities_NoDup.
  - apply generatePermutations_allCities_length.
Qed.

(** ** What the three algorithms return *)



Lemma seq_split_order (l1 l2 : list nat) (jc : nat) :
  forall s n,
    seq s n = l1 ++ jc :: l2 ->
    (forall j, In j l1 -> (j < jc)%nat) /\ (forall j, In j l2 -> (jc < j)%nat).
Proof.
  induction l1 as [|a l1 IH]; intros s n H.
  - destruct n as [|n]; [discriminate|]. simpl in H. injection H as <- <-.
    split; [intros j []|]. intros j Hj. apply in_seq in Hj. lia.
  - destruct n as [|n]; [discriminate|]. simpl in H. injection H as <- H.
    destruct (IH _ _ H) as [H1 H2]. split; [|exact H2].
    intros j [<-|Hj]; [|now apply H1].
    assert (Hin : In jc (seq (S s) n))
      by (rewrite H; apply in_or_app; right; now left).
    apply in_seq in Hin. lia.
Qed.

Section NearestNeighbour.
Variable Math_sqrt : Q -> Q.
Variable cities : list City.

(** What the scan for the nearest unvisited city returns: the pair it
    started from, every unvisited city it looked at being no nearer; or
    an unvisited city strictly nearer than all those before it in the
    scan and no farther than those after it. *)
Lemma nearest_scan_first_least (visited : list bool) (cur : Z) (js : list nat) :
  forall nc nd c d,
    nearest_scan Math_sqrt cities visited cur js nc nd = Ok (c, d) ->
    ((c, d) = (nc, nd) /\
     forall j, In j js -> is_visited visited j = false ->
       exists dj, distance_between Math_sqrt cities cur (Z.of_nat j) = Ok dj /\
                  le_number nd (Num dj)) \/
    (exists l1 jc l2 q,
       js = l1 ++ jc :: l2 /\ is_visited visited jc = false /\
       c = Z.of_nat jc /\ d = Num q /\
       distance_between Math_sqrt cities cur (Z.of_nat jc) = Ok q /\
       lt_number q nd = true /\
       (forall j, In j l1 -> is_visited visited j = false ->
          exists dj, distance_between Math_sqrt cities cur (Z.of_nat j) = Ok dj /\
                     q < dj) /\
       (forall j, In j l2 -> is_visited visited j = false ->
          exists dj, distance_between Math_sqrt cities cur (Z.of_nat j) = Ok dj /\
                     q <= dj)).
Proof.
  induction js as [|j js IH]; intros nc nd c d H.
  - simpl in H. injection H as <- <-. left. split; [reflexivity|]. intros j [].
  - cbn [nearest_scan] in H.
    destruct (is_visited visited j) eqn:Ev; cbn [negb] in H.
    + destruct (IH _ _ _ _ H) as [[Heq Hall]|Hex].
      * left. split; [exact Heq|].
        intros j' [<-|Hj'] Hv; [congruence | now apply Hall].
      * destruct Hex as [l1 [jc [l2 [q [Hjs [Hvc [Hc [Hd [Hq [Hlt [H1 H2]]]]]]]]]]].
        right. exists (j :: l1), jc, l2, q.
        split; [now rewrite Hjs|]. split; [exact Hvc|]. split; [exact Hc|].
        split; [exact Hd|]. split; [exact Hq|]. split; [exact Hlt|].
        split; [|exact H2].
        intros j' [<-|Hj'] Hv; [congruence | now apply H1].
    + destruct (distance_between Math_sqrt cities cur (Z.of_nat j)) as [dj|] eqn:Ed;
        [|discriminate].
      cbn [bind] in H. destruct (lt_number dj nd) eqn:El.
      * destruct (IH _ _ _ _ H) as [[Heq Hall]|Hex].
        -- injection Heq as -> ->.
           right. exists [], j, js, dj.
           split; [reflexivity|]. split; [exact Ev|]. split; [reflexivity|].
           split; [reflexivity|]. split; [exact Ed|]. split; [exact El|].
           split; [intros j' []|].
           intros j' Hj' Hv. destruct (Hall j' Hj' Hv) as [dj' [Hd' Hle]].
           exists dj'. split; [exact Hd' | exact Hle].
        -- destruct Hex as [l1 [jc [l2 [q [Hjs [Hvc [Hc [Hd [Hq [Hlt [H1 H2]]]]]]]]]]].
           simpl in Hlt. apply Qltb_lt in Hlt.
           right. exists (j :: l1), jc, l2, q.
           split; [now rewrite Hjs|]. split; [exact Hvc|]. split; [exact Hc|].
           split; [exact Hd|]. split; [exact Hq|].
           split; [|split; [|exact H2]].
           ++ destruct nd as [m|]; [|reflexivity]. simpl in El |- *.
              apply Qltb_lt in El. apply Qltb_lt. lra.
           ++ intros j' [<-|Hj'] Hv; [|now apply H1].
              exists dj. split; [exact Ed | exact Hlt].
      * destruct nd as [m|]; [|discriminate]. simpl in El. apply Qltb_ge in El.
        destruct (IH _ _ _ _ H) as [[Heq Hall]|Hex].
        -- left. split; [exact Heq|].
           intros j' [<-|Hj'] Hv; [|now apply Hall].
           exists dj. split; [exact Ed | exact El].
        -- destruct Hex as [l1 [jc [l2 [q [Hjs [Hvc [Hc [Hd [Hq [Hlt [H1 H2]]]]]]]]]]].
           right. exists (j :: l1), jc, l2, q.
           split; [now rewrite Hjs|]. split; [exact Hvc|]. split; [exact Hc|].
           split; [exact Hd|]. split; [exact Hq|]. split; [exact Hlt|].
           split; [|exact H2].
           intros j' [<-|Hj'] Hv; [|now apply H1].
           exists dj. split; [exact Ed|].
           simpl in Hlt. apply Qltb_lt in Hlt. lra.
Qed.

(** The city a round of [greedyTSP] moves to is a nearest unvisited one,
    the first of them in the order of the ids. *)
Lemma greedy_round_nearest (visited : list bool) (path_ : Route) (cur c : Z)
  (d : number) :
  greedy_inv cities visited path_ cur ->
  (length path_ < length cities)%nat ->
  nearest_scan Math_sqrt cities visited cur (seq 0 (length cities))
    (-1)%Z Infinity = Ok (c, d) ->
  exists q,
    distance_between Math_sqrt cities cur c = Ok q /\
    forall j, (0 <= j < Z.of_nat (length cities))%Z -> ~ In j path_ ->
      exists dj, distance_between Math_sqrt cities cur j = Ok dj /\
                 q <= dj /\ ((j < c)%Z -> q < dj).
Proof.
  intros Hinv Hlen Hscan.
  assert (Hunv : forall j, (j < length cities)%nat ->
            (is_visited visited j = false <-> ~ In (Z.of_nat j) path_)).
  { intros j Hj. rewrite <- (inv_visited _ _ _ _ Hinv j Hj).
    destruct (is_visited visited j); split; congruence. }
  destruct (nearest_scan_first_least _ _ _ _ _ _ _ Hscan) as [[Heq Hall]|Hex].
  - exfalso.
    destruct (unvisited_exists cities path_ (inv_NoDup _ _ _ _ Hinv) Hlen)
      as [u [Hu Hout]].
    destruct (Hall u) as [du [_ Hle]];
      [apply in_seq; lia | now apply Hunv | exact Hle].
  - destruct Hex as [l1 [jc [l2 [q [Hjs [Hvc [Hc [Hd [Hq [_ [H1 H2]]]]]]]]]]].
    destruct (seq_split_order _ _ _ _ _ Hjs) as [Hb Ha].
    subst c. exists q. split; [exact Hq|].
    intros j Hj Hout.
    assert (Hjn : In (Z.to_nat j) (seq 0 (length cities))) by (apply in_seq; lia).
    assert (Hjv : is_visited visited (Z.to_nat j) = false)
      by (apply Hunv; [lia | now rewrite Z2Nat.id by lia]).
    rewrite Hjs in Hjn. apply in_app_or in Hjn.
    destruct Hjn as [Hin|[Heq|Hin]].
    + destruct (H1 _ Hin Hjv) as [dj [Hdj Hlt]].
      rewrite Z2Nat.id in Hdj by lia. exists dj. repeat split; auto.
      now apply Qlt_le_weak.
    + assert (j = Z.of_nat jc) by lia. subst j.
      exists q. repeat split; [exact Hq | apply Qle_refl | lia].
    + destruct (H2 _ Hin Hjv) as [dj [Hdj Hle]].
      rewrite Z2Nat.id in Hdj by lia. exists dj. repeat split; auto.
      specialize (Ha _ Hin). lia.
Qed.

Lemma greedy_for_walk (rounds : nat) :
  forall visited path_ cur,
    greedy_inv cities visited path_ cur ->
    (length path_ + rounds = length cities)%nat ->
    exists suffix,
      greedy_for Math_sqrt rounds cities visited path_ cur
      = Ok (path_ ++ suffix) /\
      nearest_neighbour_walk Math_sqrt cities path_ cur suffix.
Proof.
  induction rounds as [|rounds IH]; intros visited path_ cur Hinv Hlen.
  - exists []. rewrite app_nil_r. simpl. auto.
  - cbn [greedy_for].
    destruct (greedy_round Math_sqrt cities visited path_ cur Hinv)
      as [c [d [Hscan [_ Hinv']]]]; [lia|].
    destruct (greedy_round_nearest _ _ _ _ _ Hinv ltac:(lia) Hscan) as [q Hq].
    rewrite Hscan. cbn [bind fst].
    destruct (IH _ _ _ Hinv') as [suffix [Hrun Hwalk]];
      [rewrite length_app; simpl; lia|].
    exists (c :: suffix). split; [now rewrite Hrun, <- app_assoc|].
    cbn [nearest_neighbour_walk]. split; [exists q; exact Hq | exact Hwalk].
Qed.
End NearestNeighbour.

(** X5.  [greedyTSP] on two cities or more with their coordinates in
    range returns a closed tour that
    starts and ends at city 0, with its length, and that is a
    nearest-neighbour walk: each city it moves to is at the least distance
    from the current one among the cities not yet visited, and has the
    lowest id among those at that distance. *)
Theorem greedyTSP_nearest_neighbour_tour (Math_sqrt : Q -> Q)
  (cities : list City) :
  (2 <= length cities)%nat ->
  coordinates_in_range cities ->
  exists g rest d,
    greedyTSP Math_sqrt cities = Ok g /\
    path g = [0%Z] ++ rest ++ [0%Z] /\
    open_tour (length cities) ([0%Z] ++ rest) /\
    distance g = Num d /\
    calculateTotalDistance Math_sqrt (Some (path g)) cities = Ok d /\
    nearest_neighbour_walk Math_sqrt cities [0%Z] 0%Z rest.
Proof.
  intros Hn _.
  destruct (greedyTSP_spec Math_sqrt cities Hn) as [g [p [d H]]].
  destruct H as [Hg [Hfor [Hp [Hfirst [Hpath [Hdist Hc]]]]]].
  destruct (greedy_for_walk Math_sqrt cities (length cities - 1)
              (mark_visited (repeat false (length cities)) 0%Z) [0%Z] 0%Z)
    as [rest [Hrun Hwalk]];
    [apply greedy_inv_start; lia | simpl; lia |].
  rewrite Hfor in Hrun. injection Hrun as ->.
  exists g, rest, d. rewrite Hpath. repeat split; auto.
Qed.

Lemma greedyTSP_nearest_neighbour_tour_witness :
  (2 <= length square_cities)%nat /\
  coordinates_in_range square_cities /\
  exists g rest d,
    greedyTSP Qsqrt square_cities = Ok g /\
    path g = [0%Z] ++ rest ++ [0%Z] /\
    open_tour (length square_cities) ([0%Z] ++ rest) /\
    distance g = Num d /\
    calculateTotalDistance Qsqrt (Some (path g)) square_cities = Ok d /\
    nearest_neighbour_walk Qsqrt square_cities [0%Z] 0%Z rest.
Proof.
  assert (H : (2 <= length square_cities)%nat) by (simpl; lia).
  split; [exact H|]. split; [exact square_cities_in_range|].
  exact (greedyTSP_nearest_neighbour_tour Qsqrt square_cities H
           square_cities_in_range).
Defined.



Section TwoOptLocalOptimum.
Variable Math_sqrt : Q -> Q.
Variable cities : list City.



End TwoOptLocalOptimum.



(** ** The 2-opt step trace *)

Lemma count_two_opt_steps_app (type : string) (s1 s2 : list TwoOptStep.t) :
  count_two_opt_steps type (s1 ++ s2)
  = (count_two_opt_steps type s1 + count_two_opt_steps type s2)%nat.
Proof. unfold count_two_opt_steps. now rewrite filter_app, length_app. Qed.

Section TwoOptTraceFacts.
Variable Math_sqrt : Q -> Q.
Variable cities : list City.

(** The inner loop of the generator takes the decisions of the inner loop
    of [twoOpt], and pushes a [swap] step exactly when a candidate is
    accepted. *)
Lemma twoOptSteps_for_k_eq (route : Route) (best : Q) (i : nat) (ks : list nat) :
  forall steps,
    match twoOpt_for_k Math_sqrt cities route best i ks with
    | Throw e =>
        twoOptSteps_for_k Math_sqrt cities route best i ks steps = Throw e
    | Ok found =>
        exists new,
          twoOptSteps_for_k Math_sqrt cities route best i ks steps
          = Ok (steps ++ new, found) /\
          count_two_opt_steps "swap" new
          = match found with Some _ => 1%nat | None => 0%nat end /\
          count_two_opt_steps "final" new = 0%nat
    end.
Proof.
  induction ks as [|k ks IH]; intro steps.
  - simpl. exists []. now rewrite app_nil_r.
  - cbn [twoOpt_for_k twoOptSteps_for_k].
    destruct (calculateTotalDistance Math_sqrt
                (Some (perform2OptSwap route i k)) cities) as [d|e];
      [|reflexivity].
    cbn [bind]. destruct (Qltb d (best - EPSILON)).
    + eexists. rewrite <- app_assoc. split; [reflexivity|]. split; reflexivity.
    + specialize (IH (steps ++
                      [TwoOptStep.mk "compare" (close route) best (Some (i, k))])).
      destruct (twoOpt_for_k Math_sqrt cities route best i ks) as [found|e];
        [|exact IH].
      destruct IH as [new [Hrun [Hswap Hfinal]]].
      eexists. rewrite Hrun, <- app_assoc. split; [reflexivity|].
      rewrite !count_two_opt_steps_app, Hswap, Hfinal. split; reflexivity.
Qed.

Lemma twoOptSteps_for_i_eq (route : Route) (best : Q) (n : nat) (is_ : list nat) :
  forall steps,
    match twoOpt_for_i Math_sqrt cities route best n is_ with
    | Throw e =>
        twoOptSteps_for_i Math_sqrt cities route best n is_ steps = Throw e
    | Ok found =>
        exists new,
          twoOptSteps_for_i Math_sqrt cities route best n is_ steps
          = Ok (steps ++ new, found) /\
          count_two_opt_steps "swap" new
          = match found with Some _ => 1%nat | None => 0%nat end /\
          count_two_opt_steps "final" new = 0%nat
    end.
Proof.
  induction is_ as [|i is_ IH]; intro steps.
  - simpl. exists []. now rewrite app_nil_r.
  - cbn [twoOpt_for_i twoOptSteps_for_i].
    pose proof (twoOptSteps_for_k_eq route best i
                  (seq (i + 1) (n - (i + 1))) steps) as Hk.
    destruct (twoOpt_for_k Math_sqrt cities route best i
                (seq (i + 1) (n - (i + 1)))) as [found|e];
      [|rewrite Hk; reflexivity].
    destruct Hk as [new [Hrun [Hswap Hfinal]]]. rewrite Hrun. cbn [bind].
    destruct found as [swap|].
    + exists new. auto.
    + specialize (IH (steps ++ new)).
      destruct (twoOpt_for_i Math_sqrt cities route best n is_) as [found|e];
        [|exact IH].
      destruct IH as [new' [Hrun' [Hswap' Hfinal']]].
      exists (new ++ new'). rewrite Hrun', <- app_assoc. split; [reflexivity|].
      rewrite !count_two_opt_steps_app, Hswap, Hswap', Hfinal, Hfinal'.
      split; reflexivity.
Qed.

Lemma twoOptSteps_while_eq (n : nat) (fuel : nat) :
  forall route best its steps,
    match twoOpt_while Math_sqrt fuel cities n route best its with
    | None =>
        twoOptSteps_while Math_sqrt fuel cities n route best steps = None
    | Some (Throw e) =>
        twoOptSteps_while Math_sqrt fuel cities n route best steps
        = Some (Throw e)
    | Some (Ok (route', best', its')) =>
        exists new,
          twoOptSteps_while Math_sqrt fuel cities n route best steps
          = Some (Ok (steps ++ new, route', best')) /\
          (count_two_opt_steps "swap" new + its = its')%nat /\
          count_two_opt_steps "final" new = 0%nat
    end.
Proof.
  induction fuel as [|fuel IH]; intros route best its steps; [reflexivity|].
  cbn [twoOpt_while twoOptSteps_while]. unfold twoOpt_pass.
  pose proof (twoOptSteps_for_i_eq route best n (seq 1 (n - 2)) steps) as Hi.
  destruct (twoOpt_for_i Math_sqrt cities route best n (seq 1 (n - 2)))
    as [[[nr nd]|]|e].
  - destruct Hi as [new [Hrun [Hswap Hfinal]]]. rewrite Hrun.
    specialize (IH nr nd (S its) (steps ++ new)).
    destruct (twoOpt_while Math_sqrt fuel cities n nr nd (S its))
      as [[[[route' best'] its']|e]|]; try exact IH.
    destruct IH as [new' [Hrun' [Hswap' Hfinal']]].
    exists (new ++ new'). rewrite Hrun', <- app_assoc. split; [reflexivity|].
    rewrite !count_two_opt_steps_app, Hfinal, Hfinal', Hswap. split; lia.
  - destruct Hi as [new [Hrun [Hswap Hfinal]]]. rewrite Hrun.
    exists new. rewrite Hswap. auto.
  - rewrite Hi. reflexivity.
Qed.
End TwoOptTraceFacts.

(** X7.  The 2-opt trace follows [twoOpt].  From a tour of two cities or
    more with their coordinates in range, where the call of [greedyTSP]
    that opens the generator returns,
    [generateTwoOptSteps] returns a trace whose last step is the
    [final] step with the closed route and the distance that [twoOpt]
    returns from the same tour, the only [final] step of the trace, and
    which holds as many [swap] steps as [twoOpt] counts iterations.
    Without an initial route it starts from the path of [greedyTSP]. *)
Theorem generateTwoOptSteps_follows_twoOpt (Math_sqrt : Q -> Q)
  (cities : list City) (initialRoute : Route) (fuel : nat) (r : RouteResult) :
  (2 <= length cities)%nat ->
  coordinates_in_range cities ->
  tour (length cities) initialRoute ->
  (1 <= fuel)%nat ->
  twoOpt Math_sqrt fuel cities (Some initialRoute) = Some (Ok r) ->
  (exists earlier,
     generateTwoOptSteps Math_sqrt fuel cities (Some initialRoute)
     = Some (Ok (earlier ++
                 [TwoOptStep.mk "final" (route r) (route_distance r) None])) /\
     count_two_opt_steps "swap" earlier = iterations r /\
     count_two_opt_steps "final" earlier = 0%nat) /\
  (forall g,
     greedyTSP Math_sqrt cities = Ok g ->
     generateTwoOptSteps Math_sqrt fuel cities None
     = generateTwoOptSteps Math_sqrt fuel cities (Some (path g))).
Proof.
  intros Hn _ Ht Hfuel H. split.
  - destruct (baseRoute_of_tour cities Hn _ Ht) as [Hbase Hlen2].
    destruct (greedyTSP_spec Math_sqrt cities Hn) as [g [pg [dg Hg]]].
    destruct Hg as [Hg _].
    unfold twoOpt in H. unfold generateTwoOptSteps. rewrite Hg.
    replace (length cities <? 2)%nat with false in *
      by (symmetry; apply Nat.ltb_ge; lia).
    replace (length initialRoute <? 2)%nat with false in H
      by (symmetry; apply Nat.ltb_ge; lia).
    replace (1 <? length initialRoute)%nat with true
      by (symmetry; apply Nat.ltb_lt; lia).
    cbv zeta. set (base := baseRoute_of initialRoute) in *.
    pose proof (open_tour_length _ _ Hbase) as Hlen.
    pose proof (open_tour_NoDup _ _ Hbase) as Hnd.
    destruct (length base <? 3)%nat eqn:E3.
    + apply Nat.ltb_lt in E3.
      rewrite calculateTotalDistance_close in H;
        [|lia | apply NoDup_first_last; [exact Hnd | lia]].
      destruct (calculateTotalDistance Math_sqrt (Some base) cities)
        as [d|]; [|discriminate].
      cbn [bind] in H. injection H as <-. cbn [route route_distance iterations].
      destruct fuel as [|fuel]; [lia|].
      cbn [twoOptSteps_while].
      replace (length base - 2)%nat with 0%nat by lia.
      cbn [seq twoOptSteps_for_i]. exists []. auto.
    + destruct (calculateTotalDistance Math_sqrt (Some base) cities)
        as [start|]; [|discriminate].
      pose proof (twoOptSteps_while_eq Math_sqrt cities (length base) fuel
                    base start 0 []) as Hw.
      destruct (twoOpt_while Math_sqrt fuel cities (length base) base start 0)
        as [[[[t best] its]|]|]; try discriminate.
      injection H as <-. cbn [route route_distance iterations].
      destruct Hw as [new [Hrun [Hswap Hfinal]]]. rewrite Hrun.
      exists new. cbn [app]. split; [reflexivity|]. split; [lia | exact Hfinal].
  - intros g Hg. unfold generateTwoOptSteps. rewrite Hg.
    destruct (1 <? length (path g))%nat; reflexivity.
Qed.

Lemma generateTwoOptSteps_follows_twoOpt_witness :
  (2 <= length square_cities)%nat /\
  coordinates_in_range square_cities /\
  tour (length square_cities) [0; 2; 1; 3; 0]%Z /\
  (1 <= 2)%nat /\
  twoOpt Qsqrt 2 square_cities (Some [0; 2; 1; 3; 0]%Z)
  = Some (Ok (mkRouteResult [0; 1; 2; 3; 0]%Z 40 1)) /\
  exists earlier,
    generateTwoOptSteps Qsqrt 2 square_cities (Some [0; 2; 1; 3; 0]%Z)
    = Some (Ok (earlier ++
                [TwoOptStep.mk "final" [0; 1; 2; 3; 0]%Z 40 None])) /\
    count_two_opt_steps "swap" earlier = 1%nat.
Proof.
  assert (H1 : (2 <= length square_cities)%nat) by (simpl; lia).
  assert (H2 : tour (length square_cities) [0; 2; 1; 3; 0]%Z).
  { right. exists [0; 2; 1; 3]%Z. split; [|reflexivity].
    unfold open_tour. simpl. apply perm_skip. apply perm_swap. }
  assert (H3 : (1 <= 2)%nat) by lia.
  assert (H4 : twoOpt Qsqrt 2 square_cities (Some [0; 2; 1; 3; 0]%Z)
               = Some (Ok (mkRouteResult [0; 1; 2; 3; 0]%Z 40 1)))
    by (vm_compute; reflexivity).
  split; [exact H1|]. split; [exact square_cities_in_range|].
  split; [exact H2|]. split; [exact H3|].
  split; [exact H4|].
  destruct (generateTwoOptSteps_follows_twoOpt Qsqrt square_cities
              [0; 2; 1; 3; 0]%Z 2 _ H1 square_cities_in_range H2 H3 H4)
    as [[earlier [Hrun [Hswap _]]] _].
  exists earlier. split; [exact Hrun | exact Hswap].
Defined.

(** ** Sampling in the brute-force step trace *)

Lemma count_steps_app (type : string) (s1 s2 : list Step) :
  count_steps type (s1 ++ s2)
  = (count_steps type s1 + count_steps type s2)%nat.
Proof. unfold count_steps. now rewrite filter_app, length_app. Qed.

(** Counting the multiples of [r] one number further. *)
Lemma div_step (c r : nat) :
  (S c / r = c / r + (if (S c mod r =? 0)%nat then 1 else 0))%nat.
Proof.
  destruct r as [|r]; [reflexivity|].
  pose proof (Nat.div_mod_eq c (S r)) as Hc.
  pose proof (Nat.mod_upper_bound c (S r) ltac:(lia)) as Hm.
  destruct (Nat.eq_dec (S (c mod S r)) (S r)) as [E|E].
  - assert (Hq : (S c / S r = c / S r + 1)%nat).
    { symmetry. apply (Nat.div_unique _ _ _ 0%nat); nia. }
    assert (Hr : (S c mod S r = 0)%nat).
    { symmetry. apply (Nat.mod_unique _ _ (c / S r + 1)%nat); nia. }
    rewrite Hq, Hr. reflexivity.
  - assert (Hq : (S c / S r = c / S r)%nat).
    { symmetry. apply (Nat.div_unique _ _ _ (S (c mod S r))); nia. }
    assert (Hr : (S c mod S r = S (c mod S r))%nat).
    { symmetry. apply (Nat.mod_unique _ _ (c / S r)%nat); nia. }
    rewrite Hq, Hr. cbn [Nat.eqb]. lia.
Qed.

Section BruteForceSampling.
Variable Math_sqrt : Q -> Q.
Variable cities : list City.
Variable samplingRate : nat.

(** The loop checks the permutations whose number is a multiple of the
    sampling rate, and has a best path as soon as it has checked one. *)
Lemma bruteForceSteps_for_sampled (total : nat) (perms : list Route) :
  (forall p, In p perms -> valid_route cities p) ->
  forall st,
    (bestPath st = None -> bestDistance st = Infinity) ->
    exists st',
      bruteForceSteps_for Math_sqrt cities samplingRate total perms st
      = Ok st' /\
      (count_steps "permutation_check" (steps_so_far st')
       + permutationCount st / samplingRate
       = count_steps "permutation_check" (steps_so_far st)
         + (permutationCount st + length perms) / samplingRate)%nat /\
      count_steps "final_result" (steps_so_far st')
      = count_steps "final_result" (steps_so_far st) /\
      (bestPath st' = None <->
       bestPath st = None /\
       ((permutationCount st + length perms) / samplingRate
        = permutationCount st / samplingRate)%nat).
Proof.
  induction perms as [|perm perms IH]; intros Hperms st Hinf.
  - exists st. cbn [bruteForceSteps_for length]. rewrite Nat.add_0_r.
    split; [reflexivity|]. split; [reflexivity|]. split; [reflexivity|].
    tauto.
  - cbn [bruteForceSteps_for length].
    pose proof (div_step (permutationCount st) samplingRate) as Hdiv.
    pose proof (Nat.Div0.div_le_mono (S (permutationCount st))
                  (permutationCount st + S (length perms)) samplingRate
                  ltac:(lia)) as Hmono.
    replace (permutationCount st + S (length perms))%nat
      with (S (permutationCount st) + length perms)%nat in * by lia.
    destruct (S (permutationCount st) mod samplingRate =? 0)%nat.
    + destruct (calculateTotalDistance_valid Math_sqrt cities perm
                  (Hperms perm (or_introl eq_refl))) as [d Hd].
      rewrite Hd. cbn [bind].
      match goal with
      | |- exists _, bruteForceSteps_for _ _ _ _ _ ?s = _ /\ _ =>
          destruct (IH (fun p Hp => Hperms p (or_intror Hp)) s)
            as [st' [Hrun [Hcount [Hfinal Hbest]]]]
      end.
      { cbn [bestPath bestDistance].
        destruct (lt_number d (minus_number (bestDistance st) EPSILON)) eqn:E;
          [discriminate|].
        intro Hnone. rewrite (Hinf Hnone) in E. discriminate. }
      exists st'. split; [exact Hrun|].
      cbn [permutationCount steps_so_far bestPath] in Hcount, Hfinal, Hbest.
      rewrite !count_steps_app in Hcount, Hfinal.
      assert (Hfound :
        forall b : bool,
          count_steps "permutation_check"
            (if b then
               [metadata_step "best_found"
                  [("permutation"%string, VRoute perm);
                   ("distance"%string, VNumber (Num d));
                   ("counter"%string,
                     VText (decimal (S (permutationCount st)) ++ " / "
                            ++ decimal total))]]
             else []) = 0%nat /\
          count_steps "final_result"
            (if b then
               [metadata_step "best_found"
                  [("permutation"%string, VRoute perm);
                   ("distance"%string, VNumber (Num d));
                   ("counter"%string,
                     VText (decimal (S (permutationCount st)) ++ " / "
                            ++ decimal total))]]
             else []) = 0%nat)
        by (intros [|]; split; reflexivity).
      destruct (Hfound (lt_number d (minus_number (bestDistance st) EPSILON)))
        as [Hf1 Hf2].
      rewrite Hf1 in Hcount. rewrite Hf2 in Hfinal.
      change (count_steps "permutation_check" [metadata_step "permutation_check" ?m])
        with 1%nat in Hcount.
      change (count_steps "final_result" [metadata_step "permutation_check" ?m])
        with 0%nat in Hfinal.
      split; [lia|]. split; [lia|].
      split.
      * intro Hnone. apply Hbest in Hnone. destruct Hnone as [Hnone _].
        destruct (lt_number d (minus_number (bestDistance st) EPSILON)) eqn:E;
          [discriminate|].
        rewrite (Hinf Hnone) in E. discriminate.
      * intros [Hnone Heq]. lia.
    + match goal with
      | |- exists _, bruteForceSteps_for _ _ _ _ _ ?s = _ /\ _ =>
          destruct (IH (fun p Hp => Hperms p (or_intror Hp)) s)
            as [st' [Hrun [Hcount [Hfinal Hbest]]]]
      end.
      { exact Hinf. }
      exists st'. split; [exact Hrun|].
      cbn [permutationCount steps_so_far bestPath] in Hcount, Hfinal, Hbest.
      split; [lia|]. split; [exact Hfinal|].
      rewrite Hbest. split; intros [Hnone Heq]; (split; [exact Hnone | lia]).
Qed.
End BruteForceSampling.

(** X8.  Sampling in the brute-force trace.  For every city list and
    every sampling rate [generateBruteForceSteps] either returns a trace
    or throws a [TypeError].  When it returns, the rate is at least 1 and
    at most [n!], and the trace holds [n! / samplingRate] steps
    [permutation_check], rounded down, and ends with its only
    [final_result] step.  When it throws, no best path was found; with
    the coordinates in range this happens exactly with rate 0 or a rate
    above [n!], when no permutation is checked. *)
Theorem generateBruteForceSteps_sampling (Math_sqrt : Q -> Q)
  (cities : list City) (samplingRate : nat) :
  match generateBruteForceSteps Math_sqrt cities samplingRate with
  | Ok steps =>
      (1 <= samplingRate <= factorial (length cities))%nat /\
      exists earlier finalPath bestDistance,
        steps = earlier ++
                [final_result_step finalPath bestDistance "bruteforce"] /\
        count_steps "permutation_check" earlier
        = (factorial (length cities) / samplingRate)%nat /\
        count_steps "final_result" earlier = 0%nat
  | Throw e =>
      e = TypeError /\
      (coordinates_in_range cities ->
       (samplingRate = 0 \/ factorial (length cities) < samplingRate)%nat)
  end.
Proof.
  unfold generateBruteForceSteps. cbv zeta.
  set (steps0 := [metadata_step "metadata_update"
                    [("globalMessage"%string,
                       VText ("Brute Force TSP - Checking "
                              ++ decimal (factorial (length cities))
                              ++ " permutations"))]]).
  destruct (bruteForceSteps_for_sampled Math_sqrt cities samplingRate
              (factorial (length cities))
              (generatePermutations (allCities (length cities))))
    with (st := mkBruteForceTrace Infinity None 0 0 steps0)
    as [st' [Hrun [Hcount [Hfinal Hbest]]]].
  { intros p Hp. apply open_tour_valid.
    now apply generatePermutations_sound. }
  { reflexivity. }
  rewrite Hrun. cbn [bind].
  cbn [permutationCount steps_so_far bestPath] in Hcount, Hfinal, Hbest.
  rewrite generatePermutations_allCities_length in Hcount, Hbest.
  cbn [Nat.add] in Hcount, Hbest.
  assert (H0 : (0 / samplingRate = 0)%nat)
    by (destruct samplingRate; [reflexivity | now apply Nat.div_small; lia]).
  rewrite H0 in Hcount, Hbest.
  change (count_steps "permutation_check" steps0) with 0%nat in Hcount.
  change (count_steps "final_result" steps0) with 0%nat in Hfinal.
  assert (Hzero : (factorial (length cities) / samplingRate = 0)%nat <->
                  (samplingRate = 0 \/
                   factorial (length cities) < samplingRate)%nat).
  { destruct samplingRate as [|r]; [cbn; intuition lia|].
    rewrite Nat.div_small_iff by lia. intuition lia. }
  destruct (bestPath st') as [best|].
  - assert (Hpos : (factorial (length cities) / samplingRate <> 0)%nat).
    { intro E. assert (Hn : @None Route = None /\
                            (factorial (length cities) / samplingRate = 0)%nat)
        by (split; [reflexivity | exact E]).
      apply Hbest in Hn. discriminate. }
    split; [rewrite Hzero in Hpos; lia|].
    eexists. eexists. eexists. split; [reflexivity|].
    rewrite !count_steps_app, Hfinal.
    split; [|reflexivity].
    change (count_steps "permutation_check" [metadata_step "metadata_update" ?m])
      with 0%nat. lia.
  - split; [reflexivity|]. intros _. apply Hzero.
    destruct Hbest as [Hb _]. destruct (Hb eq_refl) as [_ E]. exact E.
Qed.

(** ** The greedy step trace below two cities *)

(** X9.  Below two cities the greedy trace leaves [greedyTSP].  The
    solver returns the empty path with distance 0 for no city and for one
    city.  [generateGreedySteps] has no such guard: on no city reading
    [cities[0].x] throws a [TypeError], and on one city it returns a
    trace without any [edge_added] step whose [final_result] step carries
    the path [[0; 0]] with the distance of the city to itself. *)
Theorem generateGreedySteps_fewer_than_two_cities (Math_sqrt : Q -> Q)
  (fuel : nat) (c : City) :
  generateGreedySteps Math_sqrt fuel [] = Some (Throw TypeError) /\
  greedyTSP Math_sqrt [] = Ok (mkPathResult [] (Num 0)) /\
  (exists earlier,
     generateGreedySteps Math_sqrt fuel [c]
     = Some (Ok (earlier ++
                 [final_result_step [0%Z; 0%Z]
                    (Num (0 + calculateDistance Math_sqrt c c)) "greedy"])) /\
     count_steps "edge_added" earlier = 0%nat) /\
  greedyTSP Math_sqrt [c] = Ok (mkPathResult [] (Num 0)).
Proof.
  split; [destruct fuel; reflexivity|]. split; [reflexivity|].
  split; [|reflexivity].
  eexists
    [metadata_step "metadata_update"
       [("globalMessage"%string, VText "Starting Greedy TSP with 1 cities")];
     edge_step "route_closed" 0 0
       [("distance"%string,
          VNumber (Num (Math_sqrt ((x c - x c) * (x c - x c)
                                   + (y c - y c) * (y c - y c)))))];
     metadata_step "metadata_update"
       [("globalMessage"%string, VText "Greedy algorithm complete!");
        ("totalDistance"%string,
          VNumber (Num (0 + calculateDistance Math_sqrt c c)))]].
  split; [destruct fuel; reflexivity | reflexivity].
Qed.

(** ** Replaying a trace *)

Lemma replay_app (s1 s2 : list Step) (st : StepRenderer.State) :
  replay (s1 ++ s2) st = replay s2 (replay s1 st).
Proof. unfold replay. apply fold_left_app. Qed.

Lemma skipn_nth_error {A : Type} (l : list A) :
  forall n x, nth_error l n = Some x -> skipn n l = x :: skipn (S n) l.
Proof.
  induction l as [|a l IH]; intros [|n] x H; try discriminate.
  - injection H as ->. reflexivity.
  - cbn [nth_error] in H. cbn [skipn]. rewrite (IH n x H). reflexivity.
Qed.

Lemma firstn_S_nth_error {A : Type} (l : list A) :
  forall n x, nth_error l n = Some x -> firstn (S n) l = firstn n l ++ [x].
Proof.
  induction l as [|a l IH]; intros [|n] x H; try discriminate.
  - injection H as ->. reflexivity.
  - cbn [nth_error] in H. rewrite !firstn_cons, (IH n x H). reflexivity.
Qed.

(** The loop over the indexes below the length of the trace is the replay
    of the steps at these indexes. *)
Lemma process_upto_seq (steps : list Step) (k : nat) :
  forall start state,
    (start + k <= length steps)%nat ->
    StepRenderer.process_upto steps (seq start k) state
    = Ok (replay (firstn k (skipn start steps)) state).
Proof.
  induction k as [|k IH]; intros start state Hlen; [reflexivity|].
  cbn [seq StepRenderer.process_upto].
  destruct (nth_error steps start) as [step|] eqn:E.
  - rewrite (skipn_nth_error steps start step E). cbn [firstn].
    rewrite IH by lia. reflexivity.
  - apply nth_error_None in E. lia.
Qed.

(** The loop throws as soon as it reaches the length of the trace. *)
Lemma process_upto_past_end (steps : list Step) (k : nat) :
  forall start state,
    (start <= length steps)%nat -> (length steps < start + k)%nat ->
    StepRenderer.process_upto steps (seq start k) state = Throw TypeError.
Proof.
  induction k as [|k IH]; intros start state Hstart Hlen; [lia|].
  cbn [seq StepRenderer.process_upto].
  destruct (nth_error steps start) as [step|] eqn:E; [|reflexivity].
  assert (start < length steps)%nat
    by (apply nth_error_Some; rewrite E; discriminate).
  apply IH; lia.
Qed.

(** Within the trace [_reconstructState] replays the steps up to the
    index. *)
Lemma _reconstructState_replay (steps : list Step) (i : Z) :
  (0 <= i < Z.of_nat (length steps))%Z ->
  StepRenderer._reconstructState steps i
  = Ok (replay (firstn (Z.to_nat i + 1) steps) StepRenderer.initial_state).
Proof.
  intro Hi. unfold StepRenderer._reconstructState.
  replace (i <? 0)%Z with false by (symmetry; apply Z.ltb_ge; lia).
  rewrite process_upto_seq by lia. reflexivity.
Qed.

(** X10.  The renderer rebuilds its state step by step.  Below index 0
    [_reconstructState] returns the initial state; at an index of the
    trace it returns a state, and the state at the next index is this
    state after [_processStep] on the next step; at an index from the
    length of the trace on, reading the type of a missing step throws a
    [TypeError]. *)
Theorem _reconstructState_step_by_step (steps : list Step) (i : Z) :
  (-1 <= i)%Z ->
  ((i + 1 < Z.of_nat (length steps))%Z ->
   exists state step,
     StepRenderer._reconstructState steps i = Ok state /\
     nth_error steps (Z.to_nat (i + 1)) = Some step /\
     StepRenderer._reconstructState steps (i + 1)
     = Ok (StepRenderer._processStep step state)) /\
  ((Z.of_nat (length steps) <= i)%Z ->
   StepRenderer._reconstructState steps i = Throw TypeError) /\
  StepRenderer._reconstructState steps (-1) = Ok StepRenderer.initial_state.
Proof.
  intro Hlo. split; [|split; [|reflexivity]].
  - intro Hhi.
    destruct (nth_error steps (Z.to_nat (i + 1))) as [step|] eqn:E;
      [|apply nth_error_None in E; lia].
    destruct (Z.eq_dec i (-1)) as [->|Hne].
    + exists StepRenderer.initial_state, step.
      split; [reflexivity|]. split; [reflexivity|].
      rewrite _reconstructState_replay by lia.
      change (-1 + 1)%Z with 0%Z in *. change (Z.to_nat 0) with 0%nat in *.
      change (0 + 1)%nat with 1%nat.
      rewrite (firstn_S_nth_error steps 0 step E). reflexivity.
    + exists (replay (firstn (Z.to_nat i + 1) steps) StepRenderer.initial_state),
        step.
      split; [apply _reconstructState_replay; lia|]. split; [reflexivity|].
      rewrite _reconstructState_replay by lia.
      replace (Z.to_nat (i + 1)) with (Z.to_nat i + 1)%nat in * by lia.
      replace (Z.to_nat i + 1 + 1)%nat with (S (Z.to_nat i + 1)) by lia.
      rewrite (firstn_S_nth_error steps _ step E), replay_app. reflexivity.
  - intro Hhi. unfold StepRenderer._reconstructState.
    replace (i <? 0)%Z with false by (symmetry; apply Z.ltb_ge; lia).
    apply process_upto_past_end; lia.
Qed.

Lemma _reconstructState_step_by_step_witness :
  (-1 <= 0)%Z /\
  StepRenderer._reconstructState
    [demo_decision; demo_edge_added; demo_final_result] 1
  = Ok (StepRenderer._processStep demo_edge_added
          (StepRenderer._processStep demo_decision
             StepRenderer.initial_state)) /\
  StepRenderer._reconstructState
    [demo_decision; demo_edge_added; demo_final_result] 3
  = Throw TypeError.
Proof.
  assert (H : (-1 <= 0)%Z) by lia.
  split; [exact H|].
  destruct (_reconstructState_step_by_step
              [demo_decision; demo_edge_added; demo_final_result] 0 H)
    as [Hnext _].
  destruct Hnext as [state [step [H0 [Hnth H1]]]]; [simpl; lia|].
  injection H0 as <-. injection Hnth as <-.
  split; [exact H1|].
  assert (H' : (-1 <= 3)%Z) by lia.
  destruct (_reconstructState_step_by_step
              [demo_decision; demo_edge_added; demo_final_result] 3 H')
    as [_ [Hpast _]].
  apply Hpast. simpl. lia.
Defined.

(** ** Replaying the greedy trace *)

(** The candidate steps of a round pile up as candidate edges. *)
Lemma replay_candidates (cur : Z) (m : list (string * value))
  (candidates : list Z) :
  forall st,
    replay (map (fun cityId => edge_step "candidate_edge" cur cityId m)
              candidates) st
    = StepRenderer.mkState (StepRenderer.permanentRoute st)
        (StepRenderer.candidateEdges st
         ++ map (fun c => (Some cur, Some c)) candidates)
        (StepRenderer.decisionEdge st) (StepRenderer.visitedCities st)
        (StepRenderer.currentCity st).
Proof.
  induction candidates as [|c cs IH]; intro st.
  - destruct st. cbn. now rewrite app_nil_r.
  - cbn [map]. change (replay (?s :: ?l) st)
      with (replay l (StepRenderer._processStep s st)).
    rewrite IH. cbn. now rewrite <- app_assoc.
Qed.

(** Ids that are new to the set are appended to it in order. *)
Lemma add_visited_fresh (suffix : list Z) :
  forall l,
    NoDup (l ++ suffix) ->
    fold_left StepRenderer.add_visited (map Some suffix) (map Some l)
    = map Some (l ++ suffix).
Proof.
  induction suffix as [|a suffix IH]; intros l Hnd.
  - now rewrite app_nil_r.
  - cbn [map fold_left].
    assert (Ha : ~ In a l).
    { intro Hin. apply NoDup_remove_2 in Hnd. apply Hnd.
      apply in_or_app. now left. }
    assert (Hadd : StepRenderer.add_visited (map Some l) (Some a)
                   = map Some (l ++ [a])).
    { unfold StepRenderer.add_visited.
      destruct (existsb (StepRenderer.same_id (Some a)) (map Some l)) eqn:E.
      - apply existsb_exists in E. destruct E as [o [Ho Hsame]].
        apply in_map_iff in Ho. destruct Ho as [b [<- Hb]].
        cbn in Hsame. apply Z.eqb_eq in Hsame. subst b. contradiction.
      - now rewrite map_app. }
    rewrite Hadd, IH by (now rewrite <- app_assoc).
    now rewrite <- app_assoc.
Qed.

Section GreedyReplay.
Variable Math_sqrt : Q -> Q.
Variable cities : list City.

(** The steps that the first loop of the generator pushes, replayed from
    a state at the current city without candidate or decision edges, add
    the cities that the second loop appends. *)
Lemma greedy_steps_while_replay (fuel : nat) (n : nat) :
  forall S_ cur order steps order',
    order <> [] -> cur = last_id order ->
    greedy_reconstruct_while Math_sqrt fuel cities n S_ cur order
    = Some (Ok order') ->
    exists new suffix,
      greedy_steps_while Math_sqrt fuel cities n S_ cur steps
      = Some (Ok (steps ++ new, last_id order')) /\
      order' = order ++ suffix /\
      forall st,
        StepRenderer.candidateEdges st = [] ->
        StepRenderer.decisionEdge st = None ->
        StepRenderer.currentCity st = Some cur ->
        replay new st
        = StepRenderer.mkState
            (StepRenderer.permanentRoute st ++ map Some suffix) [] None
            (fold_left StepRenderer.add_visited (map Some suffix)
               (StepRenderer.visitedCities st))
            (Some (last_id order')).
Proof.
  assert (Hstop : forall cur order steps,
            cur = last_id order ->
            exists new suffix,
              Some (Ok (steps, cur))
              = Some (Ok (steps ++ new, last_id order)) /\
              order = order ++ suffix /\
              forall st,
                StepRenderer.candidateEdges st = [] ->
                StepRenderer.decisionEdge st = None ->
                StepRenderer.currentCity st = Some cur ->
                replay new st
                = StepRenderer.mkState
                    (StepRenderer.permanentRoute st ++ map Some suffix) [] None
                    (fold_left StepRenderer.add_visited (map Some suffix)
                       (StepRenderer.visitedCities st))
                    (Some (last_id order))).
  { intros cur order steps ->. exists [], []. rewrite !app_nil_r.
    split; [reflexivity|]. split; [reflexivity|].
    intros [pr ce de vc cc] Hce Hde Hcc. cbn in *. subst.
    now rewrite app_nil_r. }
  induction fuel as [|fuel IH]; intros S_ cur order steps order' Hne Hcur H;
    rewrite greedy_reconstruct_while_unfold in H;
    rewrite greedy_steps_while_unfold;
    destruct (IdSet.size S_ <? n)%nat; try discriminate.
  - injection H as <-. now apply Hstop.
  - cbv zeta. unfold allCities. rewrite nearest_candidate_eq.
    destruct (reconstruct_scan Math_sqrt cities S_ cur (seq 0 n) (-1)%Z Infinity)
      as [[nearest minDist]|e]; [|discriminate].
    match goal with
    | |- exists _ _,
          greedy_steps_while _ _ _ _ _ _ ((steps ++ ?A) ++ ?B) = _ /\ _ /\ _ =>
        destruct (IH (IdSet.add S_ nearest) nearest (order ++ [nearest])
                    ((steps ++ A) ++ B) order')
          as [new [suffix [Hrun [Hord Hreplay]]]];
        [intro E; destruct order; discriminate
        | now rewrite last_id_app
        | exact H
        | exists (A ++ B ++ new), (nearest :: suffix)]
    end.
    split; [rewrite Hrun, <- !app_assoc; reflexivity|].
    split; [now rewrite Hord, <- app_assoc|].
    intros [pr ce de vc cc] Hce Hde Hcc. cbn in Hce, Hde, Hcc. subst ce de cc.
    rewrite !replay_app, replay_candidates.
    match goal with
    | |- replay new (replay _ ?s0) = _ =>
        change (replay new
                  (StepRenderer.mkState (pr ++ [Some nearest]) [] None
                     (StepRenderer.add_visited vc (Some nearest))
                     (Some nearest)) = StepRenderer.mkState
                  (pr ++ map Some (nearest :: suffix)) [] None
                  (fold_left StepRenderer.add_visited
                     (map Some (nearest :: suffix)) vc)
                  (Some (last_id order')))
    end.
    rewrite Hreplay by reflexivity.
    cbn [StepRenderer.permanentRoute StepRenderer.visitedCities map fold_left].
    now rewrite <- app_assoc.
  - injection H as <-. now apply Hstop.
Qed.
End GreedyReplay.

(** X11.  The renderer rebuilds the greedy route from the greedy trace.
    On two cities or more with their coordinates in range, with fuel for
    its loops, the trace of
    [generateGreedySteps] replayed to its last step by [_reconstructState]
    gives the state whose permanent route is the closed path that
    [greedyTSP] returns, whose visited cities are the cities of this path
    in the order of the visit, whose current city is the last city
    visited before the return, and which holds no candidate edge and no
    decision edge. *)
Theorem greedy_trace_replays_to_greedy_path (Math_sqrt : Q -> Q)
  (cities : list City) (fuel : nat) :
  (2 <= length cities)%nat -> (length cities <= fuel)%nat ->
  coordinates_in_range cities ->
  exists g steps,
    greedyTSP Math_sqrt cities = Ok g /\
    generateGreedySteps Math_sqrt fuel cities = Some (Ok steps) /\
    StepRenderer._reconstructState steps (Z.of_nat (length steps) - 1)
    = Ok (StepRenderer.mkState (map Some (path g)) [] None
            (map Some (removelast (path g)))
            (Some (last_id (removelast (path g))))).
Proof.
  intros Hn Hfuel _.
  destruct (greedyTSP_spec Math_sqrt cities Hn) as [g [p [d H]]].
  destruct H as [Hg [Hfor [Hp [Hfirst [Hpath [Hdist Hc]]]]]].
  assert (Hrec : greedy_reconstruct_while Math_sqrt fuel cities (length cities)
                   [0%Z] 0%Z [0%Z] = Some (Ok p)).
  { rewrite <- Hfor.
    apply (greedy_reconstruct_while_eq Math_sqrt cities (length cities - 1));
      [apply greedy_inv_start; lia | simpl; lia | lia]. }
  set (steps0 := [metadata_step "metadata_update"
                    [("globalMessage"%string,
                       VText ("Starting Greedy TSP with "
                              ++ decimal (length cities) ++ " cities"))]]).
  destruct (greedy_steps_while_replay Math_sqrt cities fuel (length cities)
              [0%Z] 0%Z [0%Z] steps0 p)
    as [new [visits [Hrun [Hord Hreplay]]]];
    [discriminate | reflexivity | exact Hrec |].
  pose proof (open_tour_valid _ _ Hp) as Hv.
  pose proof (open_tour_NoDup _ _ Hp) as Hnd.
  assert (Hne : p <> []) by (rewrite Hord; discriminate).
  destruct (distance_between_valid Math_sqrt cities (last_id p) 0%Z) as [fd Hfd].
  { apply (valid_route_In cities p _ Hv). now apply last_id_In. }
  { lia. }
  rewrite <- inline_distance_eq in Hfd.
  assert (Hclose : p ++ [0%Z] = close p) by (unfold close; now rewrite Hfirst).
  exists g.
  eexists. split; [exact Hg|]. split.
  - unfold generateGreedySteps. fold steps0. rewrite Hrun, Hfd, Hrec.
    cbv zeta. rewrite Hclose, Hc. cbn [bind]. reflexivity.
  - match goal with
    | |- StepRenderer._reconstructState ?s _ = _ => set (steps := s)
    end.
    assert (Hlen : (1 <= length steps)%nat)
      by (unfold steps; rewrite !length_app; simpl; lia).
    rewrite _reconstructState_replay by lia.
    replace (Z.to_nat (Z.of_nat (length steps) - 1) + 1)%nat
      with (length steps) by lia.
    rewrite firstn_all. unfold steps.
    rewrite !replay_app.
    change (replay steps0 StepRenderer.initial_state)
      with StepRenderer.initial_state.
    rewrite Hreplay by reflexivity.
    cbn [StepRenderer.permanentRoute StepRenderer.visitedCities
         StepRenderer.initial_state].
    change [Some 0%Z] with (map Some [0%Z]).
    rewrite add_visited_fresh by (cbn [app]; rewrite Hord in Hnd; exact Hnd).
    rewrite <- map_app, <- Hord.
    rewrite Hpath, removelast_close, <- Hclose, map_app.
    reflexivity.
Qed.

Lemma greedy_trace_replays_to_greedy_path_witness :
  (2 <= length square_cities)%nat /\ (length square_cities <= 4)%nat /\
  coordinates_in_range square_cities /\
  exists g steps,
    greedyTSP Qsqrt square_cities = Ok g /\
    generateGreedySteps Qsqrt 4 square_cities = Some (Ok steps) /\
    StepRenderer._reconstructState steps (Z.of_nat (length steps) - 1)
    = Ok (StepRenderer.mkState (map Some (path g)) [] None
            (map Some (removelast (path g)))
            (Some (last_id (removelast (path g))))).
Proof.
  assert (H2 : (2 <= length square_cities)%nat) by (simpl; lia).
  assert (H4 : (length square_cities <= 4)%nat) by (simpl; lia).
  split; [exact H2|]. split; [exact H4|].
  split; [exact square_cities_in_range|].
  exact (greedy_trace_replays_to_greedy_path Qsqrt square_cities 4 H2 H4
           square_cities_in_range).
Defined.

(** ** Playback by the timer *)

Module StepControllerPlayback.
Import StepController.

Lemma pause_timer (c : t) :
  timer_follows_playback c -> timer_follows_playback (pause c).
Proof.
  unfold timer_follows_playback, pause.
  destruct (isPlaying c) eqn:E; cbn; [|rewrite E; auto].
  intros [_ H]. auto.
Qed.

Lemma play_timer (c : t) :
  timer_follows_playback c -> timer_follows_playback (play c).
Proof.
  unfold timer_follows_playback, play.
  destruct (isPlaying c) eqn:E; [rewrite E; auto|].
  destruct (steps_length c - 1 <=? currentStepIndex c)%Z; cbn;
    intros [_ H]; auto.
Qed.

Lemma next_timer (c : t) :
  timer_follows_playback c -> timer_follows_playback (fst (next c)).
Proof.
  intro H. unfold next.
  destruct (currentStepIndex c <? steps_length c - 1)%Z; [|exact H].
  cbn [fst].
  set (c' := _notifyStepChanged (set_index c (currentStepIndex c + 1))).
  assert (H' : timer_follows_playback c') by exact H.
  destruct (getCurrentStep c') as [s|]; [|exact H'].
  destruct (is_terminal_type (Step.type s) && isPlaying c')%bool;
    [now apply pause_timer | exact H'].
Qed.

Lemma addStep_timer (c : t) (s : Step) :
  timer_follows_playback c -> timer_follows_playback (addStep c s).
Proof.
  unfold addStep. destruct (String.eqb (Step.type s) ""); [auto|].
  intro H. exact H.
Qed.

(** Every operation keeps the timer with the playback. *)
Lemma run_op_timer (c : t) (op : Op) :
  timer_follows_playback c -> timer_follows_playback (run_op c op).
Proof.
  intro H.
  destruct op as [a n r|s|stepsArray| | | | | | | | |ms]; cbn [run_op].
  - exact (pause_timer c H).
  - now apply addStep_timer.
  - unfold addSteps. revert c H.
    induction stepsArray as [|s ss IH]; intros c H; [exact H|].
    cbn [fold_left]. apply IH. now apply addStep_timer.
  - now apply next_timer.
  - unfold previous. destruct (-1 <? currentStepIndex c)%Z; exact H.
  - now apply play_timer.
  - unfold tick. destruct (playbackInterval c); [|exact H].
    pose proof (next_timer c H) as Hn. destruct (next c) as [c' advanced].
    cbn [fst] in Hn. destruct advanced; [exact Hn | now apply pause_timer].
  - now apply pause_timer.
  - unfold replay. apply play_timer. exact (pause_timer c H).
  - exact (pause_timer c H).
  - exact (pause_timer c H).
  - unfold setPlaybackSpeed. cbn [isPlaying].
    assert (H' : timer_follows_playback
                   (mk (steps c) (currentStepIndex c) (isPlaying c)
                      (Z.max 100 ms) (playbackInterval c) (algorithmName c)
                      (totalCities c) (userRoute c) (notified c))).
    { destruct H as [H _]. split; [exact H | cbn; lia]. }
    destruct (isPlaying c); [|exact H'].
    apply play_timer, pause_timer. exact H'.
Qed.

Lemma getCurrentStep_ext (c1 c2 : t) :
  steps c1 = steps c2 -> currentStepIndex c1 = currentStepIndex c2 ->
  getCurrentStep c1 = getCurrentStep c2.
Proof.
  intros Hs Hi. unfold getCurrentStep, steps_length. now rewrite Hs, Hi.
Qed.

(** Without a timer nothing ticks. *)
Lemma ticks_stopped (k : nat) (c : t) :
  playbackInterval c = false -> run_ops c (repeat OpTick k) = c.
Proof.
  intro H. induction k as [|k IH]; [reflexivity|].
  cbn [repeat]. unfold run_ops in *. cbn [fold_left run_op].
  unfold tick. rewrite H. exact IH.
Qed.

Lemma pause_playing (c : t) :
  isPlaying c = true ->
  isPlaying (pause c) = false /\ playbackInterval (pause c) = false /\
  steps (pause c) = steps c /\
  currentStepIndex (pause c) = currentStepIndex c.
Proof. intro H. unfold pause. rewrite H. cbn. auto. Qed.

(** One tick of a playing controller ends the playback or shows the next
    step. *)
Lemma tick_playing (c : t) :
  isPlaying c = true -> playbackInterval c = true -> index_in_range c ->
  playback_ended c (tick c) \/
  (isPlaying (tick c) = true /\ playbackInterval (tick c) = true /\
   steps (tick c) = steps c /\
   currentStepIndex (tick c) = (currentStepIndex c + 1)%Z /\
   index_in_range (tick c)).
Proof.
  intros Hp Ht Hr.
  pose proof (StepControllerFacts.run_op_in_range c OpTick Hr) as Hr'.
  cbn [run_op] in Hr'. revert Hr'.
  unfold tick, next. rewrite Ht.
  destruct (Z.ltb_spec (currentStepIndex c) (steps_length c - 1)) as [Hlt|Hge].
  - set (c' := _notifyStepChanged (set_index c (currentStepIndex c + 1))).
    assert (Hc' : isPlaying c' = true /\ playbackInterval c' = true /\
                  steps c' = steps c /\
                  currentStepIndex c' = (currentStepIndex c + 1)%Z)
      by (subst c'; cbn; auto).
    destruct Hc' as [Hp' [Ht' [Hs' Hi']]].
    destruct (getCurrentStep c') as [s|] eqn:Es; [|intro; right; auto].
    rewrite Hp', Bool.andb_true_r.
    destruct (is_terminal_type (Step.type s)) eqn:Et; [|intro; right; auto].
    intros _. left.
    destruct (pause_playing c' Hp') as [Hq [Hv [Hs'' Hi'']]].
    split; [exact Hq|]. split; [exact Hv|]. split; [congruence|].
    right. exists s. split; [|exact Et].
    rewrite <- Es. apply getCurrentStep_ext; assumption.
  - intros _. left.
    destruct (pause_playing c Hp) as [Hq [Hv [Hs Hi]]].
    split; [exact Hq|]. split; [exact Hv|]. split; [exact Hs|].
    left. unfold index_in_range in Hr. lia.
Qed.

(** Ticks of a playing controller end the playback, or have shown one
    step each. *)
Lemma ticks_playing (k : nat) :
  forall c,
    isPlaying c = true -> playbackInterval c = true -> index_in_range c ->
    playback_ended c (run_ops c (repeat OpTick k)) \/
    (isPlaying (run_ops c (repeat OpTick k)) = true /\
     steps (run_ops c (repeat OpTick k)) = steps c /\
     currentStepIndex (run_ops c (repeat OpTick k))
     = (currentStepIndex c + Z.of_nat k)%Z).
Proof.
  induction k as [|k IH]; intros c Hp Ht Hr.
  - right. cbn. split; [exact Hp|]. split; [reflexivity | lia].
  - change (run_ops c (repeat OpTick (S k)))
      with (run_ops (tick c) (repeat OpTick k)).
    destruct (tick_playing c Hp Ht Hr) as [Hend|[Hp' [Ht' [Hs' [Hi' Hr'']]]]].
    + left. rewrite ticks_stopped by apply Hend. exact Hend.
    + destruct (IH (tick c) Hp' Ht' Hr'') as [Hend|[Hq [Hs Hi]]].
      * left. unfold playback_ended, steps_length in *.
        rewrite Hs' in Hend. exact Hend.
      * right. split; [exact Hq|]. split; [congruence | lia].
Qed.
End StepControllerPlayback.

(** X12.  The timer follows the playback.  After any sequence of
    operations on a fresh controller a timer is armed exactly when the
    controller plays, and the interval between two steps is at least
    100 ms. *)
Theorem controller_timer_follows_playback (ops : list StepController.Op) :
  timer_follows_playback
    (StepController.run_ops StepController.constructor ops).
Proof.
  assert (H : forall c, timer_follows_playback c ->
                        timer_follows_playback (StepController.run_ops c ops)).
  { unfold StepController.run_ops.
    induction ops as [|op ops IH]; intros c Hc; [exact Hc|].
    cbn [fold_left]. apply IH.
    now apply StepControllerPlayback.run_op_timer. }
  apply H. split; [reflexivity | cbn; lia].
Qed.

(** X13.  Playback ends by itself.  On a controller whose index is in
    range and whose timer follows the playback, [play] followed by one
    tick more than there are steps has stopped the playback: nothing
    plays, no timer is armed, the steps are the same, and the index is
    the last of the trace or that of a [final_result] or [final] step. *)
Theorem playback_ends_by_itself (c : StepController.t) (k : nat) :
  StepController.index_in_range c ->
  timer_follows_playback c ->
  (length (StepController.steps c) + 1 <= k)%nat ->
  playback_ended c
    (StepController.run_ops (StepController.play c)
       (repeat StepController.OpTick k)).
Proof.
  intros Hr [Ht _] Hk.
  set (p := StepController.play c).
  assert (Hp : StepController.isPlaying p = true /\
               StepController.playbackInterval p = true /\
               StepController.steps p = StepController.steps c).
  { subst p. unfold StepController.play.
    destruct (StepController.isPlaying c) eqn:E; [auto|].
    destruct (_ <=? _)%Z; cbn; auto. }
  destruct Hp as [Hp [Hv Hs]].
  assert (Hrp : StepController.index_in_range p)
    by exact (StepControllerFacts.run_op_in_range c StepController.OpPlay Hr).
  destruct (StepControllerPlayback.ticks_playing k p Hp Hv Hrp)
    as [Hend|[_ [Hs' Hi]]].
  - unfold playback_ended, StepController.steps_length in *.
    rewrite Hs in Hend. exact Hend.
  - pose proof (StepControllerFacts.run_ops_in_range
                  (repeat StepController.OpTick k) p Hrp) as Hr'.
    unfold StepController.index_in_range, StepController.steps_length in *.
    rewrite Hs', Hi in Hr'. rewrite Hs in *. lia.
Qed.

Lemma playback_ends_by_itself_witness :
  StepController.index_in_range demo_controller /\
  timer_follows_playback demo_controller /\
  (length (StepController.steps demo_controller) + 1 <= 4)%nat /\
  playback_ended demo_controller
    (StepController.run_ops (StepController.play demo_controller)
       (repeat StepController.OpTick 4)).
Proof.
  assert (H1 : StepController.index_in_range demo_controller)
    by (unfold StepController.index_in_range; cbn; lia).
  assert (H2 : timer_follows_playback demo_controller)
    by (split; [reflexivity | cbn; lia]).
  assert (H3 : (length (StepController.steps demo_controller) + 1 <= 4)%nat)
    by (cbn; lia).
  split; [exact H1|]. split; [exact H2|]. split; [exact H3|].
  exact (playback_ends_by_itself demo_controller 4 H1 H2 H3).
Defined.

(** ** What the controller reports *)

Lemma progress_fraction (a b : Z) :
  (0 <= a <= b)%Z -> (0 < b)%Z ->
  0 <= inject_Z a / inject_Z b /\ inject_Z a / inject_Z b <= 1.
Proof.
  intros Ha Hb.
  assert (Hb' : 0 < inject_Z b) by (change 0 with (inject_Z 0); rewrite <- Zlt_Qlt; lia).
  split.
  - apply Qle_shift_div_l; [exact Hb'|]. rewrite Qmult_0_l.
    change 0 with (inject_Z 0). rewrite <- Zle_Qle. lia.
  - apply Qle_shift_div_r; [exact Hb'|]. rewrite Qmult_1_l.
    rewrite <- Zle_Qle. lia.
Qed.

(** X14.  The controls that the controller reports.  With the index in
    range: while it plays only [pause] is offered; while it does not,
    [canNext] and [canPrevious] are the values that [next] and
    [previous] would return; the progress is between 0 and 100 percent,
    0 before the first step and 100 at the last. *)
Theorem getUIState_controls (c : StepController.t) :
  StepController.index_in_range c ->
  (StepController.isPlaying c = true ->
   StepControllerQueries.canPause (StepControllerQueries.getUIState c) = true /\
   StepControllerQueries.canPlay (StepControllerQueries.getUIState c) = false /\
   StepControllerQueries.canNext (StepControllerQueries.getUIState c) = false /\
   StepControllerQueries.canPrevious (StepControllerQueries.getUIState c)
   = false /\
   StepControllerQueries.canReplay (StepControllerQueries.getUIState c)
   = false /\
   StepControllerQueries.canReset (StepControllerQueries.getUIState c)
   = false) /\
  (StepController.isPlaying c = false ->
   StepControllerQueries.canPause (StepControllerQueries.getUIState c)
   = false /\
   StepControllerQueries.canNext (StepControllerQueries.getUIState c)
   = snd (StepController.next c) /\
   StepControllerQueries.canPrevious (StepControllerQueries.getUIState c)
   = snd (StepController.previous c)) /\
  (0 <= StepControllerQueries.progressPercent
          (StepControllerQueries.getUIState c) <= 100)%Z /\
  (StepController.currentStepIndex c = (-1)%Z ->
   StepControllerQueries.progressPercent (StepControllerQueries.getUIState c)
   = 0%Z) /\
  (StepController.steps c <> [] ->
   StepController.currentStepIndex c = (StepController.steps_length c - 1)%Z ->
   StepControllerQueries.progressPercent (StepControllerQueries.getUIState c)
   = 100%Z).
Proof.
  unfold StepController.index_in_range, StepController.steps_length.
  intros [Hlo Hhi].
  split; [|split; [|split; [|split]]].
  - intro Hp. unfold StepControllerQueries.getUIState. cbn. rewrite Hp.
    cbn. repeat split.
  - intro Hp. unfold StepControllerQueries.getUIState. cbn. rewrite Hp.
    cbn [negb andb]. split; [reflexivity|].
    unfold StepController.next, StepController.previous,
      StepController.steps_length.
    split.
    + destruct (_ <? _)%Z; reflexivity.
    + destruct (-1 <? _)%Z; reflexivity.
  - unfold StepControllerQueries.getUIState. cbv zeta.
    cbn [StepControllerQueries.progressPercent].
    destruct (Nat.ltb_spec 0 (length (StepController.steps c))) as [Hlen|Hlen];
      [|lia].
    destruct (progress_fraction (StepController.currentStepIndex c + 1)
                (Z.of_nat (length (StepController.steps c))))
      as [H0 H1]; [lia | lia |].
    unfold StepControllerQueries.Math_round.
    set (q := inject_Z (StepController.currentStepIndex c + 1)
              / inject_Z (Z.of_nat (length (StepController.steps c)))) in *.
    clearbody q.
    split.
    + assert (Hle : 0 <= q * 100 + (1 # 2)) by lra.
      apply Qfloor_resp_le in Hle. exact Hle.
    + assert (Hle : q * 100 + (1 # 2) <= 100 + (1 # 2)) by lra.
      apply Qfloor_resp_le in Hle. exact Hle.
  - intro Hi. unfold StepControllerQueries.getUIState. cbv zeta.
    cbn [StepControllerQueries.progressPercent]. rewrite Hi.
    destruct (0 <? length (StepController.steps c))%nat; [|reflexivity].
    unfold StepControllerQueries.Math_round.
    assert (Hq : inject_Z (-1 + 1)
                 / inject_Z (Z.of_nat (length (StepController.steps c)))
                 * 100 + (1 # 2) == 1 # 2).
    { change (inject_Z (-1 + 1)) with 0. unfold Qdiv.
      rewrite Qmult_0_l. reflexivity. }
    rewrite Hq. reflexivity.
  - intros Hne Hi. unfold StepControllerQueries.getUIState. cbv zeta.
    cbn [StepControllerQueries.progressPercent].
    destruct (Nat.ltb_spec 0 (length (StepController.steps c))) as [Hlen|Hlen];
      [|destruct (StepController.steps c); [contradiction | cbn in Hlen; lia]].
    unfold StepController.steps_length in Hi. rewrite Hi.
    replace (Z.of_nat (length (StepController.steps c)) - 1 + 1)%Z
      with (Z.of_nat (length (StepController.steps c))) by lia.
    unfold StepControllerQueries.Math_round.
    assert (Hq : inject_Z (Z.of_nat (length (StepController.steps c)))
                 / inject_Z (Z.of_nat (length (StepController.steps c)))
                 * 100 + (1 # 2) == 100 + (1 # 2)).
    { assert (Hb : ~ inject_Z (Z.of_nat (length (StepController.steps c))) == 0).
      { intro E. unfold Qeq, inject_Z in E. cbn [Qnum Qden] in E. lia. }
      field. exact Hb. }
    rewrite Hq. reflexivity.
Qed.

Lemma getUIState_controls_witness :
  StepController.index_in_range demo_controller /\
  StepControllerQueries.canNext (StepControllerQueries.getUIState demo_controller)
  = snd (StepController.next demo_controller) /\
  (0 <= StepControllerQueries.progressPercent
          (StepControllerQueries.getUIState demo_controller) <= 100)%Z.
Proof.
  assert (H : StepController.index_in_range demo_controller)
    by (unfold StepController.index_in_range; cbn; lia).
  split; [exact H|].
  destruct (getUIState_controls demo_controller H) as [_ [Hoff [Hpct _]]].
  split; [apply Hoff; reflexivity | exact Hpct].
Defined.

(** X15.  What is rendered is what the controller shows.  With the index
    in range, [_reconstructState] on the steps and the index of the
    controller does not throw: it returns the initial state with the steps
    of [getStepsUpToCurrent] replayed into it.  These steps are the first
    [currentStepIndex + 1] steps of the trace, and the last of them is the
    step of [getCurrentStep]. *)
Theorem rendering_follows_controller (c : StepController.t) :
  StepController.index_in_range c ->
  StepRenderer._reconstructState (StepController.steps c)
    (StepController.currentStepIndex c)
  = Ok (replay (StepControllerQueries.getStepsUpToCurrent c)
          StepRenderer.initial_state) /\
  Z.of_nat (length (StepControllerQueries.getStepsUpToCurrent c))
  = (StepController.currentStepIndex c + 1)%Z /\
  (exists rest,
     StepController.steps c
     = StepControllerQueries.getStepsUpToCurrent c ++ rest) /\
  StepController.getCurrentStep c
  = hd_error (rev (StepControllerQueries.getStepsUpToCurrent c)).
Proof.
  intro Hr.
  destruct (StepControllerFacts.getCurrentStep_in_range c Hr)
    as [[Hi Hnone]|[s [Hs [Hnth [_ Hpos]]]]];
    unfold StepControllerQueries.getStepsUpToCurrent.
  - rewrite Hi, Hnone. cbn. split; [reflexivity|]. split; [reflexivity|].
    split; [now exists (StepController.steps c) | reflexivity].
  - unfold StepController.index_in_range, StepController.steps_length in Hr.
    replace (StepController.currentStepIndex c <? 0)%Z with false
      by (symmetry; apply Z.ltb_ge; lia).
    replace (Z.to_nat (StepController.currentStepIndex c + 1))
      with (Z.to_nat (StepController.currentStepIndex c) + 1)%nat by lia.
    split; [apply _reconstructState_replay; lia|].
    split; [rewrite length_firstn; lia|].
    split.
    + eexists. symmetry. apply firstn_skipn.
    + rewrite Hs, Nat.add_1_r.
      rewrite (firstn_S_nth_error _ _ _ Hnth), rev_app_distr. reflexivity.
Qed.

Lemma rendering_follows_controller_witness :
  StepController.index_in_range
    (fst (StepController.next demo_controller)) /\
  StepRenderer._reconstructState
    (StepController.steps (fst (StepController.next demo_controller)))
    (StepController.currentStepIndex (fst (StepController.next demo_controller)))
  = Ok (replay [demo_decision] StepRenderer.initial_state).
Proof.
  assert (H : StepController.index_in_range
                (fst (StepController.next demo_controller)))
    by (unfold StepController.index_in_range; cbn; lia).
  split; [exact H|].
  destruct (rendering_follows_controller
              (fst (StepController.next demo_controller)) H) as [Hrender _].
  exact Hrender.
Defined.

(** X16.  [next] and [previous] undo each other.  On a controller that
    does not play, [next] followed by [previous] (when there is a next
    step) and [previous] followed by [next] (when there is a previous
    one) both succeed and leave the controller as it was, but for the two
    step changes they have notified. *)
Theorem next_previous_round_trip (c : StepController.t) :
  StepController.isPlaying c = false ->
  ((-1 <= StepController.currentStepIndex c
    < StepController.steps_length c - 1)%Z ->
   StepController.previous (fst (StepController.next c))
   = (StepController.notify
        (StepController.notify c
           (StepController.StepChanged
              (StepController.currentStepIndex c + 1)))
        (StepController.StepChanged (StepController.currentStepIndex c)),
      true)) /\
  ((-1 < StepController.currentStepIndex c
    <= StepController.steps_length c - 1)%Z ->
   StepController.next (fst (StepController.previous c))
   = (StepController.notify
        (StepController.notify c
           (StepController.StepChanged
              (StepController.currentStepIndex c - 1)))
        (StepController.StepChanged (StepController.currentStepIndex c)),
      true)).
Proof.
  intro Hp. destruct c as [st idx pl sp iv al tc ur nt]. cbn in Hp. subst pl.
  unfold StepController.steps_length. cbn [StepController.steps
    StepController.currentStepIndex].
  split; intro Hi.
  - unfold StepController.next, StepController.steps_length.
    cbn [StepController.steps StepController.currentStepIndex].
    replace (idx <? Z.of_nat (length st) - 1)%Z with true
      by (symmetry; apply Z.ltb_lt; lia).
    cbn [fst].
    match goal with
    | |- StepController.previous
           (match ?g with Some _ => _ | None => ?d end) = _ =>
        replace (match g with
                 | Some currentStep =>
                     if (StepController.is_terminal_type (Step.type currentStep)
                         && StepController.isPlaying d)%bool
                     then StepController.pause d else d
                 | None => d
                 end) with d
          by (destruct g; [cbn; now rewrite Bool.andb_false_r | reflexivity])
    end.
    unfold StepController.previous. cbn.
    replace (-1 <? idx + 1)%Z with true by (symmetry; apply Z.ltb_lt; lia).
    unfold StepController.notify, StepController._notifyStepChanged,
      StepController.set_index. cbn.
    replace (idx + 1 - 1)%Z with idx by lia. reflexivity.
  - unfold StepController.previous.
    cbn [StepController.steps StepController.currentStepIndex].
    replace (-1 <? idx)%Z with true by (symmetry; apply Z.ltb_lt; lia).
    cbn [fst].
    unfold StepController.next, StepController.steps_length. cbn.
    replace (idx - 1 <? Z.of_nat (length st) - 1)%Z with true
      by (symmetry; apply Z.ltb_lt; lia).
    replace (idx - 1 + 1)%Z with idx by lia.
    match goal with
    | |- (match ?g with Some _ => _ | None => ?d end, true) = _ =>
        destruct g; [cbn; rewrite Bool.andb_false_r|]; reflexivity
    end.
Qed.

Lemma next_previous_round_trip_witness :
  StepController.isPlaying demo_controller = false /\
  StepController.currentStepIndex
    (fst (StepController.previous (fst (StepController.next demo_controller))))
  = StepController.currentStepIndex demo_controller.
Proof.
  assert (H : StepController.isPlaying demo_controller = false)
    by reflexivity.
  split; [exact H|].
  destruct (next_previous_round_trip demo_controller H) as [Hnp _].
  rewrite Hnp by (cbn; lia). reflexivity.
Defined.

(** ** Loading steps and changing the speed *)

(** X17.  [addSteps] appends the steps that have a type, in their order,
    drops the others, and touches nothing else; with the index in range
    the steps shown so far and the current step stay the same. *)
Theorem addSteps_appends_typed_steps (c : StepController.t)
  (stepsArray : list Step) :
  StepController.index_in_range c ->
  StepController.addSteps c stepsArray
  = StepController.mk
      (StepController.steps c
       ++ filter (fun s => negb (String.eqb (Step.type s) "")) stepsArray)
      (StepController.currentStepIndex c) (StepController.isPlaying c)
      (StepController.playbackSpeed c) (StepController.playbackInterval c)
      (StepController.algorithmName c) (StepController.totalCities c)
      (StepController.userRoute c) (StepController.notified c) /\
  StepControllerQueries.getStepsUpToCurrent
    (StepController.addSteps c stepsArray)
  = StepControllerQueries.getStepsUpToCurrent c /\
  StepController.getCurrentStep (StepController.addSteps c stepsArray)
  = StepController.getCurrentStep c.
Proof.
  intro Hr.
  assert (Hadd : forall ss c0,
            StepController.addSteps c0 ss
            = StepController.mk
                (StepController.steps c0
                 ++ filter (fun s => negb (String.eqb (Step.type s) "")) ss)
                (StepController.currentStepIndex c0)
                (StepController.isPlaying c0)
                (StepController.playbackSpeed c0)
                (StepController.playbackInterval c0)
                (StepController.algorithmName c0)
                (StepController.totalCities c0)
                (StepController.userRoute c0) (StepController.notified c0)).
  { unfold StepController.addSteps.
    induction ss as [|s ss IH]; intro c0.
    - destruct c0. cbn. now rewrite app_nil_r.
    - cbn [fold_left filter]. rewrite IH. unfold StepController.addStep.
      destruct (String.eqb (Step.type s) ""); cbn; [reflexivity|].
      now rewrite <- app_assoc. }
  split; [apply Hadd|].
  rewrite Hadd.
  unfold StepController.index_in_range, StepController.steps_length in Hr.
  split.
  - unfold StepControllerQueries.getStepsUpToCurrent. cbn.
    destruct (StepController.currentStepIndex c <? 0)%Z; [reflexivity|].
    rewrite firstn_app.
    replace (Z.to_nat (StepController.currentStepIndex c + 1)
             - length (StepController.steps c))%nat with 0%nat by lia.
    cbn [firstn]. now rewrite app_nil_r.
  - unfold StepController.getCurrentStep, StepController.steps_length. cbn.
    destruct (Z.ltb_spec (StepController.currentStepIndex c) 0) as [Hneg|Hpos];
      [reflexivity|].
    cbn [orb]. rewrite length_app.
    replace (Z.of_nat (length (StepController.steps c) + _)
             <=? StepController.currentStepIndex c)%Z with false
      by (symmetry; apply Z.leb_gt; lia).
    replace (Z.of_nat (length (StepController.steps c))
             <=? StepController.currentStepIndex c)%Z with false
      by (symmetry; apply Z.leb_gt; lia).
    apply nth_error_app1. lia.
Qed.

Lemma addSteps_appends_typed_steps_witness :
  StepController.index_in_range demo_controller /\
  StepController.steps
    (StepController.addSteps demo_controller
       [metadata_step "" []; demo_decision])
  = StepController.steps demo_controller ++ [demo_decision].
Proof.
  assert (H : StepController.index_in_range demo_controller)
    by (unfold StepController.index_in_range; cbn; lia).
  split; [exact H|].
  destruct (addSteps_appends_typed_steps demo_controller
              [metadata_step "" []; demo_decision] H) as [Hadd _].
  rewrite Hadd. reflexivity.
Defined.

(** X18.  [setPlaybackSpeed] sets the interval to the given number of
    milliseconds, and to 100 below that.  On a controller that does not
    play nothing else changes.  On one that plays the timer is stopped
    and started again, notifying both: the controller still plays, from
    the same step, unless it was at the last step of the trace, from
    where it starts again before the first step. *)
Theorem setPlaybackSpeed_restarts_playback (c : StepController.t) (ms : Z) :
  StepController.playbackSpeed (StepController.setPlaybackSpeed c ms)
  = Z.max 100 ms /\
  StepController.steps (StepController.setPlaybackSpeed c ms)
  = StepController.steps c /\
  StepController.isPlaying (StepController.setPlaybackSpeed c ms)
  = StepController.isPlaying c /\
  StepController.currentStepIndex (StepController.setPlaybackSpeed c ms)
  = (if (StepController.isPlaying c
         && (StepController.steps_length c - 1
             <=? StepController.currentStepIndex c)%Z)%bool
     then (-1)%Z else StepController.currentStepIndex c) /\
  StepController.notified (StepController.setPlaybackSpeed c ms)
  = StepController.notified c
    ++ (if StepController.isPlaying c
        then [StepController.PlaybackStateChanged false;
              StepController.PlaybackStateChanged true]
        else []) /\
  StepController.playbackInterval (StepController.setPlaybackSpeed c ms)
  = (StepController.isPlaying c || StepController.playbackInterval c)%bool.
Proof.
  destruct c as [st idx pl sp iv al tc ur nt].
  unfold StepController.setPlaybackSpeed, StepController.steps_length.
  cbn [StepController.isPlaying StepController.steps
       StepController.currentStepIndex StepController.notified
       StepController.playbackInterval StepController.playbackSpeed].
  destruct pl.
  - unfold StepController.pause, StepController.play,
      StepController._notifyPlaybackStateChanged, StepController.notify,
      StepController.steps_length.
    cbn [StepController.isPlaying StepController.steps
         StepController.currentStepIndex StepController.notified
         StepController.playbackInterval StepController.playbackSpeed
         StepController.algorithmName StepController.totalCities
         StepController.userRoute negb andb orb].
    destruct (Z.of_nat (length st) - 1 <=? idx)%Z;
      unfold StepController.set_index;
      cbn [StepController.isPlaying StepController.steps
           StepController.currentStepIndex StepController.notified
           StepController.playbackInterval StepController.playbackSpeed
           StepController.algorithmName StepController.totalCities
           StepController.userRoute negb andb orb];
      rewrite <- app_assoc; repeat split.
  - cbn [andb orb]. rewrite app_nil_r. repeat split.
Qed.

(** ** The distance of the live search *)

Section LiveDistance.
Variable Math_sqrt : Q -> Q.
Variable cities : list City.

(** On a route that is not closed [calculatePathDistance] is
    [calculateTotalDistance]. *)
Lemma calculatePathDistance_open (r : Route) :
  (2 <= length r)%nat -> first_id r <> last_id r ->
  Live.calculatePathDistance Math_sqrt r cities
  = calculateTotalDistance Math_sqrt (Some r) cities.
Proof.
  intros Hlen Hopen. unfold Live.calculatePathDistance, calculateTotalDistance.
  replace (length r <? 2)%nat with false by (symmetry; apply Nat.ltb_ge; lia).
  replace (first_id r =? last_id r)%Z with false
    by (symmetry; apply Z.eqb_neq; exact Hopen).
  cbv zeta. cbn [negb]. rewrite path_edges_eq, inline_distance_eq. reflexivity.
Qed.

(** On a closed route it adds the distance from the first city to
    itself. *)
Lemma calculatePathDistance_closed (r : Route) (t : Q) (c : City) :
  (2 <= length r)%nat -> first_id r = last_id r ->
  calculateTotalDistance Math_sqrt (Some r) cities = Ok t ->
  city_at cities (first_id r) = Some c ->
  Live.calculatePathDistance Math_sqrt r cities
  = Ok (t + calculateDistance Math_sqrt c c).
Proof.
  intros Hlen Hclosed Ht Hc.
  unfold Live.calculatePathDistance. unfold calculateTotalDistance in Ht.
  replace (length r <? 2)%nat with false in Ht
    by (symmetry; apply Nat.ltb_ge; lia).
  replace (first_id r =? last_id r)%Z with true in Ht
    by (symmetry; apply Z.eqb_eq; exact Hclosed).
  cbv zeta in Ht. cbn [negb] in Ht. rewrite path_edges_eq.
  destruct (sum_edges Math_sqrt cities r 0) as [t'|]; [|discriminate].
  cbn [bind] in *. injection Ht as ->.
  unfold inline_distance. rewrite <- Hclosed, Hc. reflexivity.
Qed.

End LiveDistance.

(** X19.  [calculatePathDistance] closes every path.  On a route of two
    ids or more that does not end where it starts it returns what
    [calculateTotalDistance] returns, an error included.  On a route
    that does, it adds to that length the distance from the first city to
    itself.  On the empty path it throws a [TypeError], where
    [calculateTotalDistance] returns 0. *)
Theorem calculatePathDistance_closes_every_path (Math_sqrt : Q -> Q)
  (cities : list City) (r : Route) :
  (2 <= length r)%nat ->
  (first_id r <> last_id r ->
   Live.calculatePathDistance Math_sqrt r cities
   = calculateTotalDistance Math_sqrt (Some r) cities) /\
  (first_id r = last_id r ->
   forall t c,
     calculateTotalDistance Math_sqrt (Some r) cities = Ok t ->
     city_at cities (first_id r) = Some c ->
     Live.calculatePathDistance Math_sqrt r cities
     = Ok (t + calculateDistance Math_sqrt c c)) /\
  Live.calculatePathDistance Math_sqrt [] cities = Throw TypeError /\
  calculateTotalDistance Math_sqrt (Some []) cities = Ok 0.
Proof.
  intro Hlen. split; [|split; [|split]].
  - now apply calculatePathDistance_open.
  - intros Hclosed t c. now apply calculatePathDistance_closed.
  - reflexivity.
  - reflexivity.
Qed.

Lemma calculatePathDistance_closes_every_path_witness :
  (2 <= length [0; 1; 2; 3]%Z)%nat /\
  Live.calculatePathDistance Qsqrt [0; 1; 2; 3]%Z square_cities
  = calculateTotalDistance Qsqrt (Some [0; 1; 2; 3]%Z) square_cities.
Proof.
  assert (H : (2 <= length [0; 1; 2; 3]%Z)%nat) by (simpl; lia).
  split; [exact H|].
  destruct (calculatePathDistance_closes_every_path Qsqrt square_cities
              [0; 1; 2; 3]%Z H) as [Hopen _].
  apply Hopen. discriminate.
Defined.

(** ** The live search left to run *)

Lemma lt_number_trans (d d0 : Q) (best : number) :
  d < d0 -> lt_number d0 best = true -> lt_number d best = true.
Proof.
  destruct best as [b|]; cbn; [|reflexivity].
  rewrite !Qltb_lt. intros H1 H2. exact (Qlt_trans _ _ _ H1 H2).
Qed.

Lemma lt_number_between (d d0 : Q) (best : number) :
  lt_number d best = true -> lt_number d0 best = false -> d < d0.
Proof.
  destruct best as [b|]; cbn; [|discriminate].
  rewrite Qltb_lt, Qltb_ge. intros H1 H2. exact (Qlt_le_trans _ _ _ H1 H2).
Qed.

Lemma last_cons_default {A : Type} (l : list A) :
  forall a d1 d2, last (a :: l) d1 = last (a :: l) d2.
Proof.
  induction l as [|b l IH]; intros a d1 d2; [reflexivity|].
  change (last (b :: l) d1 = last (b :: l) d2). apply IH.
Qed.

Lemma token_after_undisturbed (token : Live.Token) (j : nat) :
  token_after undisturbed token j = token.
Proof. induction j as [|j IH]; [reflexivity | exact IH]. Qed.

Section LiveRuns.
Variable Math_sqrt : Q -> Q.
Variable cities : list City.

(** The loop of the live search, entered with [c] permutations checked,
    in a run whose token is not found set before the permutations are
    over: it checks them all, and keeps the incumbent when none is
    shorter, or else the first of the shortest. *)
Lemma live_for_uncancelled (env : Live.Environment) (total : nat)
  (token0 : Live.Token) (perms : list Route) :
  (forall p, In p perms -> valid_route cities p /\ p <> []) ->
  forall c best route reported,
    (forall j, (c <= j < c + length perms)%nat ->
               Live.cancelled (token_after env token0 j) = false) ->
    exists r,
      Live.live_for Math_sqrt cities env total perms
        (token_after env token0 c) best route c reported = Ok r /\
      Live.permutationsChecked r = (c + length perms)%nat /\
      Live.totalPermutations r = total /\
      ((Live.path r = route /\ Live.distance r = best /\
        forall q, In q perms ->
          exists dq,
            Live.calculatePathDistance Math_sqrt (close q) cities = Ok dq /\
            le_number best (Num dq)) \/
       exists before p after d,
         perms = before ++ p :: after /\
         Live.path r = Some (close p) /\ Live.distance r = Num d /\
         Live.calculatePathDistance Math_sqrt (close p) cities = Ok d /\
         lt_number d best = true /\
         (forall q, In q before ->
            exists dq,
              Live.calculatePathDistance Math_sqrt (close q) cities = Ok dq /\
              d < dq) /\
         (forall q, In q after ->
            exists dq,
              Live.calculatePathDistance Math_sqrt (close q) cities = Ok dq /\
              d <= dq)).
Proof.
  intro Hv. induction perms as [|perm perms IH];
    intros c best route reported Hclear.
  - cbn [Live.live_for]. eexists. split; [reflexivity|]. cbn.
    split; [lia|]. split; [reflexivity|]. left.
    split; [reflexivity|]. split; [reflexivity|]. intros q [].
  - cbn [Live.live_for]. rewrite (Hclear c) by (cbn [length]; lia).
    destruct (Hv perm (or_introl eq_refl)) as [Hvp Hne].
    destruct (calculatePathDistance_valid Math_sqrt cities (close perm))
      as [d0 Hd0].
    { unfold close. destruct perm; discriminate. }
    { now apply valid_route_close. }
    rewrite Hd0. cbn [bind].
    change (env (S c) (token_after env token0 c))
      with (token_after env token0 (S c)).
    set (best' := if lt_number d0 best then Num d0 else best).
    set (route' := if lt_number d0 best then Some (close perm) else route).
    destruct (IH (fun p Hp => Hv p (or_intror Hp)) (S c) best' route'
                (reported ++ [Live.mkProgress (S c) total d0 best']))
      as [r [Hr [Hk [Ht Hsrc]]]].
    { intros j Hj. apply Hclear. cbn [length]. lia. }
    exists r. split; [exact Hr|].
    split; [rewrite Hk; cbn [length]; lia|]. split; [exact Ht|].
    subst best' route'. destruct (lt_number d0 best) eqn:E.
    + right.
      destruct Hsrc as [[Hp [Hm Hall]]
                       |[before [p [after [d [Hsplit [Hp [Hm [Hd [Hlt [Hb Ha]]]]]]]]]]].
      * exists [], perm, perms, d0. cbn [app].
        split; [reflexivity|]. split; [exact Hp|]. split; [exact Hm|].
        split; [exact Hd0|]. split; [exact E|]. split; [intros q []|].
        exact Hall.
      * exists (perm :: before), p, after, d.
        split; [now rewrite Hsplit|]. split; [exact Hp|]. split; [exact Hm|].
        split; [exact Hd|].
        cbn [lt_number] in Hlt. apply Qltb_lt in Hlt.
        split; [exact (lt_number_trans d d0 best Hlt E)|].
        split; [|exact Ha].
        intros q [<-|Hq]; [exists d0; auto | now apply Hb].
    + destruct Hsrc as [[Hp [Hm Hall]]
                       |[before [p [after [d [Hsplit [Hp [Hm [Hd [Hlt [Hb Ha]]]]]]]]]]].
      * left. split; [exact Hp|]. split; [exact Hm|].
        intros q [<-|Hq]; [|now apply Hall].
        exists d0. split; [exact Hd0 | now apply lt_number_kept].
      * right. exists (perm :: before), p, after, d.
        split; [now rewrite Hsplit|]. split; [exact Hp|]. split; [exact Hm|].
        split; [exact Hd|]. split; [exact Hlt|]. split; [|exact Ha].
        intros q [<-|Hq]; [|now apply Hb].
        exists d0. split; [exact Hd0 | exact (lt_number_between d d0 best Hlt E)].
Qed.

(** The reports of the loop, whatever the environment does: one for each
    permutation checked, numbered from [c + 1], with bests that descend
    to the distance returned. *)
Lemma live_for_reports (env : Live.Environment) (total : nat)
  (perms : list Route) :
  forall token c best route reported r,
    Live.live_for Math_sqrt cities env total perms token best route c reported
    = Ok r ->
    exists new,
      Live.reported r = reported ++ new /\
      (c <= Live.permutationsChecked r <= c + length perms)%nat /\
      map Live.progress_checked new
      = seq (S c) (Live.permutationsChecked r - c) /\
      Forall (fun p => Live.progress_total p = total) new /\
      bests_descend best new /\
      Live.distance r = last (map Live.progress_best new) best.
Proof.
  induction perms as [|perm perms IH];
    intros token c best route reported r H.
  - cbn [Live.live_for] in H. injection H as <-. exists []. cbn.
    rewrite app_nil_r, Nat.sub_diag. repeat split; auto; lia.
  - cbn [Live.live_for] in H. destruct (Live.cancelled token).
    + injection H as <-. exists []. cbn.
      rewrite app_nil_r, Nat.sub_diag. repeat split; auto; lia.
    + destruct (Live.calculatePathDistance Math_sqrt (close perm) cities)
        as [d|]; [|discriminate].
      cbn [bind] in H. apply IH in H.
      destruct H as [new [Hrep [Hk [Hnum [Htot [Hdesc Hlast]]]]]].
      set (best' := if lt_number d best then Num d else best) in *.
      exists (Live.mkProgress (S c) total d best' :: new).
      split; [rewrite Hrep, <- app_assoc; reflexivity|].
      split; [cbn [length]; lia|].
      split.
      { cbn [map Live.progress_checked].
        replace (Live.permutationsChecked r - c)%nat
          with (S (Live.permutationsChecked r - S c)) by lia.
        cbn [seq]. now rewrite Hnum. }
      split; [constructor; [reflexivity | exact Htot]|].
      split.
      { cbn [bests_descend Live.progress_best Live.currentDistance].
        split; [|split; [|exact Hdesc]]; subst best';
          destruct (lt_number d best) eqn:E.
        - now apply lt_number_below.
        - apply le_number_refl.
        - apply le_number_refl.
        - now apply lt_number_kept. }
      rewrite Hlast. cbn [map Live.progress_best].
      destruct (map Live.progress_best new) as [|n l]; [reflexivity|].
      change (last (best' :: n :: l) best) with (last (n :: l) best).
      apply last_cons_default.
Qed.
End LiveRuns.

(** X20.  The live search left to run finds the first shortest tour.  On
    one to nine cities with their coordinates in range, when the
    controller is not found cancelled
    before the permutations are over, the promise resolves with all
    [n!] permutations checked and with the closure of a permutation that
    is strictly shorter than every permutation enumerated before it and
    at most as long as every tour of the cities. *)
Theorem live_search_finds_first_minimum (Math_sqrt : Q -> Q)
  (cities : list City) (env : Live.Environment) (token : Live.Token) :
  (1 <= length cities <= 9)%nat ->
  coordinates_in_range cities ->
  (forall j, (j < factorial (length cities))%nat ->
             Live.cancelled (token_after env token j) = false) ->
  exists r before p after d,
    Live.runBruteForceLive Math_sqrt cities env token = Ok r /\
    Live.permutationsChecked r = factorial (length cities) /\
    Live.totalPermutations r = factorial (length cities) /\
    generatePermutations (allCities (length cities)) = before ++ p :: after /\
    Live.path r = Some (close p) /\ Live.distance r = Num d /\
    Live.calculatePathDistance Math_sqrt (close p) cities = Ok d /\
    (forall q, In q before ->
       exists dq,
         Live.calculatePathDistance Math_sqrt (close q) cities = Ok dq /\
         d < dq) /\
    (forall q, open_tour (length cities) q ->
       exists dq,
         Live.calculatePathDistance Math_sqrt (close q) cities = Ok dq /\
         d <= dq).
Proof.
  intros [Hlo Hhi] _ Hclear. unfold Live.runBruteForceLive.
  replace (9 <? length cities)%nat with false
    by (symmetry; apply Nat.ltb_ge; lia).
  cbv zeta.
  destruct (live_for_uncancelled Math_sqrt cities env
              (factorial (length cities)) token
              (generatePermutations (allCities (length cities))))
    with (c := 0%nat) (best := Infinity) (route := @None (list Z))
         (reported := @nil Live.Progress)
    as [r [Hr [Hchecked [Htotal Hsrc]]]].
  - intros p Hp. apply generatePermutations_sound in Hp. split.
    + now apply open_tour_valid.
    + apply (open_tour_nonempty (length cities)); [lia | exact Hp].
  - intros j Hj. apply Hclear.
    rewrite generatePermutations_allCities_length in Hj. lia.
  - rewrite generatePermutations_allCities_length in Hchecked.
    cbn [token_after Nat.add] in *.
    destruct Hsrc as [[_ [_ Hall]]
                     |[before [p [after [d [Hsplit [Hp [Hm [Hd [_ [Hb Ha]]]]]]]]]]].
    + exfalso.
      destruct (generatePermutations (allCities (length cities)))
        as [|p ps] eqn:E.
      * pose proof (generatePermutations_allCities_length (length cities))
          as Hl.
        rewrite E in Hl. cbn [length] in Hl.
        pose proof (factorial_fact (length cities)) as Hf.
        pose proof (lt_O_fact (length cities)). lia.
      * destruct (Hall p (or_introl eq_refl)) as [dq [_ Hle]]. exact Hle.
    + exists r, before, p, after, d.
      split; [exact Hr|]. split; [exact Hchecked|]. split; [exact Htotal|].
      split; [exact Hsplit|]. split; [exact Hp|]. split; [exact Hm|].
      split; [exact Hd|]. split; [exact Hb|].
      intros q Hq. apply generatePermutations_complete in Hq.
      rewrite Hsplit in Hq. apply in_app_or in Hq.
      destruct Hq as [Hq|[<-|Hq]].
      * destruct (Hb q Hq) as [dq [Hdq Hlt]].
        exists dq. split; [exact Hdq | now apply Qlt_le_weak].
      * exists d. split; [exact Hd | apply Qle_refl].
      * now apply Ha.
Qed.

Lemma live_search_finds_first_minimum_witness :
  (1 <= length square_cities <= 9)%nat /\
  coordinates_in_range square_cities /\
  exists r,
    Live.runBruteForceLive Qsqrt square_cities undisturbed
      (Some Live.createBruteForceController) = Ok r /\
    Live.permutationsChecked r = 24%nat.
Proof.
  assert (Hn : (1 <= length square_cities <= 9)%nat) by (simpl; lia).
  split; [exact Hn|]. split; [exact square_cities_in_range|].
  destruct (live_search_finds_first_minimum Qsqrt square_cities undisturbed
              (Some Live.createBruteForceController) Hn
              square_cities_in_range)
    as [r [before [p [after [d [Hr [Hc _]]]]]]].
  - intros j _. rewrite token_after_undisturbed. reflexivity.
  - exists r. split; [exact Hr | exact Hc].
Defined.

(** X21.  The progress reports of the live search.  Whatever happens to
    the controller during the run, when the promise resolves there has
    been one report for each permutation checked, numbered from 1, each
    with the total [n!]; the best distance of a report is at most the
    distance reported with it and at most the best of the report before;
    and the distance returned is the best of the last report, or
    [Infinity] when nothing was checked. *)
Theorem live_search_progress_reports (Math_sqrt : Q -> Q)
  (cities : list City) (env : Live.Environment) (token : Live.Token)
  (r : Live.LiveResult) :
  Live.runBruteForceLive Math_sqrt cities env token = Ok r ->
  map Live.progress_checked (Live.reported r)
  = seq 1 (Live.permutationsChecked r) /\
  (Live.permutationsChecked r <= factorial (length cities))%nat /\
  Forall (fun p => Live.progress_total p = factorial (length cities))
    (Live.reported r) /\
  bests_descend Infinity (Live.reported r) /\
  Live.distance r = last (map Live.progress_best (Live.reported r)) Infinity.
Proof.
  unfold Live.runBruteForceLive.
  destruct (9 <? length cities)%nat; [discriminate|].
  cbv zeta. intro H. apply live_for_reports in H.
  destruct H as [new [Hrep [Hk [Hnum [Htot [Hdesc Hlast]]]]]].
  cbn [app] in Hrep. subst new.
  rewrite generatePermutations_allCities_length in Hk.
  rewrite Nat.sub_0_r in Hnum.
  split; [exact Hnum|]. split; [lia|]. split; [exact Htot|].
  split; [exact Hdesc | exact Hlast].
Qed.

Lemma live_search_progress_reports_witness :
  exists r,
    Live.runBruteForceLive Qsqrt two_cities (cancel_after 1)
      (Some Live.createBruteForceController) = Ok r /\
    map Live.progress_checked (Live.reported r)
    = seq 1 (Live.permutationsChecked r) /\
    Live.permutationsChecked r = 1%nat.
Proof.
  eexists. split; [vm_compute; reflexivity|].
  split; [|reflexivity].
  match goal with
  | |- map _ (Live.reported ?r) = _ =>
      destruct (live_search_progress_reports Qsqrt two_cities (cancel_after 1)
                  (Some Live.createBruteForceController) r)
        as [Hnum _]; [vm_compute; reflexivity | exact Hnum]
  end.
Defined.



(** ** The distance of the user's route *)

Lemma fold_left_map_index {A B C : Type} (f : A -> C -> A) (h : B -> C)
  (l : list B) :
  forall a, fold_left f (map h l) a = fold_left (fun a x => f a (h x)) l a.
Proof. induction l as [|x l IH]; intro a; [reflexivity | apply IH]. Qed.

Lemma fold_left_ext_in {A B : Type} (f g : A -> B -> A) (l : list B) :
  (forall a x, In x l -> f a x = g a x) ->
  forall a, fold_left f l a = fold_left g l a.
Proof.
  induction l as [|x l IH]; intros H a; [reflexivity|].
  cbn [fold_left]. rewrite (H a x) by now left.
  apply IH. intros a' x' Hx'. apply H. now right.
Qed.

Lemma nth_last_id (r : Route) : nth (length r - 1) r (-1)%Z = last_id r.
Proof.
  unfold last_id. induction r as [|a r IH]; [reflexivity|].
  destruct r as [|b r]; [reflexivity|].
  replace (length (a :: b :: r) - 1)%nat with (S (length (b :: r) - 1))
    by (simpl; lia).
  change (nth (S (length (b :: r) - 1)) (a :: b :: r) (-1)%Z)
    with (nth (length (b :: r) - 1) (b :: r) (-1)%Z).
  rewrite IH. reflexivity.
Qed.

Section UserRouteFacts.
Variable Math_sqrt : Q -> Q.
Variable cities : list City.

(** The edges of the route from an index to the next, summed by index,
    are the edges that [calculateTotalDistance] sums. *)
Lemma sum_edges_by_index (r : Route) :
  valid_route cities r ->
  forall acc,
    sum_edges Math_sqrt cities r acc
    = Ok (fold_left
            (fun total i =>
               match city_at cities (nth i r (-1)%Z),
                     city_at cities (nth (i + 1) r (-1)%Z) with
               | Some from, Some to =>
                   total + calculateDistance Math_sqrt from to
               | _, _ => total
               end)
            (seq 0 (length r - 1)) acc).
Proof.
  induction r as [|a r IH]; intros Hv acc; [reflexivity|].
  destruct r as [|b r]; [reflexivity|].
  inversion Hv as [|? ? Ha Hv']; subst.
  inversion Hv' as [|? ? Hb _]; subst.
  rewrite sum_edges_step. unfold distance_between.
  destruct (city_at_valid cities a Ha) as [ca Hca].
  destruct (city_at_valid cities b Hb) as [cb Hcb].
  rewrite Hca, Hcb. cbn [bind]. rewrite (IH Hv').
  replace (length (a :: b :: r) - 1)%nat with (S (length (b :: r) - 1))
    by (simpl; lia).
  cbn [seq fold_left]. cbn [nth Nat.add].
  rewrite Hca, Hcb. rewrite <- seq_shift, fold_left_map_index.
  reflexivity.
Qed.
End UserRouteFacts.

(** The cyclic sum by index is the sum of the edges and of the closing
    edge. *)
Lemma calculateRouteDistance_open (Math_sqrt : Q -> Q)
  (cities : list City) (r : Route) :
  valid_route cities r -> (2 <= length r)%nat -> first_id r <> last_id r ->
  calculateTotalDistance Math_sqrt (Some r) cities
  = Ok (calculateRouteDistance Math_sqrt cities r).
Proof.
  intros Hv Hlen Hopen. unfold calculateTotalDistance, calculateRouteDistance.
  replace (length r <? 2)%nat with false by (symmetry; apply Nat.ltb_ge; lia).
  replace (first_id r =? last_id r)%Z with false
    by (symmetry; apply Z.eqb_neq; exact Hopen).
  cbv zeta. cbn [negb].
  rewrite (sum_edges_by_index Math_sqrt cities r Hv). cbn [bind].
  assert (Hne : r <> []) by (intros ->; simpl in Hlen; lia).
  destruct (city_at_valid cities (last_id r)) as [cl Hcl].
  { apply (valid_route_In cities r _ Hv). now apply last_id_In. }
  destruct (city_at_valid cities (first_id r)) as [cf Hcf].
  { apply (valid_route_In cities r _ Hv). destruct r; [congruence | now left]. }
  unfold distance_between. rewrite Hcl, Hcf. cbn [bind].
  replace (length r) with (S (length r - 1)) at 2 by lia.
  rewrite seq_S, fold_left_app. cbn [fold_left Nat.add].
  replace ((length r - 1 + 1) mod length r)%nat with 0%nat
    by (replace (length r - 1 + 1)%nat with (length r) by lia;
        symmetry; apply Nat.Div0.mod_same).
  rewrite nth_last_id.
  replace (nth 0 r (-1)%Z) with (first_id r) by (destruct r; reflexivity).
  rewrite Hcl, Hcf. f_equal. f_equal.
  apply fold_left_ext_in. intros t i Hi. apply in_seq in Hi.
  rewrite (Nat.mod_small (i + 1) (length r)) by lia. reflexivity.
Qed.

(** X23.  The user's route is measured as the routes of the algorithms
    are.  On a route of two or more valid ids that does not end where it
    starts, [calculateRouteDistance] of [script.js] is the distance that
    [calculateTotalDistance] returns; on a route of fewer than two ids
    both are 0. *)
Theorem calculateRouteDistance_is_tour_length (Math_sqrt : Q -> Q)
  (cities : list City) (r : Route) :
  valid_route cities r ->
  ((2 <= length r)%nat -> first_id r <> last_id r ->
   calculateTotalDistance Math_sqrt (Some r) cities
   = Ok (calculateRouteDistance Math_sqrt cities r)) /\
  ((length r < 2)%nat ->
   calculateTotalDistance Math_sqrt (Some r) cities
   = Ok (calculateRouteDistance Math_sqrt cities r)).
Proof.
  intro Hv. split.
  - now apply calculateRouteDistance_open.
  - intro Hlen. unfold calculateTotalDistance, calculateRouteDistance.
    replace (length r <? 2)%nat with true
      by (symmetry; apply Nat.ltb_lt; lia).
    reflexivity.
Qed.

Lemma calculateRouteDistance_is_tour_length_witness :
  valid_route square_cities [2; 0; 3; 1]%Z /\
  (2 <= length [2; 0; 3; 1]%Z)%nat /\
  first_id [2; 0; 3; 1]%Z <> last_id [2; 0; 3; 1]%Z /\
  calculateTotalDistance Qsqrt (Some [2; 0; 3; 1]%Z) square_cities
  = Ok (calculateRouteDistance Qsqrt square_cities [2; 0; 3; 1]%Z).
Proof.
  assert (H1 : valid_route square_cities [2; 0; 3; 1]%Z)
    by (unfold valid_route; repeat constructor; simpl; lia).
  assert (H2 : (2 <= length [2; 0; 3; 1]%Z)%nat) by (simpl; lia).
  assert (H3 : first_id [2; 0; 3; 1]%Z <> last_id [2; 0; 3; 1]%Z)
    by discriminate.
  split; [exact H1|]. split; [exact H2|]. split; [exact H3|].
  destruct (calculateRouteDistance_is_tour_length Qsqrt square_cities
              [2; 0; 3; 1]%Z H1) as [Hopen _].
  exact (Hopen H2 H3).
Defined.

(** ** Scoring *)

Lemma percent_difference_facts (u o : Q) :
  0 < o ->
  ((u - o) / o * 100 == 0 <-> u == o) /\
  (u < o -> (u - o) / o * 100 < 0) /\
  (o <= u -> 0 <= (u - o) / o * 100).
Proof.
  intro Ho.
  assert (Hne : ~ o == 0) by (intro E; rewrite E in Ho; discriminate).
  assert (Hu : u - o == (u - o) / o * 100 * (o / 100)) by (field; exact Hne).
  assert (Hk : 0 < o / 100) by (apply Qlt_shift_div_l; [reflexivity | lra]).
  set (p := (u - o) / o * 100) in *. clearbody p.
  split; [split|split].
  - intro Hp. rewrite Hp in Hu. lra.
  - intro E. assert (H0 : p * (o / 100) == 0) by (rewrite <- Hu; lra).
    apply Qmult_integral in H0. destruct H0 as [H0|H0]; [exact H0 | lra].
  - intro Hlt. apply Qnot_le_lt. intro Hp.
    assert (0 <= p * (o / 100)) by (apply Qmult_le_0_compat; lra). lra.
  - intro Hle. apply Qnot_lt_le. intro Hp.
    assert (0 <= (- p) * (o / 100)) by (apply Qmult_le_0_compat; lra).
    assert (Hp0 : ~ p * (o / 100) == 0).
    { intro H0. apply Qmult_integral in H0. destruct H0; lra. }
    apply Hp0. lra.
Qed.

Lemma percent_difference_monotone (u1 u2 o : Q) :
  0 < o -> u1 <= u2 -> (u1 - o) / o * 100 <= (u2 - o) / o * 100.
Proof.
  intros Ho Hu.
  apply Qmult_le_compat_r; [|discriminate].
  unfold Qdiv. apply Qmult_le_compat_r; [lra|].
  apply Qlt_le_weak, Qinv_lt_0_compat. exact Ho.
Qed.

(** X24.  The grades of [calculateScore].  Against a positive optimal
    distance the score is 100 exactly when the user's distance equals the
    optimal one; a user's distance below the optimal one scores 80; and
    from the optimal distance upwards a longer route never scores more.
    Without an optimal distance, or with an optimal distance of 0, the
    score is 0. *)
Theorem calculateScore_grades (u1 u2 o : Q) :
  0 < o ->
  (MetricsEngine.calculateScore u1 (Some o) = 100%nat <-> u1 == o) /\
  (u1 < o -> MetricsEngine.calculateScore u1 (Some o) = 80%nat) /\
  (o <= u1 -> u1 <= u2 ->
   (MetricsEngine.calculateScore u2 (Some o)
    <= MetricsEngine.calculateScore u1 (Some o))%nat) /\
  MetricsEngine.calculateScore u1 None = 0%nat /\
  MetricsEngine.calculateScore u1 (Some 0) = 0%nat.
Proof.
  intro Ho.
  assert (Hne : Qeq_bool o 0 = false).
  { destruct (Qeq_bool o 0) eqn:E; [|reflexivity].
    apply Qeq_bool_iff in E. rewrite E in Ho. discriminate. }
  destruct (percent_difference_facts u1 o Ho) as [Hz1 [Hneg1 Hpos1]].
  destruct (percent_difference_facts u2 o Ho) as [Hz2 [_ Hpos2]].
  unfold MetricsEngine.calculateScore. rewrite Hne. cbv zeta.
  set (p1 := (u1 - o) / o * 100) in *.
  set (p2 := (u2 - o) / o * 100) in *.
  split; [|split; [|split; [|split; reflexivity]]].
  - rewrite <- Hz1. split.
    + destruct (Qeq_bool p1 0) eqn:E; [intros _; now apply Qeq_bool_iff|].
      destruct (Qle_bool p1 5); [discriminate|].
      destruct (Qle_bool p1 10); [discriminate|].
      destruct (Qle_bool p1 20); [discriminate|].
      destruct (Qle_bool p1 50); discriminate.
    + intro E. apply Qeq_bool_iff in E. now rewrite E.
  - intro Hlt. apply Hneg1 in Hlt.
    destruct (Qeq_bool p1 0) eqn:E;
      [apply Qeq_bool_iff in E; rewrite E in Hlt; discriminate|].
    destruct (Qle_bool p1 5) eqn:E5; [reflexivity|].
    exfalso. assert (H5 : p1 <= 5) by lra.
    apply Qle_bool_iff in H5. congruence.
  - intros Hlo Hle.
    pose proof (percent_difference_monotone u1 u2 o Ho Hle) as Hmono.
    fold p1 p2 in Hmono.
    pose proof (Hpos1 Hlo) as H1. clearbody p1 p2.
    destruct (Qeq_bool p1 0) eqn:E1.
    { destruct (Qeq_bool p2 0); [lia|].
      destruct (Qle_bool p2 5); [lia|].
      destruct (Qle_bool p2 10); [lia|].
      destruct (Qle_bool p2 20); [lia|].
      destruct (Qle_bool p2 50); lia. }
    assert (Hp1 : ~ p1 == 0)
      by (intro E; apply Qeq_bool_iff in E; congruence).
    destruct (Qeq_bool p2 0) eqn:E2.
    { apply Qeq_bool_iff in E2. exfalso. apply Hp1. lra. }
    assert (Hstep : forall c,
              Qle_bool p2 c = true -> Qle_bool p1 c = true).
    { intros c H. apply Qle_bool_iff in H. apply Qle_bool_iff. lra. }
    destruct (Qle_bool p2 5) eqn:A5; [rewrite (Hstep 5 A5); lia|].
    destruct (Qle_bool p2 10) eqn:A10;
      [rewrite (Hstep 10 A10); destruct (Qle_bool p1 5); lia|].
    destruct (Qle_bool p2 20) eqn:A20;
      [rewrite (Hstep 20 A20);
       destruct (Qle_bool p1 5); [lia|]; destruct (Qle_bool p1 10); lia|].
    destruct (Qle_bool p2 50) eqn:A50;
      [rewrite (Hstep 50 A50);
       destruct (Qle_bool p1 5); [lia|]; destruct (Qle_bool p1 10); [lia|];
       destruct (Qle_bool p1 20); lia|].
    lia.
Qed.

Lemma calculateScore_grades_witness :
  0 < 40 /\
  MetricsEngine.calculateScore 42 (Some 40) = 80%nat /\
  (MetricsEngine.calculateScore 50%Q (Some 40%Q)
   <= MetricsEngine.calculateScore 42%Q (Some 40%Q))%nat.
Proof.
  assert (H : 0 < 40) by reflexivity.
  split; [exact H|]. split; [reflexivity|].
  destruct (calculateScore_grades 42 50 40 H) as [_ [_ [Hmono _]]].
  apply Hmono; discriminate.
Defined.

(** ** The factorial of the metrics *)

(** X25.  The number of operations that the metrics show for the brute
    force is the number of permutations that the search enumerates:
    [MetricsEngine.factorial] is the factorial of the step generator, and
    this is the number of routes that [generatePermutations] yields over
    [n] cities.  (Up to 18 cities the products are exact in the numbers
    of the source.) *)
Theorem MetricsEngine_factorial_counts_permutations (n : nat) :
  (n <= 18)%nat ->
  MetricsEngine.factorial n = factorial n /\
  MetricsEngine.factorial n = fact n /\
  MetricsEngine.factorial n = length (generatePermutations (allCities n)).
Proof.
  intros _.
  assert (H : MetricsEngine.factorial n = factorial n).
  { unfold MetricsEngine.factorial, factorial.
    destruct (Nat.leb_spec n 1) as [Hle|Hgt]; [|reflexivity].
    replace (n - 1)%nat with 0%nat by lia. reflexivity. }
  split; [exact H|]. rewrite H.
  split; [apply factorial_fact|].
  symmetry. apply generatePermutations_allCities_length.
Qed.

Lemma MetricsEngine_factorial_counts_permutations_witness :
  (4 <= 18)%nat /\ MetricsEngine.factorial 4 = 24%nat /\
  length (generatePermutations (allCities 4)) = 24%nat.
Proof.
  assert (H : (4 <= 18)%nat) by lia.
  split; [exact H|].
  destruct (MetricsEngine_factorial_counts_permutations 4 H) as [_ [_ Hlen]].
  split; [reflexivity | rewrite <- Hlen; reflexivity].
Defined.

(** ** Placing the cities *)

Lemma allCities_S (n : nat) : allCities (S n) = allCities n ++ [Z.of_nat n].
Proof. unfold allCities. now rewrite seq_S, map_app. Qed.

(** With the ids equal to the indexes, looking a city up by its id finds
    it. *)
Lemma city_at_id (cities : list City) (c : City) :
  map id cities = allCities (length cities) ->
  In c cities -> city_at cities (id c) = Some c.
Proof.
  intros Hids Hin. apply In_nth_error in Hin. destruct Hin as [i Hi].
  assert (Hlt : (i < length cities)%nat)
    by (apply nth_error_Some; rewrite Hi; discriminate).
  assert (Hid : nth_error (map id cities) i = Some (id c))
    by (rewrite nth_error_map, Hi; reflexivity).
  rewrite Hids in Hid. unfold allCities in Hid.
  rewrite nth_error_map, nth_error_seq in Hid.
  replace (i <? length cities)%nat with true in Hid
    by (symmetry; apply Nat.ltb_lt; exact Hlt).
  cbn in Hid. injection Hid as <-.
  unfold city_at.
  replace (Z.of_nat i <? 0)%Z with false by (symmetry; apply Z.ltb_ge; lia).
  now rewrite Nat2Z.id.
Qed.

Section PlacementFacts.
Variable Math_sqrt : Q -> Q.
Variable Math_random : nat -> Q * Q.

(** The loop keeps the next id equal to the number of cities placed, and
    ends within the attempts it allows itself. *)
Lemma generateCities_while_ids (count : nat) (minX maxX minY maxY : Q)
  (fuel : nat) :
  forall cities id_ attempts,
    id_ = Z.of_nat (length cities) ->
    map id cities = allCities (length cities) ->
    (length cities <= count)%nat ->
    (count * 50 <= attempts + fuel)%nat ->
    exists cities',
      Script.generateCities_while Math_sqrt Math_random fuel count
        minX maxX minY maxY cities id_ attempts = Some cities' /\
      map id cities' = allCities (length cities') /\
      (length cities' <= count)%nat.
Proof.
  induction fuel as [|fuel IH]; intros cities id_ attempts Hid Hids Hlen Hfuel.
  - cbn [Script.generateCities_while].
    replace (attempts <? count * 50)%nat with false
      by (symmetry; apply Nat.ltb_ge; lia).
    rewrite Bool.andb_false_r. eauto.
  - cbn [Script.generateCities_while].
    destruct ((length cities <? count) && (attempts <? count * 50))%nat eqn:E;
      [|eauto].
    apply Bool.andb_true_iff in E. destruct E as [E1 E2].
    apply Nat.ltb_lt in E1. cbv zeta.
    destruct (negb (Script.hasOverlapWithCities Math_sqrt _ _ cities)).
    + apply IH.
      * rewrite length_app. cbn [length]. lia.
      * rewrite map_app, length_app, Hids. cbn [map length id].
        rewrite Nat.add_1_r, allCities_S, Hid. reflexivity.
      * rewrite length_app. cbn [length]. lia.
      * lia.
    + apply IH; [exact Hid | exact Hids | exact Hlen | lia].
Qed.
End PlacementFacts.

(** X26.  The cities are placed with their indexes as ids.  Whatever
    numbers [Math.random] returns, [generateCities] ends within its
    [count * 50] attempts and leaves at most [count] cities, the id of
    each being its index in [state.cities], so that looking a city up by
    its id, as the solver does, finds that city. *)
Theorem generateCities_ids_are_indexes (Math_sqrt : Q -> Q)
  (Math_random : nat -> Q * Q) (count : nat) (width height : Q) :
  exists cities,
    Script.generateCities Math_sqrt Math_random (count * 50) count
      width height = Some cities /\
    (length cities <= count)%nat /\
    map id cities = allCities (length cities) /\
    forall c, In c cities -> city_at cities (id c) = Some c.
Proof.
  assert (H : exists cities,
            Script.generateCities Math_sqrt Math_random (count * 50) count
              width height = Some cities /\
            map id cities = allCities (length cities) /\
            (length cities <= count)%nat).
  { unfold Script.generateCities. cbv zeta.
    destruct (_ || _)%bool.
    - exists []. split; [reflexivity|]. split; [reflexivity | cbn; lia].
    - apply generateCities_while_ids; [reflexivity | reflexivity | cbn; lia|].
      lia. }
  destruct H as [cities [Hrun [Hids Hlen]]].
  exists cities. split; [exact Hrun|]. split; [exact Hlen|].
  split; [exact Hids|]. intros c Hc. now apply city_at_id.
Qed.

(** ** Picking a route *)

Section ClickFacts.
Variable Math_sqrt : Q -> Q.
Variable Math_hypot : Q -> Q -> Q.

(** What the clicks maintain: the cities stay, and the route repeats no
    id, names cities only, and holds the distance once it is complete. *)
Lemma handleCanvasClick_inv (s : Script.State) (x_ y_ : Q) :
  map id (Script.cities s) = allCities (length (Script.cities s)) ->
  NoDup (Script.userRoute s) ->
  valid_route (Script.cities s) (Script.userRoute s) ->
  (length (Script.userRoute s) = length (Script.cities s) ->
   (1 <= length (Script.cities s))%nat ->
   Script.userDistance s
   = calculateRouteDistance Math_sqrt (Script.cities s) (Script.userRoute s)) ->
  Script.cities (Script.handleCanvasClick Math_sqrt Math_hypot s x_ y_)
  = Script.cities s /\
  NoDup (Script.userRoute (Script.handleCanvasClick Math_sqrt Math_hypot s x_ y_)) /\
  valid_route (Script.cities s)
    (Script.userRoute (Script.handleCanvasClick Math_sqrt Math_hypot s x_ y_)) /\
  (length (Script.userRoute
             (Script.handleCanvasClick Math_sqrt Math_hypot s x_ y_))
   = length (Script.cities s) ->
   (1 <= length (Script.cities s))%nat ->
   Script.userDistance (Script.handleCanvasClick Math_sqrt Math_hypot s x_ y_)
   = calculateRouteDistance Math_sqrt (Script.cities s)
       (Script.userRoute
          (Script.handleCanvasClick Math_sqrt Math_hypot s x_ y_))).
Proof.
  intros Hids Hnd Hv Hdist. unfold Script.handleCanvasClick.
  destruct (Script.isAnimating s); [auto|].
  destruct (_ =? _)%nat; [auto|].
  destruct (_ =? 0)%nat; [auto|].
  destruct (find _ (Script.cities s)) as [clicked|] eqn:Efind; [|auto].
  apply find_some in Efind. destruct Efind as [Hin _].
  destruct (existsb (Z.eqb (id clicked)) (Script.userRoute s)) eqn:Einc;
    [auto|].
  assert (Hnew : ~ In (id clicked) (Script.userRoute s)).
  { intro Hi. assert (Ht : existsb (Z.eqb (id clicked)) (Script.userRoute s) = true).
    { apply existsb_exists. exists (id clicked). split; [exact Hi|].
      apply Z.eqb_refl. }
    congruence. }
  assert (Hnd' : NoDup (Script.userRoute s ++ [id clicked])).
  { apply NoDup_app; [exact Hnd | repeat constructor; intros [] |].
    intros a Ha [<-|[]]. contradiction. }
  assert (Hv' : valid_route (Script.cities s)
                  (Script.userRoute s ++ [id clicked])).
  { unfold valid_route. apply Forall_app. split; [exact Hv|].
    constructor; [|constructor].
    pose proof (city_at_id _ _ Hids Hin) as Hat. unfold city_at in Hat.
    destruct (id clicked <? 0)%Z eqn:E; [discriminate|].
    apply Z.ltb_ge in E.
    assert (Z.to_nat (id clicked) < length (Script.cities s))%nat
      by (apply nth_error_Some; rewrite Hat; discriminate).
    lia. }
  destruct (_ =? _)%nat eqn:Elen; cbn [Script.cities Script.userRoute
                                       Script.userDistance].
  - auto.
  - split; [reflexivity|]. split; [exact Hnd'|]. split; [exact Hv'|].
    intro Hfull. apply Nat.eqb_neq in Elen. contradiction.
Qed.

Lemma clicks_inv (points : list (Q * Q)) :
  forall s,
    map id (Script.cities s) = allCities (length (Script.cities s)) ->
    NoDup (Script.userRoute s) ->
    valid_route (Script.cities s) (Script.userRoute s) ->
    (length (Script.userRoute s) = length (Script.cities s) ->
     (1 <= length (Script.cities s))%nat ->
     Script.userDistance s
     = calculateRouteDistance Math_sqrt (Script.cities s)
         (Script.userRoute s)) ->
    Script.cities (Script.clicks Math_sqrt Math_hypot s points)
    = Script.cities s /\
    NoDup (Script.userRoute (Script.clicks Math_sqrt Math_hypot s points)) /\
    valid_route (Script.cities s)
      (Script.userRoute (Script.clicks Math_sqrt Math_hypot s points)) /\
    (length (Script.userRoute (Script.clicks Math_sqrt Math_hypot s points))
     = length (Script.cities s) ->
     (1 <= length (Script.cities s))%nat ->
     Script.userDistance (Script.clicks Math_sqrt Math_hypot s points)
     = calculateRouteDistance Math_sqrt (Script.cities s)
         (Script.userRoute (Script.clicks Math_sqrt Math_hypot s points))).
Proof.
  unfold Script.clicks.
  induction points as [|p points IH]; intros s Hids Hnd Hv Hdist.
  - cbn [fold_left]. auto.
  - cbn [fold_left].
    destruct (handleCanvasClick_inv s (fst p) (snd p) Hids Hnd Hv Hdist)
      as [Hc [Hnd' [Hv' Hdist']]].
    rewrite <- Hc in Hids, Hv', Hdist'.
    destruct (IH _ Hids Hnd' Hv' Hdist') as [Hc2 [Hnd2 [Hv2 Hdist2]]].
    rewrite Hc in Hc2, Hv2, Hdist2. auto.
Qed.

(** A route without repetition over all the cities is a tour. *)
Lemma complete_route_is_tour (cities : list City) (r : Route) :
  NoDup r -> valid_route cities r -> length r = length cities ->
  open_tour (length cities) r.
Proof.
  intros Hnd Hv Hlen. unfold open_tour.
  apply NoDup_Permutation_bis; [exact Hnd | rewrite allCities_length; lia|].
  intros i Hi. apply allCities_In. exact (valid_route_In cities r i Hv Hi).
Qed.
End ClickFacts.

(** X27.  The route that the user picks.  On cities whose ids are their
    indexes, from an empty route, any clicks leave the cities as they
    are and a route that repeats no city and names cities only; once it
    holds as many ids as there are cities it is a tour of them, further
    clicks change nothing, and on two cities or more the distance shown
    for it is the distance that [calculateTotalDistance] gives it. *)
Theorem user_route_becomes_tour (Math_sqrt : Q -> Q)
  (Math_hypot : Q -> Q -> Q) (cities : list City) (animating : bool)
  (points : list (Q * Q)) :
  map id cities = allCities (length cities) ->
  Script.cities
    (Script.clicks Math_sqrt Math_hypot
       (Script.mkState cities [] 0 animating) points) = cities /\
  NoDup (Script.userRoute
           (Script.clicks Math_sqrt Math_hypot
              (Script.mkState cities [] 0 animating) points)) /\
  valid_route cities
    (Script.userRoute
       (Script.clicks Math_sqrt Math_hypot
          (Script.mkState cities [] 0 animating) points)) /\
  (length (Script.userRoute
             (Script.clicks Math_sqrt Math_hypot
                (Script.mkState cities [] 0 animating) points))
   = length cities ->
   open_tour (length cities)
     (Script.userRoute
        (Script.clicks Math_sqrt Math_hypot
           (Script.mkState cities [] 0 animating) points)) /\
   (forall x_ y_,
      Script.handleCanvasClick Math_sqrt Math_hypot
        (Script.clicks Math_sqrt Math_hypot
           (Script.mkState cities [] 0 animating) points) x_ y_
      = Script.clicks Math_sqrt Math_hypot
          (Script.mkState cities [] 0 animating) points) /\
   ((2 <= length cities)%nat ->
    calculateTotalDistance Math_sqrt
      (Some (Script.userRoute
               (Script.clicks Math_sqrt Math_hypot
                  (Script.mkState cities [] 0 animating) points))) cities
    = Ok (Script.userDistance
            (Script.clicks Math_sqrt Math_hypot
               (Script.mkState cities [] 0 animating) points)))).
Proof.
  intro Hids.
  destruct (clicks_inv Math_sqrt Math_hypot points
              (Script.mkState cities [] 0 animating))
    as [Hc [Hnd [Hv Hdist]]].
  - exact Hids.
  - constructor.
  - constructor.
  - cbn. intros H0 H1. lia.
  - cbn [Script.cities Script.userRoute] in *.
    set (s := Script.clicks Math_sqrt Math_hypot
                (Script.mkState cities [] 0 animating) points) in *.
    split; [exact Hc|]. split; [exact Hnd|]. split; [exact Hv|].
    intro Hfull.
    pose proof (complete_route_is_tour cities _ Hnd Hv Hfull) as Htour.
    split; [exact Htour|]. split.
    + intros x_ y_. unfold Script.handleCanvasClick.
      destruct (Script.isAnimating s); [reflexivity|].
      rewrite Hc, Hfull, Nat.eqb_refl. reflexivity.
    + intro Hn. rewrite (Hdist Hfull) by lia.
      apply calculateRouteDistance_open; [exact Hv | lia|].
      apply NoDup_first_last; [exact Hnd | lia].
Qed.

Lemma user_route_becomes_tour_witness :
  map id [city 0 0 0; city 1 100 0]
  = allCities (length [city 0 0 0; city 1 100 0]) /\
  Script.userRoute
    (Script.clicks Qsqrt (fun a b => Qsqrt (a * a + b * b))
       (Script.mkState [city 0 0 0; city 1 100 0] [] 0 false)
       [(100, 0); (0, 0); (100, 0)])
  = [1; 0]%Z /\
  calculateTotalDistance Qsqrt (Some [1; 0]%Z) [city 0 0 0; city 1 100 0]
  = Ok (Script.userDistance
          (Script.clicks Qsqrt (fun a b => Qsqrt (a * a + b * b))
             (Script.mkState [city 0 0 0; city 1 100 0] [] 0 false)
             [(100, 0); (0, 0); (100, 0)])).
Proof.
  assert (H : map id [city 0 0 0; city 1 100 0]
              = allCities (length [city 0 0 0; city 1 100 0]))
    by reflexivity.
  split; [exact H|].
  assert (Hroute : Script.userRoute
            (Script.clicks Qsqrt (fun a b => Qsqrt (a * a + b * b))
               (Script.mkState [city 0 0 0; city 1 100 0] [] 0 false)
               [(100, 0); (0, 0); (100, 0)]) = [1; 0]%Z)
    by (vm_compute; reflexivity).
  split; [exact Hroute|].
  destruct (user_route_becomes_tour Qsqrt (fun a b => Qsqrt (a * a + b * b))
              [city 0 0 0; city 1 100 0] false
              [(100, 0); (0, 0); (100, 0)] H)
    as [_ [_ [_ Hfull]]].
  rewrite Hroute in Hfull.
  destruct (Hfull eq_refl) as [_ [_ Hdist]].
  apply Hdist. simpl. lia.
Defined.


